(** * GraphenkoBot: the chat map, the registration engine, the command
      processor and the reconciliation engine of [index.mjs], with the
      persisted map of [src/storage/messageMapIO.mjs].

    The development is a shallow embedding.  The in-memory [messageMap] is a
    finite map from chat-id strings to records, [mapDirty] is a boolean next to
    it, and every request to the Telegram gateway is a node of a finite
    interaction tree whose answer is chosen by the environment.  Theorems are
    either equations between such trees or statements about every run of a
    tree against an arbitrary environment. *)

From Stdlib Require Import ZArith String Ascii List Bool Lia.
From stdpp Require Import gmap strings list fin_maps sorting pretty.

Local Open Scope string_scope.
Local Open Scope Z_scope.
Local Open Scope list_scope.

(** ** JavaScript string primitives

    A JavaScript string is represented by its UTF-8 encoding, which is also
    how the literals of this file are stored.  A character is a lead byte
    with the continuation bytes that follow it; comparison with a literal,
    [startsWith], [endsWith] and [includes] are the same on the encoding as on
    the string.  White space is the set that ECMAScript gives to [\s] and to
    [trim]: WhiteSpace and LineTerminator. *)

Definition is_upper (c : ascii) : bool :=
  let n := nat_of_ascii c in (65 <=? n)%nat && (n <=? 90)%nat.

Definition lower_char (c : ascii) : ascii :=
  if is_upper c then ascii_of_nat (nat_of_ascii c + 32) else c.

(** [toLowerCase] as far as the program observes it: the result is only
    compared with, or searched for, the literals "-default", ".png",
    "image/png", "not a member" and "message to delete not found".  Outside
    A-Z the only characters whose lower case holds an ASCII letter are U+212A
    (k, which no literal holds) and U+0130 (i followed by U+0307, which no
    literal continues), so lowering A-Z alone decides the same tests. *)
Fixpoint toLowerCase (s : string) : string :=
  match s with
  | EmptyString => EmptyString
  | String c r => String (lower_char c) (toLowerCase r)
  end.

Definition startsWith (s p : string) : bool := String.prefix p s.

Fixpoint includes (s sub : string) : bool :=
  String.prefix sub s ||
  match s with
  | EmptyString => false
  | String _ r => includes r sub
  end.

Definition endsWith (s suf : string) : bool :=
  let n := String.length s in
  let k := String.length suf in
  (k <=? n)%nat && String.eqb (String.substring (n - k) k s) suf.

(** A continuation byte of UTF-8, [10xxxxxx]. *)
Definition is_continuation (b : ascii) : bool :=
  let n := nat_of_ascii b in (128 <=? n)%nat && (n <=? 191)%nat.

(** The characters of a string, each with its own bytes; [cur] is the
    character being read. *)
Fixpoint chars_from (cur : string) (t : string) : list string :=
  match t with
  | EmptyString => [cur]
  | String b r =>
      if is_continuation b
      then chars_from (String.append cur (String b EmptyString)) r
      else cur :: chars_from (String b EmptyString) r
  end.

Definition chars (t : string) : list string :=
  match t with
  | EmptyString => []
  | String b r => chars_from (String b EmptyString) r
  end.

Definition unchars (cs : list string) : string :=
  fold_right String.append EmptyString cs.

(** The encoding of a code point of the basic plane. *)
Definition utf8 (cp : N) : string :=
  if (cp <? 128)%N then String (ascii_of_N cp) EmptyString
  else if (cp <? 2048)%N then
    String (ascii_of_N (192 + cp / 64))
      (String (ascii_of_N (128 + cp mod 64)) EmptyString)
  else
    String (ascii_of_N (224 + cp / 4096))
      (String (ascii_of_N (128 + (cp / 64) mod 64))
         (String (ascii_of_N (128 + cp mod 64)) EmptyString)).

(** WhiteSpace (TAB, VT, FF, ZWNBSP and the space separators) and
    LineTerminator (LF, CR, LS, PS) of ECMAScript, by code point. *)
Definition WHITE_SPACE : list N :=
  [ 0x09; 0x0A; 0x0B; 0x0C; 0x0D; 0x20; 0xA0; 0x1680;
    0x2000; 0x2001; 0x2002; 0x2003; 0x2004; 0x2005; 0x2006; 0x2007;
    0x2008; 0x2009; 0x200A; 0x2028; 0x2029; 0x202F; 0x205F; 0x3000;
    0xFEFF ]%N.

(** [\s] of a regular expression and the characters removed by [trim]. *)
Definition is_ws (c : string) : bool :=
  existsb (fun cp => String.eqb c (utf8 cp)) WHITE_SPACE.

(** [\w] of a regular expression without the [u] flag. *)
Definition is_word (c : ascii) : bool :=
  let n := nat_of_ascii c in
  ((48 <=? n)%nat && (n <=? 57)%nat) || ((65 <=? n)%nat && (n <=? 90)%nat)
  || ((97 <=? n)%nat && (n <=? 122)%nat) || (n =? 95)%nat.

Fixpoint drop_ws (cs : list string) : list string :=
  match cs with
  | c :: r => if is_ws c then drop_ws r else cs
  | [] => []
  end.

Definition trimStart (s : string) : string := unchars (drop_ws (chars s)).

Definition trimEnd (s : string) : string :=
  unchars (rev (drop_ws (rev (chars s)))).

Definition trim (s : string) : string :=
  unchars (rev (drop_ws (rev (drop_ws (chars s))))).

(** A string is truthy when it is not empty. *)
Definition nonempty (s : string) : bool :=
  match s with EmptyString => false | _ => true end.

(** [String(n)] for an integer [n]. *)
Definition String_of_Z (z : Z) : string := pretty z.

(** ** Constants ([src/config/constants.mjs]) *)

Definition OUTAGE_IMAGES_BASE : string :=
  "https://raw.githubusercontent.com/Baskerville42/outage-data-ua/refs/heads/main/images/".

Definition DEFAULT_CAPTION : string :=
  "⚡️ Графік стабілізаційних вимкнень. Це повідомлення оновлюється щогодини автоматично.".

(** ** The chat map *)

(** [image_url] is a string or an array of strings. *)
Inductive image : Type :=
| Url (u : string)
| Urls (us : list string).

(** The six [monitor_*] properties, which [index.mjs] never reads or writes. *)
Record MonitorFields : Type := mkMonitor {
  monitor_host : option string;
  monitor_port : option Z;
  monitor_interval_sec : option Z;
  monitor_last_status : option string;
  monitor_last_change : option Z;
  monitor_enabled : option bool
}.

Definition no_monitor : MonitorFields := mkMonitor None None None None None None.

(** One value of [messageMap]; an absent property is [None]. *)
Record ChatRecord : Type := mkRecord {
  image_url : option image;
  caption : option string;
  message_thread_id : option Z;
  message_id : option Z;
  message_ids : option (list Z);
  welcome_message_id : option Z;
  monitor : MonitorFields
}.

(** The object literal [{}]. *)
Definition empty_record : ChatRecord :=
  mkRecord None None None None None None no_monitor.

Definition set_image_url (v : option image) (r : ChatRecord) : ChatRecord :=
  mkRecord v (caption r) (message_thread_id r) (message_id r) (message_ids r)
           (welcome_message_id r) (monitor r).
Definition set_caption (v : option string) (r : ChatRecord) : ChatRecord :=
  mkRecord (image_url r) v (message_thread_id r) (message_id r) (message_ids r)
           (welcome_message_id r) (monitor r).
Definition set_message_id (v : option Z) (r : ChatRecord) : ChatRecord :=
  mkRecord (image_url r) (caption r) (message_thread_id r) v (message_ids r)
           (welcome_message_id r) (monitor r).
Definition set_message_ids (v : option (list Z)) (r : ChatRecord) : ChatRecord :=
  mkRecord (image_url r) (caption r) (message_thread_id r) (message_id r) v
           (welcome_message_id r) (monitor r).
Definition set_welcome_message_id (v : option Z) (r : ChatRecord) : ChatRecord :=
  mkRecord (image_url r) (caption r) (message_thread_id r) (message_id r)
           (message_ids r) v (monitor r).

(** Truthiness of the values the engine tests with [if (x)] or [!x]. *)
Definition truthy_id (o : option Z) : bool :=
  match o with Some z => negb (z =? 0)%Z | None => false end.

Definition truthy_str (o : option string) : bool :=
  match o with Some s => nonempty s | None => false end.

Definition truthy_image (o : option image) : bool :=
  match o with
  | Some (Url u) => nonempty u
  | Some (Urls _) => true
  | None => false
  end.

(** The global variables [messageMap] and [mapDirty]. *)
Record state : Type := mkState {
  messageMap : gmap string ChatRecord;
  mapDirty : bool
}.

Definition with_map (m : gmap string ChatRecord) (s : state) : state :=
  mkState m (mapDirty s).
Definition mark_dirty (s : state) : state := mkState (messageMap s) true.

(** [messageMap[chatId]] after [if (!messageMap[chatId]) messageMap[chatId] = {}]. *)
Definition record_of (s : state) (chatId : string) : ChatRecord :=
  default empty_record (messageMap s !! chatId).

Definition ensure_record (chatId : string) (s : state) : state :=
  match messageMap s !! chatId with
  | Some _ => s
  | None => with_map (<[chatId := empty_record]> (messageMap s)) s
  end.

(** Assignment to, or deletion of, a property of [messageMap[chatId]]. *)
Definition update_record (chatId : string) (f : ChatRecord -> ChatRecord)
    (s : state) : state :=
  with_map (<[chatId := f (record_of s chatId)]> (messageMap s)) s.

(** [removeChat] (index.mjs 24-32); the boolean is its return value. *)
Definition removeChat (chatId : string) (s : state) : bool * state :=
  match messageMap s !! chatId with
  | Some _ => (true, mark_dirty (with_map (delete chatId (messageMap s)) s))
  | None => (false, s)
  end.

(** ** The gateway

    A request to the Telegram API (or a plain HTTP fetch) is a [call]; its
    type index is the type of what the caller reads from the answer. *)

Inductive reply (A : Type) : Type :=
| Ok (result : A)                                      (* json.ok *)
| NotOk (error_code : Z) (description : option string) (* !json.ok *)
| Threw.                                               (* fetch threw *)
Arguments Ok {A} result.
Arguments NotOk {A} error_code description.
Arguments Threw {A}.

(** What [verifyRemotePng] reads from a fetch response. *)
Record HttpResponse : Type := mkHttp {
  res_ok : bool;
  res_headers : bool;
  content_type : option string
}.

(** [Ok] carries [result.message_id] of the message, or of each message. *)
Inductive call : Type -> Type :=
| SendPhoto (chat photo cap : string) (thread : option Z) : call (reply Z)
| EditMessageMedia (chat : string) (mid : Z) (media cap : string) : call (reply unit)
| SendMediaGroup (chat : string) (media : list (string * string))
    (thread : option Z) : call (reply (list Z))
| DeleteMessage (chat : string) (mid : Z) : call (reply unit)
| PinChatMessage (chat : string) (mid : Z) : call (reply unit)
| SendMessage (chat text : string) : call (reply Z)
| Fetch (method url : string) : call (option HttpResponse).

(** Finite interaction trees over [call]. *)
Inductive prog (A : Type) : Type :=
| Ret (a : A)
| Vis {T : Type} (c : call T) (k : T -> prog A).
Arguments Ret {A} a.
Arguments Vis {A T} c k.

Fixpoint pbind {A B : Type} (p : prog A) (f : A -> prog B) : prog B :=
  match p with
  | Ret a => f a
  | Vis c k => Vis c (fun t => pbind (k t) f)
  end.

(** Code that reads and writes [messageMap] and [mapDirty] and talks to the
    gateway. *)
Definition M (A : Type) : Type := state -> prog (A * state).

Definition ret {A : Type} (a : A) : M A := fun s => Ret (a, s).

Definition bind {A B : Type} (m : M A) (f : A -> M B) : M B :=
  fun s => pbind (m s) (fun x => f (fst x) (snd x)).

Definition gateway {T : Type} (c : call T) : M T :=
  fun s => Vis c (fun t => Ret (t, s)).

Definition get_state : M state := fun s => Ret (s, s).
Definition modify (f : state -> state) : M unit := fun s => Ret (tt, f s).
Definition lift {A : Type} (f : state -> A * state) : M A := fun s => Ret (f s).

Declare Scope m_scope.
Delimit Scope m_scope with M.
Notation "x <- c ;; k" := (bind c (fun x => k))
  (at level 100, c at level 99, right associativity) : m_scope.
Notation "c ;; k" := (bind c (fun _ => k))
  (at level 100, right associativity) : m_scope.
Local Open Scope m_scope.

(** A run against an environment: the environment answers every call, knowing
    the calls and answers so far. *)
Inductive event : Type :=
| Ev {T : Type} (c : call T) (answer : T).

Definition environment : Type := forall T : Type, list event -> call T -> T.

Fixpoint run {A : Type} (env : environment) (p : prog A) (tr : list event)
    : A * list event :=
  match p with
  | Ret a => (a, tr)
  | Vis c k => let t := env _ tr c in run env (k t) (tr ++ [Ev c t])
  end.

(** The requests of a trace, without their answers. *)
Inductive request : Type :=
| Req {T : Type} (c : call T).

Definition request_of (e : event) : request :=
  match e with Ev c _ => Req c end.

(** ** Gateway wrappers ([src/telegram/api.mjs]) *)

Definition description_includes (d : option string) (sub : string) : bool :=
  match d with Some t => includes t sub | None => false end.

Definition description_includes_ci (d : option string) (sub : string) : bool :=
  match d with Some t => includes (toLowerCase t) sub | None => false end.

(** The boolean is the [ok] of the returned object. *)
Definition pinMessage (chat : string) (mid : Z) : M bool :=
  r <- gateway (PinChatMessage chat mid) ;;
  ret (match r with Ok _ => true | _ => false end).

Definition deleteMessage (chat : string) (mid : Z) : M bool :=
  r <- gateway (DeleteMessage chat mid) ;;
  ret (match r with
       | Ok _ => true
       | NotOk code d =>
           (code =? 400)%Z && description_includes_ci d "message to delete not found"
       | Threw => false
       end).

Definition sendTextMessage (chat text : string) : M (reply Z) :=
  gateway (SendMessage chat text).

Definition sendMediaGroup (chat : string) (media : list (string * string))
    (thread : option Z) : M (reply (list Z)) :=
  gateway (SendMediaGroup chat media (if truthy_id thread then thread else None)).

(** ** Updates ([getUpdates]) *)

Record Chat : Type := mkChat {
  c_id : Z;          (* chat.id *)
  c_type : string    (* chat.type *)
}.

Record ChatMemberUpdated : Type := mkMember {
  mcm_chat : option Chat;
  new_status : option string   (* new_chat_member?.status *)
}.

Record Message : Type := mkMessage {
  m_chat : option Chat;
  m_text : option string;
  m_caption : option string;
  m_message_id : option Z
}.

Record Update : Type := mkUpdate {
  my_chat_member : option ChatMemberUpdated;
  message : option Message;
  channel_post : option Message
}.

(** [[...].includes(status)]; an absent status is in no list. *)
Definition status_in (l : list string) (status : option string) : bool :=
  match status with
  | Some st => existsb (String.eqb st) l
  | None => false
  end.

(** ** Registration ([registerFromUpdates], index.mjs 36-74) *)

(** One iteration of the loop over [updates]; [newlyRegistered] is threaded
    with the state. *)
Definition register_step (acc : list string * state) (u : Update)
    : list string * state :=
  let (newlyRegistered, s) := acc in
  match my_chat_member u with
  | None => acc
  | Some mcm =>
      match mcm_chat mcm with
      | None => acc
      | Some ch =>
          let type := c_type ch in
          if negb (String.eqb type "channel") && negb (String.eqb type "supergroup")
             && negb (String.eqb type "group")
          then acc
          else
            let status := new_status mcm in
            let chatId := String_of_Z (c_id ch) in
            if status_in ["left"; "kicked"; "restricted"] status then
              let prev := bool_decide (is_Some (messageMap s !! chatId)) in
              let (removed, s1) := removeChat chatId s in
              (newlyRegistered, if removed && prev then mark_dirty s1 else s1)
            else if negb (status_in ["administrator"; "creator"; "member"] status)
            then acc
            else
              let isNew := negb (bool_decide (is_Some (messageMap s !! chatId))) in
              let s1 := ensure_record chatId s in
              (if isNew then newlyRegistered ++ [chatId] else newlyRegistered, s1)
      end
  end.

Definition registerFromUpdates (updates : list Update) (s : state)
    : list string * state :=
  let (newlyRegistered, s1) := fold_left register_step updates ([], s) in
  (newlyRegistered,
   if (0 <? length newlyRegistered)%nat then mark_dirty s1 else s1).

(** ** Outcomes of a send or an edit *)

(** The effective configuration of a chat (index.mjs 460-466). *)
Record effective : Type := mkEffective {
  chat_id : string;
  e_image_url : option image;
  e_message_thread_id : option Z;
  e_caption : string
}.

(** One entry of the [results] array that [editAlbum] collects. *)
Record item_result : Type := mkItem {
  item_ok : bool;
  item_json : option (Z * option string);
  item_err : bool
}.

(** The [result] property of an outcome. *)
Inductive payload : Type :=
| SentMessage (mid : Z)
| SentMessages (mids : list Z)
| EditedMessage
| EditedItems (items : list item_result).

(** The objects pushed to [results]. *)
Record outcome : Type := mkOutcome {
  ok : bool;
  chat : option effective;
  reason : option string;
  out_message_id : option Z;
  out_message_ids : option (list Z);
  result : option payload;
  json : option (Z * option string);
  err : bool;
  replaced : bool;
  not_modified : bool
}.

(** [{ ok, chat }] and the properties added to it. *)
Definition base_outcome (o : bool) (c : option effective) : outcome :=
  mkOutcome o c None None None None None false false false.
Definition with_reason (t : string) (r : outcome) : outcome :=
  mkOutcome (ok r) (chat r) (Some t) (out_message_id r) (out_message_ids r)
            (result r) (json r) (err r) (replaced r) (not_modified r).
Definition with_message_id (mid : Z) (r : outcome) : outcome :=
  mkOutcome (ok r) (chat r) (reason r) (Some mid) (out_message_ids r)
            (result r) (json r) (err r) (replaced r) (not_modified r).
Definition with_message_ids (mids : list Z) (r : outcome) : outcome :=
  mkOutcome (ok r) (chat r) (reason r) (out_message_id r) (Some mids)
            (result r) (json r) (err r) (replaced r) (not_modified r).
Definition with_result (p : payload) (r : outcome) : outcome :=
  mkOutcome (ok r) (chat r) (reason r) (out_message_id r) (out_message_ids r)
            (Some p) (json r) (err r) (replaced r) (not_modified r).
Definition with_json (code : Z) (d : option string) (r : outcome) : outcome :=
  mkOutcome (ok r) (chat r) (reason r) (out_message_id r) (out_message_ids r)
            (result r) (Some (code, d)) (err r) (replaced r) (not_modified r).
Definition with_err (r : outcome) : outcome :=
  mkOutcome (ok r) (chat r) (reason r) (out_message_id r) (out_message_ids r)
            (result r) (json r) true (replaced r) (not_modified r).
Definition with_replaced (r : outcome) : outcome :=
  mkOutcome (ok r) (chat r) (reason r) (out_message_id r) (out_message_ids r)
            (result r) (json r) (err r) true (not_modified r).
Definition with_not_modified (r : outcome) : outcome :=
  mkOutcome (ok r) (chat r) (reason r) (out_message_id r) (out_message_ids r)
            (result r) (json r) (err r) (replaced r) true.

(** [r.reason === t]. *)
Definition reason_is (t : string) (r : outcome) : bool :=
  match reason r with Some x => String.eqb x t | None => false end.

Global Instance image_eq_dec : EqDecision image.
Proof. solve_decision. Defined.

(** ** The persisted map ([src/storage/messageMapIO.mjs])

    A file is represented by the JSON document it holds.  [JSON.stringify(arr,
    null, 2) + '\n'] writes the document [arr] and [JSON.parse] of the trimmed
    text reads it back, so two files written by [saveMessageMapToFile] hold the
    same bytes as soon as they hold the same document.  The functions below
    are the code between those two runtime calls. *)

#[warnings="-register-all"]
Inductive value : Type :=
| VNull
| VBool (b : bool)
| VNum (n : Z)
| VStr (t : string)
| VArr (items : list value)
| VObj (props : list (string * value)).

(** [x && typeof x === 'object']. *)
Definition is_object (v : value) : bool :=
  match v with
  | VArr _ | VObj _ => true
  | _ => false
  end.

Definition truthy (v : value) : bool :=
  match v with
  | VNull => false
  | VBool b => b
  | VNum n => negb (n =? 0)
  | VStr t => nonempty t
  | VArr _ | VObj _ => true
  end.

Fixpoint assoc (k : string) (props : list (string * value)) : option value :=
  match props with
  | [] => None
  | (k', v) :: rest => if String.eqb k k' then Some v else assoc k rest
  end.

Fixpoint array_get (k : string) (i : nat) (items : list value) : option value :=
  match items with
  | [] => None
  | v :: rest => if String.eqb k (pretty i) then Some v else array_get k (S i) rest
  end.

(** [v[k]] for an object or an array; [None] is [undefined]. *)
Definition get_prop (v : value) (k : string) : option value :=
  match v with
  | VObj props => assoc k props
  | VArr items => array_get k 0 items
  | _ => None
  end.

(** [Object.keys(v)]. *)
Definition keys_of (v : value) : list string :=
  match v with
  | VObj props => props.*1
  | VArr items => map (fun i : nat => pretty i) (seq 0 (length items))
  | _ => []
  end.

(** [k in v]. *)
Definition has_key (v : value) (k : string) : bool :=
  match get_prop v k with Some _ => true | None => false end.

(** [v.deleted === true]. *)
Definition is_deleted (v : value) : bool :=
  match get_prop v "deleted" with
  | Some (VBool true) => true
  | _ => false
  end.

Definition join_comma (parts : list string) : string := String.concat "," parts.

(** [String(v)]. *)
Fixpoint js_String (v : value) : string :=
  match v with
  | VNull => "null"
  | VBool true => "true"
  | VBool false => "false"
  | VNum n => String_of_Z n
  | VStr t => t
  | VArr items =>
      join_comma (map (fun x => match x with VNull => "" | _ => js_String x end) items)
  | VObj _ => "[object Object]"
  end.

(** How a property is copied into a fresh entry: when it is defined (or own),
    or when it is truthy. *)
Inductive keep : Type := IfDefined | IfTruthy.

(** The twelve copying statements shared by load and save, in their order
    (messageMapIO.mjs 27-39, 53-65, 89-101). *)
Definition FIELDS : list (string * keep) :=
  [ ("message_id", IfDefined); ("message_ids", IfDefined);
    ("image_url", IfTruthy); ("caption", IfDefined);
    ("welcome_message_id", IfDefined); ("message_thread_id", IfDefined);
    ("monitor_host", IfTruthy); ("monitor_port", IfDefined);
    ("monitor_interval_sec", IfDefined); ("monitor_last_status", IfDefined);
    ("monitor_last_change", IfDefined); ("monitor_enabled", IfDefined) ].

Definition MONITOR_FIELDS : list string :=
  [ "monitor_host"; "monitor_port"; "monitor_interval_sec";
    "monitor_last_status"; "monitor_last_change"; "monitor_enabled" ].

(** [if (src.f ...) entry.f = src.f]. *)
Definition copy_field (src : value) (entry : list (string * value))
    (f : string * keep) : list (string * value) :=
  match get_prop src (fst f) with
  | Some v =>
      match snd f with
      | IfDefined => entry ++ [(fst f, v)]
      | IfTruthy => if truthy v then entry ++ [(fst f, v)] else entry
      end
  | None => entry
  end.

(** Whether a defined property passes the test of its copying statement. *)
Definition keeps (kp : keep) (v : value) : bool :=
  match kp with
  | IfDefined => true
  | IfTruthy => truthy v
  end.

(** [const entry = {}] followed by the twelve copies. *)
Definition build_entry (src : value) : value :=
  VObj (fold_left (copy_field src) FIELDS []).

(** One iteration of the loop of [loadMessageMapFromFile] (messageMapIO.mjs
    14-73) on [map] and [mapWasNormalized]. *)
Definition load_step (acc : gmap string value * bool) (item : value)
    : gmap string value * bool :=
  let (m, normalized) := acc in
  if negb (is_object item) then (m, true)
  else
    let keys := keys_of item in
    if (length keys =? 1)%nat && negb (has_key item "chat_id") then
      match keys with
      | k :: _ =>
          match get_prop item k with
          | Some val =>
              if is_object val then
                if is_deleted val then (m, true)
                else (<[k := build_entry val]> m, normalized)
              else (m, true)
          | None => (m, true)
          end
      | [] => (m, true)
      end
    else if has_key item "chat_id" then
      let chatId := js_String (default VNull (get_prop item "chat_id")) in
      if negb (nonempty chatId) then (m, true)
      else if is_deleted item then (m, true)
      else (<[chatId := build_entry item]> m, true)
    else (m, true).

(** [loadMessageMapFromFile]: [None] is a file that is missing, empty or not
    JSON; the result is [map] and [wasNormalized]. *)
Definition loadMessageMapFromFile (file : option value)
    : gmap string value * bool :=
  match file with
  | Some (VArr arr) => fold_left load_step arr (∅, false)
  | _ => (∅, false)
  end.

(** Modelled from the spec: [String.prototype.localeCompare] of the runtime is
    not part of the repository; the keys are "sorted lexicographically", which
    on chat identifiers (an optional minus sign and digits) is the order of
    their code units. *)
Definition localeCompare (a b : string) : comparison := String.compare a b.

(** [a] is not after [b] in that order. *)
Definition key_le (a b : string) : Prop := localeCompare a b <> Gt.

(** [keys.sort((a, b) => a.localeCompare(b))], a stable sort. *)
Fixpoint sort_insert (k : string) (sorted : list string) : list string :=
  match sorted with
  | [] => [k]
  | x :: rest =>
      match localeCompare k x with
      | Gt => x :: sort_insert k rest
      | _ => k :: sorted
      end
  end.

Definition sort_keys (keys : list string) : list string :=
  foldr sort_insert [] keys.

(** The array element [{ [k]: entry }] (messageMapIO.mjs 86-104). *)
Definition saved_entry (m : gmap string value) (k : string) : value :=
  match m !! k with
  | Some v => if is_object v then build_entry v else VObj []
  | None => VObj []
  end.

Definition save_item (m : gmap string value) (k : string) : value :=
  VObj [(k, saved_entry m k)].

(** [saveMessageMapToFile]: the document handed to [JSON.stringify]. *)
Definition saveMessageMapToFile (m : gmap string value) : value :=
  VArr (map (save_item m) (sort_keys (map_to_list m).*1)).

(** What a saved file holds of the monitor property [f] of a record: the
    property as it is, a falsy [monitor_host] being the one that is not
    written (messageMapIO.mjs 96). *)
Definition kept_monitor (v : value) (f : string) : option value :=
  match get_prop v f with
  | Some x =>
      if String.eqb f "monitor_host" && negb (truthy x) then None else Some x
  | None => None
  end.

(** A chat identifier: a string-typed integer. *)
Fixpoint all_digits (s : string) : bool :=
  match s with
  | EmptyString => true
  | String c r =>
      let n := nat_of_ascii c in (48 <=? n)%nat && (n <=? 57)%nat && all_digits r
  end.

Definition is_chat_id (s : string) : bool :=
  match s with
  | String "-" r => nonempty r && all_digits r
  | _ => nonempty s && all_digits s
  end.

Section Engine.

(** The clock and the URL parser of the runtime: [getTimestamp()] of
    [src/utils/time.mjs], [cacheBustedUrl] of [src/utils/url.mjs] (which reads
    [Date.now()]), and whether [new URL(url)] succeeds. *)
Variable getTimestamp : string.
Variable cacheBustedUrl : option image -> string.
Variable URL_parses : string -> bool.

Definition newline : string := String (ascii_of_nat 10) EmptyString.

(** [withTimestamp] (src/utils/time.mjs 37-40). *)
Definition withTimestamp (caption : string) : string :=
  if nonempty caption
  then String.append caption
         (String.append newline (String.append "Оновлено: " getTimestamp))
  else String.append "Оновлено: " getTimestamp.

(** [Array.isArray(chat.image_url) ? chat.image_url : [chat.image_url]]. *)
Definition images_of (i : option image) : list (option image) :=
  match i with
  | Some (Urls us) => map (fun u => Some (Url u)) us
  | other => [other]
  end.

(** ** [sendPhoto] (index.mjs 77-118) *)
Definition sendPhoto (c : effective) : M outcome :=
  let caption := withTimestamp (e_caption c) in
  let photoUrl := cacheBustedUrl (e_image_url c) in
  r <- gateway (SendPhoto (chat_id c) photoUrl caption (e_message_thread_id c)) ;;
  match r with
  | NotOk code d =>
      if (code =? 403) && description_includes_ci d "not a member" then
        lift (removeChat (chat_id c)) ;;
        ret (with_reason "unregistered" (base_outcome true (Some c)))
      else if (code =? 400) && description_includes d "TOPIC_CLOSED" then
        ret (with_reason "topic-closed" (base_outcome true (Some c)))
      else
        ret (with_json code d (base_outcome false (Some c)))
  | Ok messageId =>
      pinMessage (chat_id c) messageId ;;
      ret (with_result (SentMessage messageId)
             (with_message_id messageId (base_outcome true (Some c))))
  | Threw => ret (with_err (base_outcome false (Some c)))
  end.

(** ** [editPhoto] (index.mjs 120-175) *)
Definition editPhoto (c : effective) (messageId : Z) : M outcome :=
  let caption := withTimestamp (e_caption c) in
  let photoUrl := cacheBustedUrl (e_image_url c) in
  r <- gateway (EditMessageMedia (chat_id c) messageId photoUrl caption) ;;
  match r with
  | NotOk code d =>
      if (code =? 400) && description_includes d "message is not modified" then
        pinMessage (chat_id c) messageId ;;
        ret (with_not_modified (base_outcome true (Some c)))
      else if (code =? 400) && description_includes d "TOPIC_CLOSED" then
        ret (with_reason "topic-closed" (base_outcome true (Some c)))
      else if (code =? 400) then
        deleteMessage (chat_id c) messageId ;;
        sent <- sendPhoto c ;;
        ret (with_replaced sent)
      else if (code =? 403) && description_includes_ci d "not a member" then
        lift (removeChat (chat_id c)) ;;
        ret (with_reason "unregistered" (base_outcome true (Some c)))
      else
        ret (with_json code d (base_outcome false (Some c)))
  | Ok _ =>
      pinMessage (chat_id c) messageId ;;
      ret (with_result EditedMessage (base_outcome true (Some c)))
  | Threw => ret (with_err (base_outcome false (Some c)))
  end.

(** The [media] array of [sendAlbum]: the caption goes to index 0 only. *)
Fixpoint album_media (caption : string) (first : bool)
    (images : list (option image)) : list (string * string) :=
  match images with
  | [] => []
  | url :: rest =>
      (cacheBustedUrl url, if first then caption else "")
      :: album_media caption false rest
  end.

(** ** [sendAlbum] (index.mjs 177-211) *)
Definition sendAlbum (c : effective) : M outcome :=
  let images := images_of (e_image_url c) in
  let caption := withTimestamp (e_caption c) in
  let media := album_media caption true images in
  res <- sendMediaGroup (chat_id c) media (e_message_thread_id c) ;;
  match res with
  | NotOk code d =>
      if (code =? 403) then
        lift (removeChat (chat_id c)) ;;
        ret (with_reason "unregistered" (base_outcome true (Some c)))
      else ret (with_json code d (base_outcome false (Some c)))
  | Threw => ret (base_outcome false (Some c))
  | Ok messageIds =>
      match messageIds with
      | first :: _ => pinMessage (chat_id c) first ;; ret tt
      | [] => ret tt
      end ;;
      ret (with_result (SentMessages messageIds)
             (with_message_ids messageIds (base_outcome true (Some c))))
  end.

(** The value of [currentIds]: a stored [message_id] or a stored
    [message_ids] array. *)
Inductive ids : Type :=
| IdSingle (mid : Z)
| IdAlbum (mids : list Z).

(** The body of the [for] loop of [editAlbum] (index.mjs 229-270), from index
    [i] on; [first] is [i === 0]. *)
Fixpoint editAlbum_loop (c : effective) (caption : string) (first : bool)
    (existingMessageIds : list Z) (images : list (option image))
    (results : list item_result) : M (list item_result) :=
  match images, existingMessageIds with
  | imgUrl :: images', msgId :: rest =>
      r <- gateway (EditMessageMedia (chat_id c) msgId (cacheBustedUrl imgUrl)
                      (if first then caption else "")) ;;
      let results' :=
        match r with
        | NotOk code d =>
            if (code =? 400) && description_includes d "message is not modified"
            then results
            else results ++ [mkItem false (Some (code, d)) false]
        | Ok _ => results ++ [mkItem true None false]
        | Threw => results ++ [mkItem false None true]
        end in
      editAlbum_loop c caption false rest images' results'
  | _, _ => ret results
  end.

(** ** [editAlbum] (index.mjs 213-281)

    [existingMessageIds.length] is undefined for a value that is not an array,
    which takes the size-mismatch branch.  ([null] raises in the source; it is
    given the same outcome here, and the loop is proved never to pass it.) *)
Definition editAlbum (c : effective) (existingMessageIds : option ids)
    : M outcome :=
  let images := images_of (e_image_url c) in
  let caption := withTimestamp (e_caption c) in
  match existingMessageIds with
  | Some (IdAlbum existing) =>
      if negb (length images =? length existing)%nat then
        ret (with_reason "size-mismatch" (base_outcome false None))
      else
        results <- editAlbum_loop c caption true existing images [] ;;
        match existing with
        | first :: _ => pinMessage (chat_id c) first ;; ret tt
        | [] => ret tt
        end ;;
        ret (with_result (EditedItems results) (base_outcome true (Some c)))
  | _ => ret (with_reason "size-mismatch" (base_outcome false None))
  end.

(** ** [sendWelcomeMessage] (index.mjs 284-297) *)
Definition WELCOME_TEXT : string :=
  "🤖 GraphenkoBot був успішно підключений. Готовий до подальших команд.".

Definition sendWelcomeMessage (chatId : string) : M (reply Z) :=
  r <- sendTextMessage chatId WELCOME_TEXT ;;
  match r with
  | Ok messageId =>
      modify (ensure_record chatId) ;;
      s <- get_state ;;
      (if bool_decide (welcome_message_id (record_of s chatId) = Some messageId)
       then ret tt
       else modify (fun s => mark_dirty
              (update_record chatId (set_welcome_message_id (Some messageId)) s))) ;;
      ret r
  | _ => ret r
  end.

(** ** The two command grammars (index.mjs 312 and 349) *)

(** The rest of [s] after a case-insensitive literal, if [s] starts with it. *)
Fixpoint strip_literal_ci (lit s : string) : option string :=
  match lit, s with
  | EmptyString, _ => Some s
  | String a lit', String b s' =>
      if Ascii.eqb (lower_char a) (lower_char b)
      then strip_literal_ci lit' s' else None
  | String _ _, EmptyString => None
  end.

Fixpoint skip_word (s : string) : string :=
  match s with
  | String c r => if is_word c then skip_word r else s
  | EmptyString => EmptyString
  end.

(** The optional group [(?:@\w+)?]: an at-sign and the longest run of word
    characters after it, when there is at least one. *)
Definition skip_mention (s : string) : string :=
  match s with
  | String "@" (String c r) => if is_word c then skip_word r else s
  | _ => s
  end.

Definition is_all_ws (cs : list string) : bool := forallb is_ws cs.

(** The last character of a string, given by its characters. *)
Definition last_char (cs : list string) : string := List.last cs EmptyString.

(** [\s+([\s\S]+)$]: the white space is taken greedily but leaves at least one
    character to the group. *)
Definition capture_rest (s : string) : option string :=
  match chars s with
  | c :: r =>
      if is_ws c then
        if is_all_ws r
        then (match r with [] => None | _ => Some (last_char r) end)
        else Some (unchars (drop_ws r))
      else None
  | [] => None
  end.

(** The longest run of characters that are not white space, and what
    follows it. *)
Fixpoint take_token (cs : list string) : list string * list string :=
  match cs with
  | c :: r =>
      if is_ws c then ([], cs)
      else let (t, rest) := take_token r in (c :: t, rest)
  | [] => ([], [])
  end.

(** [\s+(\S+)\s*$]. *)
Definition capture_token (s : string) : option string :=
  match chars s with
  | c :: r =>
      if is_ws c then
        let (t, rest) := take_token (drop_ws r) in
        match t with
        | [] => None
        | _ => if is_all_ws rest then Some (unchars t) else None
        end
      else None
  | [] => None
  end.

(** Group 1 of [/^\s*\/graphenko_caption(?:@\w+)?\s+([\s\S]+)$/i]. *)
Definition match_caption (text : string) : option string :=
  match strip_literal_ci "/graphenko_caption" (trimStart text) with
  | Some rest => capture_rest (skip_mention rest)
  | None => None
  end.

(** Group 1 of [/^\s*\/graphenko_image(?:@\w+)?\s+(\S+)\s*$/i]. *)
Definition match_image (text : string) : option string :=
  match strip_literal_ci "/graphenko_image" (trimStart text) with
  | Some rest => capture_token (skip_mention rest)
  | None => None
  end.

(** [isValidOutageImageUrl] (src/utils/url.mjs). *)
Definition isValidOutageImageUrl (url : string) : bool :=
  if negb (startsWith url OUTAGE_IMAGES_BASE) then false
  else if negb (endsWith (toLowerCase url) ".png") then false
  else if negb (URL_parses url) then false
  else true.

(** [verifyRemotePng] (src/utils/url.mjs); the boolean is [ok].  A fetch that
    throws is [None]; reading [res.headers.get] of a response without headers
    throws as well, and every exception ends in [ok: false]. *)
Definition verifyRemotePng (url : string) : M bool :=
  head <- gateway (Fetch "HEAD" url) ;;
  match head with
  | None => ret false
  | Some res0 =>
      res' <- (if negb (res_ok res0) || negb (res_headers res0)
               then gateway (Fetch "GET" url) else ret (Some res0)) ;;
      match res' with
      | None => ret false
      | Some res =>
          if negb (res_ok res) then ret false
          else if negb (res_headers res) then ret false
          else
            let ct := default "" (content_type res) in
            if negb (includes (toLowerCase ct) "image/png")
               && negb (endsWith (toLowerCase url) ".png")
            then ret false
            else ret true
      end
  end.

Definition REPLY_CAPTION_RESET : string :=
  "✅ Підпис скинуто до стандартного. Буде застосовано під час наступного оновлення.".
Definition REPLY_CAPTION_EMPTY : string :=
  "❌ Порожній підпис. Спробуйте так: /graphenko_caption Мій власний підпис".
Definition REPLY_CAPTION_SAVED : string :=
  "✅ Підпис збережено. Буде застосовано під час наступного оновлення.".
Definition REPLY_IMAGE_USAGE : string :=
  String.append "❌ Невірний URL. Використовуйте PNG з базою:"
   (String.append newline (String.append OUTAGE_IMAGES_BASE
     (String.append newline (String.append "приклад: /graphenko_image "
       (String.append OUTAGE_IMAGES_BASE "kyiv/gpv-3-2-emergency.png"))))).
Definition REPLY_IMAGE_UNVERIFIED : string :=
  "❌ Неможливо отримати зображення або воно не PNG. Перевірте URL.".
Definition REPLY_IMAGE_SAVED : string :=
  "✅ Зображення збережено. Розсилка увімкнена.".

(** [if (msg.message_id) await deleteMessage(chatId, msg.message_id)]. *)
Definition delete_command_message (chatId : string) (msg : Message) : M unit :=
  match m_message_id msg with
  | Some mid => if negb (mid =? 0) then deleteMessage chatId mid ;; ret tt else ret tt
  | None => ret tt
  end.

(** The caption command, from the match on (index.mjs 313-346); [raw] is
    group 1. *)
Definition caption_command (chatId : string) (msg : Message) (raw : string)
    : M unit :=
  let arg := trim raw in
  modify (ensure_record chatId) ;;
  if String.eqb (toLowerCase arg) "-default" then
    s <- get_state ;;
    (if bool_decide (is_Some (caption (record_of s chatId)))
     then modify (fun s => mark_dirty (update_record chatId (set_caption None) s))
     else ret tt) ;;
    sendTextMessage chatId REPLY_CAPTION_RESET ;;
    delete_command_message chatId msg
  else if negb (nonempty arg) then
    sendTextMessage chatId REPLY_CAPTION_EMPTY ;;
    ret tt
  else
    modify (fun s => mark_dirty (update_record chatId (set_caption (Some arg)) s)) ;;
    sendTextMessage chatId REPLY_CAPTION_SAVED ;;
    delete_command_message chatId msg.

(** The image command, from the match on (index.mjs 351-386); [url] is
    group 1. *)
Definition image_command (chatId : string) (msg : Message) (url : string)
    : M unit :=
  if negb (isValidOutageImageUrl url) then
    sendTextMessage chatId REPLY_IMAGE_USAGE ;;
    ret tt
  else
    ver <- verifyRemotePng url ;;
    if negb ver then
      sendTextMessage chatId REPLY_IMAGE_UNVERIFIED ;;
      ret tt
    else
      modify (ensure_record chatId) ;;
      modify (fun s => mark_dirty
                (update_record chatId (set_image_url (Some (Url url))) s)) ;;
      s <- get_state ;;
      match welcome_message_id (record_of s chatId) with
      | Some wid =>
          if negb (wid =? 0) then
            del <- deleteMessage chatId wid ;;
            if del
            then modify (fun s => mark_dirty
                   (update_record chatId (set_welcome_message_id None) s))
            else ret tt
          else ret tt
      | None => ret tt
      end ;;
      sendTextMessage chatId REPLY_IMAGE_SAVED ;;
      delete_command_message chatId msg.

(** One iteration of the loop of [processCommandUpdates] (index.mjs 302-387);
    [handled] is threaded through. *)
Definition command_step (u : Update) (handled : list string) : M (list string) :=
  match (match message u with Some m => Some m | None => channel_post u end) with
  | None => ret handled
  | Some msg =>
      match m_chat msg with
      | None => ret handled
      | Some ch =>
          let chatId := String_of_Z (c_id ch) in
          let text :=
            if truthy_str (m_text msg) then default "" (m_text msg)
            else if truthy_str (m_caption msg) then default "" (m_caption msg)
            else "" in
          if negb (nonempty text) then ret handled
          else
            match match_caption text with
            | Some raw => caption_command chatId msg raw ;; ret (handled ++ [chatId])
            | None =>
                match match_image text with
                | None => ret handled
                | Some url => image_command chatId msg url ;; ret (handled ++ [chatId])
                end
            end
      end
  end.

Fixpoint processCommandUpdates_from (updates : list Update) (handled : list string)
    : M (list string) :=
  match updates with
  | [] => ret handled
  | u :: rest =>
      handled' <- command_step u handled ;;
      processCommandUpdates_from rest handled'
  end.

Definition processCommandUpdates (updates : list Update) : M (list string) :=
  processCommandUpdates_from updates [].

(** The welcome of the newly registered chats (index.mjs 447-452). *)
Fixpoint welcome_all (newlyRegistered : list string) : M unit :=
  match newlyRegistered with
  | [] => ret tt
  | chatId :: rest => sendWelcomeMessage chatId ;; welcome_all rest
  end.

(** The entry point from the updates to the loop (index.mjs 407-452):
    registration, the commands, the welcomes.  The tests of [updates?.length]
    skip the first two on an empty batch, on which they do nothing anyway. *)
Definition before_loop (updates : list Update) : M unit :=
  newlyRegistered <- lift (registerFromUpdates updates) ;;
  processCommandUpdates updates ;;
  welcome_all newlyRegistered.

(** The chat in which the message of an update was sent, as the command
    processor reads it. *)
Definition command_chat (u : Update) : option string :=
  match (match message u with Some m => Some m | None => channel_post u end) with
  | Some msg =>
      match m_chat msg with
      | Some ch => Some (String_of_Z (c_id ch))
      | None => None
      end
  | None => None
  end.

(** ** The reconciliation loop (index.mjs 420-578) *)

(** [setMessageId] (index.mjs 420-430). *)
Definition setMessageId (chatId : string) (messageId : option Z) : M unit :=
  match messageId with
  | Some mid =>
      if (mid =? 0) then ret tt
      else
        modify (ensure_record chatId) ;;
        modify (fun s =>
          if bool_decide (is_Some (message_ids (record_of s chatId)))
          then update_record chatId (set_message_ids None) s else s) ;;
        modify (fun s =>
          if bool_decide (message_id (record_of s chatId) = Some mid) then s
          else mark_dirty (update_record chatId (set_message_id (Some mid)) s))
  | None => ret tt
  end.

(** [setMessageIds] (index.mjs 432-444). *)
Definition setMessageIds (chatId : string) (messageIds : option (list Z)) : M unit :=
  match messageIds with
  | Some mids =>
      modify (ensure_record chatId) ;;
      modify (fun s =>
        if truthy_id (message_id (record_of s chatId))
        then update_record chatId (set_message_id None) s else s) ;;
      modify (fun s =>
        let current := default [] (message_ids (record_of s chatId)) in
        if bool_decide (current = mids) then s
        else mark_dirty (update_record chatId (set_message_ids (Some mids)) s))
  | None => ret tt
  end.

(** [updateStoredChatFields] (index.mjs 391-397). *)
Definition updateStoredChatFields (chatId : string) (e : effective) (s : state)
    : state :=
  let s0 := ensure_record chatId s in
  let touch1 :=
    truthy_image (e_image_url e)
    && negb (bool_decide (image_url (record_of s0 chatId) = e_image_url e)) in
  let s1 := if touch1
            then update_record chatId (set_image_url (e_image_url e)) s0 else s0 in
  let touch2 :=
    nonempty (e_caption e)
    && negb (bool_decide (caption (record_of s1 chatId) = Some (e_caption e))) in
  let s2 := if touch2
            then update_record chatId (set_caption (Some (e_caption e))) s1 else s1 in
  if touch1 || touch2 then mark_dirty s2 else s2.

(** [for (const mid of knownAlbum) await deleteMessage(chatId, mid)]. *)
Fixpoint delete_all (chatId : string) (mids : list Z) : M unit :=
  match mids with
  | [] => ret tt
  | mid :: rest => deleteMessage chatId mid ;; delete_all chatId rest
  end.

(** [isAlbumConfig] (index.mjs 484). *)
Definition isAlbumConfig (i : option image) : bool :=
  match i with
  | Some (Urls us) => (1 <? length us)%nat
  | _ => false
  end.

(** [effective.image_url.length], read only when [isAlbumConfig]. *)
Definition image_count (i : option image) : nat :=
  match i with
  | Some (Urls us) => length us
  | _ => 0%nat
  end.

(** [knownAlbum && knownAlbum.length !== effective.image_url.length]. *)
Definition album_size_differs (knownAlbum : option (list Z)) (n : nat) : bool :=
  match knownAlbum with
  | Some mids => negb (length mids =? n)%nat
  | None => false
  end.

(** Cases 1 to 3 (index.mjs 488-507): the deletions before the decision. *)
Definition migrate (chatId : string) (album : bool) (knownSingle : option Z)
    (knownAlbum : option (list Z)) (n : nat) : M unit :=
  (if album && truthy_id knownSingle
   then deleteMessage chatId (default 0 knownSingle) ;; ret tt else ret tt) ;;
  (if negb album && bool_decide (is_Some knownAlbum)
   then delete_all chatId (default [] knownAlbum) else ret tt) ;;
  (if album && album_size_differs knownAlbum n
   then delete_all chatId (default [] knownAlbum) else ret tt).

Inductive mode : Type := send | edit.

(** The variables [mode] and [currentIds] after index.mjs 516-541. *)
Definition decide_mode (album : bool) (knownSingle : option Z)
    (knownAlbum : option (list Z)) (n : nat) : mode * option ids :=
  let '(mode0, currentIds) :=
    if album then
      match knownAlbum with
      | Some mids =>
          if (length mids =? n)%nat then (edit, Some (IdAlbum mids))
          else (send, None)
      | None => (send, None)
      end
    else
      if truthy_id knownSingle && negb album
      then (edit, option_map IdSingle knownSingle)
      else (send, None) in
  let mode1 := if album && truthy_id knownSingle then send else mode0 in
  let mode2 := if negb album && bool_decide (is_Some knownAlbum) then send else mode1 in
  let mode3 := if album && album_size_differs knownAlbum n then send else mode2 in
  (mode3, currentIds).

(** [Number(currentIds)] for the stored single id; the loop passes nothing
    else to [editPhoto]. *)
Definition single_id (currentIds : option ids) : Z :=
  match currentIds with
  | Some (IdSingle mid) => mid
  | _ => 0
  end.

Definition is_unregistered (r : outcome) : bool :=
  ok r && reason_is "unregistered" r.

(** The four branches of index.mjs 543-574.  Each returns the outcome pushed
    to [results]. *)
Definition send_album (chatId : string) (e : effective) : M outcome :=
  r <- sendAlbum e ;;
  if is_unregistered r then ret r
  else
    (if ok r then setMessageIds chatId (out_message_ids r) else ret tt) ;;
    modify (updateStoredChatFields chatId e) ;;
    ret r.

Definition send_single (chatId : string) (e : effective) : M outcome :=
  r <- sendPhoto e ;;
  if is_unregistered r then ret r
  else
    (if ok r then setMessageId chatId (out_message_id r) else ret tt) ;;
    modify (updateStoredChatFields chatId e) ;;
    ret r.

Definition edit_album (chatId : string) (e : effective) (currentIds : option ids)
    : M outcome :=
  r <- editAlbum e currentIds ;;
  modify (updateStoredChatFields chatId e) ;;
  ret r.

Definition edit_single (chatId : string) (e : effective) (currentIds : option ids)
    : M outcome :=
  r <- editPhoto e (single_id currentIds) ;;
  if is_unregistered r then ret r
  else
    (if ok r && replaced r then setMessageId chatId (out_message_id r) else ret tt) ;;
    modify (updateStoredChatFields chatId e) ;;
    ret r.

(** The effective configuration of a record (index.mjs 460-466). *)
Definition effective_of (chatId : string) (mapCfg : ChatRecord) : effective :=
  mkEffective chatId (image_url mapCfg) (message_thread_id mapCfg)
    (match caption mapCfg with Some c => c | None => DEFAULT_CAPTION end).

(** One iteration of the loop over [allIds] (index.mjs 457-578). *)
Definition reconcile_chat (chatId : string) : M outcome :=
  s <- get_state ;;
  let mapCfg := record_of s chatId in
  let e := effective_of chatId mapCfg in
  if negb (nonempty (chat_id e)) then
    ret (with_reason "invalid-config" (base_outcome false (Some e)))
  else if negb (truthy_image (e_image_url e)) then
    ret (with_reason "no-image" (base_outcome true (Some e)))
  else
    let knownSingle := message_id (record_of s chatId) in
    let knownAlbum := message_ids (record_of s chatId) in
    let album := isAlbumConfig (e_image_url e) in
    let n := image_count (e_image_url e) in
    migrate chatId album knownSingle knownAlbum n ;;
    let (m, currentIds) := decide_mode album knownSingle knownAlbum n in
    match m with
    | send => if album then send_album chatId e else send_single chatId e
    | edit => if album then edit_album chatId e currentIds
              else edit_single chatId e currentIds
    end.

Fixpoint reconcile_from (allIds : list string) (results : list outcome)
    : M (list outcome) :=
  match allIds with
  | [] => ret results
  | chatId :: rest =>
      r <- reconcile_chat chatId ;;
      reconcile_from rest (results ++ [r])
  end.

(** [Object.keys(messageMap)]; the order of the keys plays no part below. *)
Definition Object_keys (m : gmap string ChatRecord) : list string :=
  (map_to_list m).*1.

(** Step 2 of the entry point: every chat of the map, once. *)
Definition reconcile_all : M (list outcome) :=
  s <- get_state ;;
  reconcile_from (Object_keys (messageMap s)) [].

(** ** The decision table of the specification (section 4.3)

    This definition follows the six rows of the table, first match first; a
    stored single id is one the code sees as present (not zero).  It is
    compared with [migrate] and [decide_mode] below. *)
Inductive table_action : Type :=
| DeleteSingleSendAlbum (mid : Z)
| DeleteAlbumSendSingle (mids : list Z)
| DeleteAlbumSendAlbum (mids : list Z)
| EditAlbumInPlace (mids : list Z)
| EditSingleMessage (mid : Z)
| SendNew.

Definition decision_table (storedSingle : option Z) (storedAlbum : option (list Z))
    (album : bool) (n : nat) : table_action :=
  match (if truthy_id storedSingle then storedSingle else None), storedAlbum, album with
  | Some mid, _, true => DeleteSingleSendAlbum mid
  | _, Some mids, false => DeleteAlbumSendSingle mids
  | None, Some mids, true =>
      if (length mids =? n)%nat then EditAlbumInPlace mids
      else DeleteAlbumSendAlbum mids
  | Some mid, None, false => EditSingleMessage mid
  | None, None, _ => SendNew
  end.

(** What each action of the table asks the engine to do. *)
Definition perform (chatId : string) (e : effective) (album : bool)
    (a : table_action) : M outcome :=
  match a with
  | DeleteSingleSendAlbum mid => deleteMessage chatId mid ;; send_album chatId e
  | DeleteAlbumSendSingle mids => delete_all chatId mids ;; send_single chatId e
  | DeleteAlbumSendAlbum mids => delete_all chatId mids ;; send_album chatId e
  | EditAlbumInPlace mids => edit_album chatId e (Some (IdAlbum mids))
  | EditSingleMessage mid => edit_single chatId e (Some (IdSingle mid))
  | SendNew => if album then send_album chatId e else send_single chatId e
  end.

(** A transition case: one of the first three rows applies. *)
Definition is_transition (storedSingle : option Z) (storedAlbum : option (list Z))
    (album : bool) (n : nat) : bool :=
  (album && truthy_id storedSingle)
  || (negb album && bool_decide (is_Some storedAlbum))
  || (album && album_size_differs storedAlbum n).

(** How [editAlbum] is said to count one answer: an unchanged item is a
    success and leaves no entry, any other failure is recorded. *)
Definition item_of_answer (a : reply unit) : option item_result :=
  match a with
  | Ok _ => Some (mkItem true None false)
  | NotOk code d =>
      if (code =? 400) && description_includes d "message is not modified"
      then None
      else Some (mkItem false (Some (code, d)) false)
  | Threw => Some (mkItem false None true)
  end.

(** The edit requests of an album, one per pair, caption on the first. *)
Fixpoint album_edits (chatId caption : string) (first : bool)
    (existing : list Z) (images : list (option image)) : list (call (reply unit)) :=
  match existing, images with
  | msgId :: rest, img :: images' =>
      EditMessageMedia chatId msgId (cacheBustedUrl img)
        (if first then caption else "")
      :: album_edits chatId caption false rest images'
  | _, _ => []
  end.

Definition answered {T : Type} (ca : call T * T) : event := Ev (fst ca) (snd ca).

(** The message ids whose deletion a row of the table asks for, in order. *)
Definition row_deletions (a : table_action) : list Z :=
  match a with
  | DeleteSingleSendAlbum mid => [mid]
  | DeleteAlbumSendSingle mids => mids
  | DeleteAlbumSendAlbum mids => mids
  | EditAlbumInPlace _ | EditSingleMessage _ | SendNew => []
  end.

(** The operation a row ends in. *)
Inductive row_operation : Type :=
| SendsAlbum
| SendsSingle
| EditsAlbum (mids : list Z)
| EditsSingle (mid : Z).

Definition row_operation_of (a : table_action) (album : bool) : row_operation :=
  match a with
  | DeleteSingleSendAlbum _ | DeleteAlbumSendAlbum _ => SendsAlbum
  | DeleteAlbumSendSingle _ => SendsSingle
  | EditAlbumInPlace mids => EditsAlbum mids
  | EditSingleMessage mid => EditsSingle mid
  | SendNew => if album then SendsAlbum else SendsSingle
  end.

(** The requests of a row's operation, [r] being the outcome: a send is one
    request, followed by the pin of the first message it returned; the edit of
    an album is one edit per stored id and the pin of the first; the edit of a
    single message starts with the edit of the stored id (what may follow
    depends on the answer). *)
Definition row_requests (chatId : string) (e : effective) (op : row_operation)
    (r : outcome) (ops : list request) : Prop :=
  let caption := withTimestamp (e_caption e) in
  match op with
  | SendsAlbum =>
      ops = Req (SendMediaGroup chatId
                   (album_media caption true (images_of (e_image_url e)))
                   (if truthy_id (e_message_thread_id e)
                    then e_message_thread_id e else None))
            :: match out_message_ids r with
               | Some (first :: _) => [Req (PinChatMessage chatId first)]
               | _ => []
               end
  | SendsSingle =>
      ops = Req (SendPhoto chatId (cacheBustedUrl (e_image_url e)) caption
                   (e_message_thread_id e))
            :: match out_message_id r with
               | Some mid => [Req (PinChatMessage chatId mid)]
               | None => []
               end
  | EditsAlbum mids =>
      ops = map (fun c => Req c)
              (album_edits chatId caption true mids (images_of (e_image_url e)))
            ++ match mids with
               | first :: _ => [Req (PinChatMessage chatId first)]
               | [] => []
               end
  | EditsSingle mid =>
      exists rest,
        ops = Req (EditMessageMedia chatId mid (cacheBustedUrl (e_image_url e))
                     caption) :: rest
  end.

(** After a chat went through the send/edit stage: its record exists, holds
    the effective caption, and the map is dirty when there was no stored
    caption before. *)
Definition caption_synced (chatId : string) (e : effective) (s s' : state) : Prop :=
  is_Some (messageMap s' !! chatId)
  /\ caption (record_of s' chatId) = Some (e_caption e)
  /\ (caption (record_of s chatId) = None -> mapDirty s' = true).

(** A state that differs from [s] at most in the stored ids of [chatId], whose
    record exists in it if it did in [s]. *)
Definition same_but_ids (chatId : string) (s s' : state) : Prop :=
  caption (record_of s' chatId) = caption (record_of s chatId)
  /\ (mapDirty s = true -> mapDirty s' = true)
  /\ (is_Some (messageMap s !! chatId) -> is_Some (messageMap s' !! chatId)).

(** ** Sample clock, environments and states

    Concrete inputs on which the theorems below are instantiated. *)
Definition sample_timestamp : string := "2026-01-01 12:00".

Definition sample_cacheBustedUrl (i : option image) : string :=
  match i with
  | Some (Url u) => String.append u "?cb=1"
  | _ => "?cb=1"
  end.

Definition sample_URL_parses (url : string) : bool := true.

(** A gateway that accepts every request. *)
Definition env_accepting : environment :=
  fun T tr c =>
    match c in call T0 return T0 with
    | SendPhoto _ _ _ _ => Ok 501
    | EditMessageMedia _ _ _ _ => Ok tt
    | SendMediaGroup _ media _ => Ok (map (fun i => 600 + Z.of_nat i) (seq 0 (length media)))
    | DeleteMessage _ _ => Ok tt
    | PinChatMessage _ _ => Ok tt
    | SendMessage _ _ => Ok 701
    | Fetch _ _ => Some (mkHttp true true (Some "image/png"))
    end.

(** A gateway that answers every send and edit with a 403 whose description
    does not hold "not a member". *)
Definition KICKED : option string :=
  Some "Forbidden: bot was kicked from the channel chat".

Definition env_forbidden : environment :=
  fun T tr c =>
    match c in call T0 return T0 with
    | SendPhoto _ _ _ _ => NotOk 403 KICKED
    | EditMessageMedia _ _ _ _ => NotOk 403 KICKED
    | SendMediaGroup _ _ _ => NotOk 403 KICKED
    | DeleteMessage _ _ => Ok tt
    | PinChatMessage _ _ => Ok tt
    | SendMessage _ _ => Ok 701
    | Fetch _ _ => None
    end.

(** A gateway in which the edited message no longer exists. *)
Definition env_message_gone : environment :=
  fun T tr c =>
    match c in call T0 return T0 with
    | SendPhoto _ _ _ _ => Ok 502
    | EditMessageMedia _ _ _ _ =>
        NotOk 400 (Some "Bad Request: message to edit not found")
    | SendMediaGroup _ _ _ => Ok [601; 602]
    | DeleteMessage _ _ => NotOk 400 (Some "Bad Request: message to delete not found")
    | PinChatMessage _ _ => Ok tt
    | SendMessage _ _ => Ok 701
    | Fetch _ _ => None
    end.

Definition record_with (i : option image) (mid : option Z) (mids : option (list Z))
    : ChatRecord :=
  mkRecord i None None mid mids None no_monitor.

(** Chat "-100111" has one image; "-100222" a two-image album edited in
    place; "-100333" a three-image album with two stored ids. *)
Definition sample_state : state :=
  mkState
    (<["-100111" := record_with (Some (Url "https://host/a.png")) (Some 42) None]>
       (<["-100222" := record_with (Some (Urls ["u1.png"; "u2.png"])) None (Some [10; 11])]>
          (<["-100333" := record_with (Some (Urls ["u1.png"; "u2.png"; "u3.png"]))
                            None (Some [10; 11])]> ∅)))
    false.

Definition sample_update (status : string) : Update :=
  mkUpdate (Some (mkMember (Some (mkChat (-100444) "channel")) (Some status))) None None.

Definition sample_message : Message :=
  mkMessage (Some (mkChat (-100555) "channel")) (Some "/graphenko_caption  ") None (Some 7).

Definition sample_file_map : gmap string value :=
  <["-100222" := VObj [("image_url", VArr [VStr "u1.png"; VStr "u2.png"]);
                       ("message_ids", VArr [VNum 10; VNum 11]);
                       ("monitor_enabled", VBool true);
                       ("monitor_host", VStr "93.127.118.86");
                       ("monitor_port", VNum 443)]]>
    (<["-100111" := VObj [("message_id", VNum 42);
                          ("image_url", VStr "https://host/a.png");
                          ("monitor_host", VStr "")]]> ∅).

(** ** Invariants of the map

    Nothing but the record of [chatId] differs between [s] and [s']. *)
Definition only_chat_changed (chatId : string) (s s' : state) : Prop :=
  forall k, k <> chatId -> messageMap s' !! k = messageMap s !! k.

(** At most one of [message_id] and [message_ids] is stored, a stored
    [message_id] being one the code sees (not zero). *)
Definition ids_exclusive (r : ChatRecord) : Prop :=
  truthy_id (message_id r) && bool_decide (is_Some (message_ids r)) = false.

(** What an iteration of the loop keeps: the other records, and the exclusion
    of the two kinds of stored ids in the record of the chat. *)
Definition kept (chatId : string) (s s' : state) : Prop :=
  only_chat_changed chatId s s'
  /\ (ids_exclusive (record_of s chatId) -> ids_exclusive (record_of s' chatId)).

(** An answer to an edit that leaves the message in place: the edit was done,
    or the content was the same. *)
Definition edit_accepted (a : reply unit) : bool :=
  match a with
  | Ok _ => true
  | NotOk code d => (code =? 400) && description_includes d "message is not modified"
  | Threw => false
  end.

(** No character of [t] is white space. *)
Definition no_ws (t : string) : bool :=
  forallb (fun c => negb (is_ws c)) (chars t).

(** After a branch of the loop the chat is absent when the outcome is
    "unregistered", and present otherwise. *)
Definition removal_agrees (chatId : string) (out : outcome * state * list event)
    : Prop :=
  if is_unregistered (fst (fst out))
  then messageMap (snd (fst out)) !! chatId = None
  else is_Some (messageMap (snd (fst out)) !! chatId).

(** A chat whose image was just configured: no message was sent yet. *)
Definition sample_new_state : state :=
  mkState (<["-100555" := record_with (Some (Url "https://host/b.png")) None None]> ∅)
          false.

Definition sample_png_url : string :=
  String.append OUTAGE_IMAGES_BASE "kyiv/gpv-3-2-emergency.png".

(** A file in the flat shape, with a record marked deleted, an unknown
    property and an element that is no object. *)
Definition sample_flat_file : value :=
  VArr [ VObj [("chat_id", VStr "-100777");
               ("image_url", VStr "https://host/c.png");
               ("monitor_host", VStr "");
               ("note", VStr "x")];
         VObj [("-100888", VObj [("message_id", VNum 5); ("deleted", VBool true)])];
         VNull ].

(** A well-formed character: a lead byte and its continuation bytes. *)
Fixpoint all_continuation (t : string) : bool :=
  match t with
  | EmptyString => true
  | String b r => is_continuation b && all_continuation r
  end.

Definition is_char (c : string) : bool :=
  match c with
  | String b r => negb (is_continuation b) && all_continuation r
  | EmptyString => false
  end.

(** ** Runs *)

(** A run of stateful code from a state and a trace. *)
Definition exec {A : Type} (env : environment) (m : M A) (s : state)
    (tr : list event) : (A * state) * list event :=
  run env (m s) tr.

Lemma run_pbind {A B : Type} (env : environment) (p : prog A) (f : A -> prog B) tr :
  run env (pbind p f) tr = let (a, tr') := run env p tr in run env (f a) tr'.
Proof.
  revert tr. induction p as [a | T c k IH]; intros tr; simpl.
  - reflexivity.
  - apply IH.
Qed.

Lemma exec_bind {A B : Type} env (m : M A) (f : A -> M B) s tr :
  exec env (bind m f) s tr =
  let '((a, s'), tr') := exec env m s tr in exec env (f a) s' tr'.
Proof.
  unfold exec, bind. rewrite run_pbind.
  destruct (run env (m s) tr) as [[a s'] tr']. reflexivity.
Qed.

Lemma exec_ret {A : Type} env (a : A) s tr : exec env (ret a) s tr = ((a, s), tr).
Proof. reflexivity. Qed.

Lemma exec_modify env f s tr : exec env (modify f) s tr = ((tt, f s), tr).
Proof. reflexivity. Qed.

Lemma exec_gateway {T : Type} env (c : call T) s tr :
  exec env (gateway c) s tr = ((env T tr c, s), tr ++ [Ev c (env T tr c)]).
Proof. reflexivity. Qed.

(** The wrappers of the gateway leave the state alone. *)
Lemma exec_deleteMessage_state env chatId mid s tr :
  snd (fst (exec env (deleteMessage chatId mid) s tr)) = s.
Proof. reflexivity. Qed.

Lemma exec_pinMessage_state env chatId mid s tr :
  snd (fst (exec env (pinMessage chatId mid) s tr)) = s.
Proof. reflexivity. Qed.

Lemma exec_delete_all_state env chatId mids s tr :
  snd (fst (exec env (delete_all chatId mids) s tr)) = s.
Proof.
  revert tr. induction mids as [| mid rest IH]; intros tr; [reflexivity |].
  simpl. rewrite exec_bind.
  destruct (exec env (deleteMessage chatId mid) s tr) as [[b s1] tr1] eqn:E.
  assert (s1 = s) as -> by (pose proof (exec_deleteMessage_state env chatId mid s tr) as H;
                            rewrite E in H; exact H).
  apply IH.
Qed.

(** ** Registration *)

Lemma type_passes (t : string) :
  In t ["channel"; "supergroup"; "group"] ->
  negb (String.eqb t "channel") && negb (String.eqb t "supergroup")
  && negb (String.eqb t "group") = false.
Proof. intros [<- | [<- | [<- | []]]]; reflexivity. Qed.

Lemma register_step_leave u mcm ch st newly s :
  my_chat_member u = Some mcm -> mcm_chat mcm = Some ch ->
  new_status mcm = Some st ->
  In (c_type ch) ["channel"; "supergroup"; "group"] ->
  In st ["left"; "kicked"; "restricted"] ->
  register_step (newly, s) u =
  (newly, mkState (delete (String_of_Z (c_id ch)) (messageMap s))
                  (mapDirty s || bool_decide (is_Some (messageMap s !! String_of_Z (c_id ch))))).
Proof.
  intros Hu Hc Hs Ht Hst. unfold register_step. rewrite Hu, Hc, Hs.
  rewrite (type_passes _ Ht).
  assert (status_in ["left"; "kicked"; "restricted"] (Some st) = true) as ->
    by (destruct Hst as [<- | [<- | [<- | []]]]; reflexivity).
  unfold removeChat. destruct s as [m d]; simpl.
  destruct (m !! String_of_Z (c_id ch)) eqn:E; simpl.
  - unfold mark_dirty, with_map; simpl. by rewrite orb_true_r.
  - rewrite orb_false_r, delete_id by done. reflexivity.
Qed.

Lemma register_step_join u mcm ch st newly s :
  my_chat_member u = Some mcm -> mcm_chat mcm = Some ch ->
  new_status mcm = Some st ->
  In (c_type ch) ["channel"; "supergroup"; "group"] ->
  In st ["administrator"; "creator"; "member"] ->
  register_step (newly, s) u =
  match messageMap s !! String_of_Z (c_id ch) with
  | None => (newly ++ [String_of_Z (c_id ch)],
             with_map (<[String_of_Z (c_id ch) := empty_record]> (messageMap s)) s)
  | Some _ => (newly, s)
  end.
Proof.
  intros Hu Hc Hs Ht Hst. unfold register_step. rewrite Hu, Hc, Hs.
  rewrite (type_passes _ Ht).
  assert (status_in ["left"; "kicked"; "restricted"] (Some st) = false) as ->
    by (destruct Hst as [<- | [<- | [<- | []]]]; reflexivity).
  assert (status_in ["administrator"; "creator"; "member"] (Some st) = true) as ->
    by (destruct Hst as [<- | [<- | [<- | []]]]; reflexivity).
  simpl. unfold ensure_record.
  destruct (messageMap s !! String_of_Z (c_id ch)) eqn:E.
  - rewrite bool_decide_eq_true_2 by eauto. reflexivity.
  - rewrite bool_decide_eq_false_2 by (intros [? ?]; congruence). reflexivity.
Qed.

(** C8.  A membership change naming a channel, supergroup or group: a status
    among left, kicked and restricted deletes the record of the chat if there
    is one (and then marks the map dirty); a status among administrator,
    creator and member creates the empty record if there is none, with no
    [image_url] and no [caption], and appends the chat id to the newly
    registered list exactly in that case; and a joining update followed by a
    leaving update of the same chat leaves the map without that chat. *)
Theorem registration_follows_membership
    (uj ul : Update) (mj ml : ChatMemberUpdated) (ch : Chat) (stj stl : string)
    (Hj : my_chat_member uj = Some mj /\ mcm_chat mj = Some ch /\ new_status mj = Some stj)
    (Hl : my_chat_member ul = Some ml /\ mcm_chat ml = Some ch /\ new_status ml = Some stl)
    (Ht : In (c_type ch) ["channel"; "supergroup"; "group"])
    (Hstj : In stj ["administrator"; "creator"; "member"])
    (Hstl : In stl ["left"; "kicked"; "restricted"]) :
  let chatId := String_of_Z (c_id ch) in
  (forall newly s,
     register_step (newly, s) ul =
     (newly, mkState (delete chatId (messageMap s))
                     (mapDirty s || bool_decide (is_Some (messageMap s !! chatId)))))
  /\ (forall newly s,
        messageMap s !! chatId = None ->
        register_step (newly, s) uj =
        (newly ++ [chatId], with_map (<[chatId := empty_record]> (messageMap s)) s))
  /\ (forall newly s,
        is_Some (messageMap s !! chatId) ->
        register_step (newly, s) uj = (newly, s))
  /\ (image_url empty_record = None /\ caption empty_record = None)
  /\ (forall s,
        messageMap (snd (registerFromUpdates [uj; ul] s)) !! chatId = None
        /\ fst (registerFromUpdates [uj; ul] s) =
           (match messageMap s !! chatId with Some _ => [] | None => [chatId] end)).
Proof.
  destruct Hj as (Hj1 & Hj2 & Hj3), Hl as (Hl1 & Hl2 & Hl3). intros chatId.
  split; [| split; [| split; [| split]]].
  - intros newly s. by apply (register_step_leave ul ml ch stl).
  - intros newly s Hnone.
    rewrite (register_step_join uj mj ch stj) by done. fold chatId. by rewrite Hnone.
  - intros newly s [r Hr].
    rewrite (register_step_join uj mj ch stj) by done. fold chatId. by rewrite Hr.
  - done.
  - intros s. unfold registerFromUpdates. cbn [fold_left].
    rewrite (register_step_join uj mj ch stj) by done. fold chatId.
    destruct (messageMap s !! chatId) eqn:E;
      rewrite (register_step_leave ul ml ch stl) by done; fold chatId; simpl;
      (split; [apply lookup_delete_eq | reflexivity]).
Qed.

(** ** Records of the in-memory map *)

Lemma record_of_update chatId f s :
  record_of (update_record chatId f s) chatId = f (record_of s chatId).
Proof. unfold record_of, update_record, with_map; simpl. by rewrite lookup_insert_eq. Qed.

Lemma record_of_ensure chatId s :
  record_of (ensure_record chatId s) chatId = record_of s chatId.
Proof.
  unfold record_of, ensure_record.
  destruct (messageMap s !! chatId) eqn:E; simpl; [by rewrite E |].
  by rewrite lookup_insert_eq.
Qed.

Lemma record_of_mark_dirty chatId s :
  record_of (mark_dirty s) chatId = record_of s chatId.
Proof. reflexivity. Qed.

Lemma present_ensure chatId s : is_Some (messageMap (ensure_record chatId s) !! chatId).
Proof.
  unfold ensure_record. destruct (messageMap s !! chatId) eqn:E; simpl; [by rewrite E |].
  rewrite lookup_insert_eq. eauto.
Qed.

Lemma present_update chatId f s : is_Some (messageMap (update_record chatId f s) !! chatId).
Proof. unfold update_record; simpl. rewrite lookup_insert_eq. eauto. Qed.

Lemma ensure_present chatId s :
  is_Some (messageMap s !! chatId) -> ensure_record chatId s = s.
Proof. intros [r Hr]. unfold ensure_record. by rewrite Hr. Qed.

Lemma mapDirty_ensure chatId s : mapDirty (ensure_record chatId s) = mapDirty s.
Proof. unfold ensure_record. by destruct (messageMap s !! chatId). Qed.

(** [updateStoredChatFields] leaves the effective caption in the record. *)
Lemma updateStoredChatFields_caption chatId e s :
  caption (record_of s chatId) = Some (e_caption e) \/ nonempty (e_caption e) = true ->
  caption (record_of (updateStoredChatFields chatId e s) chatId) = Some (e_caption e).
Proof.
  intros H. unfold updateStoredChatFields.
  set (s0 := ensure_record chatId s).
  set (t1 := truthy_image (e_image_url e) && _).
  set (s1 := if t1 then _ else s0).
  assert (caption (record_of s1 chatId) = caption (record_of s chatId)) as H1.
  { subst s1. destruct t1; [rewrite record_of_update |]; subst s0;
      rewrite record_of_ensure; reflexivity. }
  set (t2 := nonempty (e_caption e) && _).
  assert (caption (record_of (if t2 then update_record chatId
            (set_caption (Some (e_caption e))) s1 else s1) chatId)
          = Some (e_caption e)) as H2.
  { destruct t2 eqn:E2.
    - by rewrite record_of_update.
    - subst t2. rewrite H1. destruct H as [H | H]; [exact H |].
      rewrite H in E2. simpl in E2. apply negb_false_iff, bool_decide_eq_true in E2.
      by rewrite <- H1. }
  destruct (t1 || t2); [rewrite record_of_mark_dirty |]; exact H2.
Qed.

Lemma updateStoredChatFields_present chatId e s :
  is_Some (messageMap (updateStoredChatFields chatId e s) !! chatId).
Proof.
  unfold updateStoredChatFields.
  repeat match goal with
         | |- context [if ?b then _ else _] => destruct b
         end; simpl;
    try apply present_update; try apply present_ensure;
    rewrite ?lookup_insert_eq; eauto using present_ensure.
Qed.

(** It marks the map dirty when the stored caption was absent. *)
Lemma updateStoredChatFields_dirty chatId e s :
  caption (record_of s chatId) = None -> nonempty (e_caption e) = true ->
  mapDirty (updateStoredChatFields chatId e s) = true.
Proof.
  intros Hc He. unfold updateStoredChatFields.
  set (s0 := ensure_record chatId s).
  set (t1 := truthy_image (e_image_url e) && _).
  set (s1 := if t1 then _ else s0).
  assert (caption (record_of s1 chatId) = None) as H1.
  { subst s1. destruct t1; [rewrite record_of_update |]; subst s0;
      rewrite record_of_ensure; simpl; exact Hc. }
  rewrite He, H1. simpl.
  rewrite orb_true_r. reflexivity.
Qed.

Lemma updateStoredChatFields_ids chatId e s :
  message_id (record_of (updateStoredChatFields chatId e s) chatId)
  = message_id (record_of s chatId)
  /\ message_ids (record_of (updateStoredChatFields chatId e s) chatId)
     = message_ids (record_of s chatId).
Proof.
  unfold updateStoredChatFields.
  repeat match goal with
         | |- context [if ?b then _ else _] => destruct b
         end;
    rewrite ?record_of_mark_dirty, ?record_of_update; simpl;
    rewrite ?record_of_update; simpl; rewrite ?record_of_ensure; auto.
Qed.

(** ** What the four gateway operations do to the state *)

Lemma same_but_ids_refl chatId s : same_but_ids chatId s s.
Proof. unfold same_but_ids; auto. Qed.

Lemma exec_setMessageId env chatId o s tr :
  exists s', exec env (setMessageId chatId o) s tr = ((tt, s'), tr)
             /\ same_but_ids chatId s s'.
Proof.
  unfold setMessageId. destruct o as [mid |]; [| eexists; split; [reflexivity | apply same_but_ids_refl]].
  destruct (mid =? 0); [eexists; split; [reflexivity | apply same_but_ids_refl] |].
  eexists; split; [reflexivity |]. unfold same_but_ids.
  repeat match goal with
         | |- context [bool_decide ?P] => destruct (bool_decide P)
         end; simpl;
    rewrite ?record_of_mark_dirty, ?record_of_update; simpl;
    rewrite ?record_of_update; simpl; rewrite ?record_of_ensure;
    (split; [reflexivity | split; [try done; by rewrite mapDirty_ensure | intros _ ]]);
    rewrite ?lookup_insert_eq; eauto using present_ensure.
Qed.

Lemma exec_setMessageIds env chatId o s tr :
  exists s', exec env (setMessageIds chatId o) s tr = ((tt, s'), tr)
             /\ same_but_ids chatId s s'.
Proof.
  unfold setMessageIds. destruct o as [mids |]; [| eexists; split; [reflexivity | apply same_but_ids_refl]].
  eexists; split; [reflexivity |]. unfold same_but_ids.
  repeat match goal with
         | |- context [if ?b then _ else _] => destruct b
         end; simpl;
    rewrite ?record_of_mark_dirty, ?record_of_update; simpl;
    rewrite ?record_of_update; simpl; rewrite ?record_of_ensure;
    (split; [reflexivity | split; [try done; by rewrite mapDirty_ensure | intros _ ]]);
    rewrite ?lookup_insert_eq; eauto using present_ensure.
Qed.

Ltac run_step env :=
  unfold exec, bind, gateway, lift, ret, modify, get_state; simpl;
  repeat match goal with
         | |- context [env ?T ?tr ?c] =>
             let a := fresh "a" in
             let Ea := fresh "Ea" in
             destruct (env T tr c) as [a | ? ? |] eqn:Ea; simpl
         | |- context [if ?b then _ else _] =>
             let Eb := fresh "Eb" in destruct b eqn:Eb; simpl
         end.

Lemma exec_sendPhoto (env : environment) e s tr :
  exists r s' tr',
    exec env (sendPhoto e) s tr = ((r, s'), tr')
    /\ reason r <> Some "size-mismatch" /\ replaced r = false
    /\ (is_unregistered r = false -> s' = s).
Proof.
  unfold sendPhoto, pinMessage. run_step env;
    (do 3 eexists; split; [reflexivity |]; repeat split; simpl; try done).
Qed.

Lemma exec_editPhoto (env : environment) e mid s tr :
  exists r s' tr',
    exec env (editPhoto e mid) s tr = ((r, s'), tr')
    /\ reason r <> Some "size-mismatch"
    /\ (is_unregistered r = false -> s' = s).
Proof.
  unfold editPhoto, sendPhoto, deleteMessage, pinMessage. run_step env;
    (do 3 eexists; split; [reflexivity |]; repeat split; simpl; try done).
Qed.

Lemma exec_sendAlbum (env : environment) e s tr :
  exists r s' tr',
    exec env (sendAlbum e) s tr = ((r, s'), tr')
    /\ reason r <> Some "size-mismatch" /\ replaced r = false
    /\ (is_unregistered r = false -> s' = s).
Proof.
  unfold sendAlbum, sendMediaGroup, pinMessage. run_step env;
    try (destruct a; simpl);
    (do 3 eexists; split; [reflexivity |]; repeat split; simpl; try done).
Qed.

Lemma exec_editAlbum_loop (env : environment) e cap first existing images results s tr :
  snd (fst (exec env (editAlbum_loop e cap first existing images results) s tr)) = s.
Proof.
  revert first images results tr.
  induction existing as [| msgId rest IH]; intros first images results tr;
    destruct images as [| img images]; try reflexivity.
  simpl. rewrite exec_bind, exec_gateway. apply IH.
Qed.

Lemma exec_editAlbum_fits (env : environment) e existing s tr :
  length (images_of (e_image_url e)) = length existing ->
  exists items tr',
    exec env (editAlbum e (Some (IdAlbum existing))) s tr
    = ((with_result (EditedItems items) (base_outcome true (Some e)), s), tr').
Proof.
  intros Hlen. unfold editAlbum. rewrite Hlen, Nat.eqb_refl. simpl.
  rewrite exec_bind.
  pose proof (exec_editAlbum_loop env e (withTimestamp (e_caption e)) true existing
                (images_of (e_image_url e)) [] s tr) as Hs.
  destruct (exec env (editAlbum_loop _ _ _ _ _ _) s tr) as [[items s1] tr1].
  simpl in Hs. subst s1.
  destruct existing as [| first rest]; run_step env; eauto.
Qed.

(** ** The four branches of the loop *)

Lemma synced_after_update chatId e s s2 :
  same_but_ids chatId s s2 ->
  caption (record_of s chatId) = Some (e_caption e) \/ nonempty (e_caption e) = true ->
  (caption (record_of s chatId) = None -> nonempty (e_caption e) = true) ->
  caption_synced chatId e s (updateStoredChatFields chatId e s2).
Proof.
  intros (Hc & _ & _) H1 H2. unfold caption_synced. split; [| split].
  - apply updateStoredChatFields_present.
  - apply updateStoredChatFields_caption. by rewrite Hc.
  - intros Hn. apply updateStoredChatFields_dirty; [by rewrite Hc | auto].
Qed.

Lemma effective_caption_ready chatId s :
  let e := effective_of chatId (record_of s chatId) in
  (caption (record_of s chatId) = Some (e_caption e) \/ nonempty (e_caption e) = true)
  /\ (caption (record_of s chatId) = None -> nonempty (e_caption e) = true).
Proof.
  simpl. destruct (caption (record_of s chatId)); split; auto; discriminate.
Qed.

Section Branches.
Variables (env : environment) (chatId : string) (e : effective) (s : state).
Hypothesis ready1 :
  caption (record_of s chatId) = Some (e_caption e) \/ nonempty (e_caption e) = true.
Hypothesis ready2 :
  caption (record_of s chatId) = None -> nonempty (e_caption e) = true.

Lemma exec_send_single tr :
  exists r s' tr',
    exec env (send_single chatId e) s tr = ((r, s'), tr')
    /\ reason r <> Some "size-mismatch"
    /\ (is_unregistered r = false -> caption_synced chatId e s s').
Proof.
  unfold send_single. rewrite exec_bind.
  destruct (exec_sendPhoto env e s tr) as (r & s1 & tr1 & -> & Hr & _ & Hs).
  destruct (is_unregistered r) eqn:U; [rewrite exec_ret; do 3 eexists; split; [reflexivity |]; split; [done | congruence] |].
  rewrite (Hs eq_refl), exec_bind.
  assert (exists s2, exec env (if ok r then setMessageId chatId (out_message_id r)
                               else ret tt) s tr1 = ((tt, s2), tr1)
                     /\ same_but_ids chatId s s2) as (s2 & -> & H2).
  { destruct (ok r); [apply exec_setMessageId |].
    eexists; split; [reflexivity | apply same_but_ids_refl]. }
  rewrite exec_bind, exec_modify, exec_ret.
  do 3 eexists; split; [reflexivity |]. split; [done |].
  intros _. by apply synced_after_update.
Qed.

Lemma exec_send_album tr :
  exists r s' tr',
    exec env (send_album chatId e) s tr = ((r, s'), tr')
    /\ reason r <> Some "size-mismatch"
    /\ (is_unregistered r = false -> caption_synced chatId e s s').
Proof.
  unfold send_album. rewrite exec_bind.
  destruct (exec_sendAlbum env e s tr) as (r & s1 & tr1 & -> & Hr & _ & Hs).
  destruct (is_unregistered r) eqn:U; [rewrite exec_ret; do 3 eexists; split; [reflexivity |]; split; [done | congruence] |].
  rewrite (Hs eq_refl), exec_bind.
  assert (exists s2, exec env (if ok r then setMessageIds chatId (out_message_ids r)
                               else ret tt) s tr1 = ((tt, s2), tr1)
                     /\ same_but_ids chatId s s2) as (s2 & -> & H2).
  { destruct (ok r); [apply exec_setMessageIds |].
    eexists; split; [reflexivity | apply same_but_ids_refl]. }
  rewrite exec_bind, exec_modify, exec_ret.
  do 3 eexists; split; [reflexivity |]. split; [done |].
  intros _. by apply synced_after_update.
Qed.

Lemma exec_edit_single currentIds tr :
  exists r s' tr',
    exec env (edit_single chatId e currentIds) s tr = ((r, s'), tr')
    /\ reason r <> Some "size-mismatch"
    /\ (is_unregistered r = false -> caption_synced chatId e s s').
Proof.
  unfold edit_single. rewrite exec_bind.
  destruct (exec_editPhoto env e (single_id currentIds) s tr)
    as (r & s1 & tr1 & -> & Hr & Hs).
  destruct (is_unregistered r) eqn:U; [rewrite exec_ret; do 3 eexists; split; [reflexivity |]; split; [done | congruence] |].
  rewrite (Hs eq_refl), exec_bind.
  assert (exists s2, exec env (if ok r && replaced r
                               then setMessageId chatId (out_message_id r)
                               else ret tt) s tr1 = ((tt, s2), tr1)
                     /\ same_but_ids chatId s s2) as (s2 & -> & H2).
  { destruct (ok r && replaced r); [apply exec_setMessageId |].
    eexists; split; [reflexivity | apply same_but_ids_refl]. }
  rewrite exec_bind, exec_modify, exec_ret.
  do 3 eexists; split; [reflexivity |]. split; [done |].
  intros _. by apply synced_after_update.
Qed.

Lemma exec_edit_album existing tr :
  length (images_of (e_image_url e)) = length existing ->
  exists r s' tr',
    exec env (edit_album chatId e (Some (IdAlbum existing))) s tr = ((r, s'), tr')
    /\ reason r = None /\ ok r = true
    /\ s' = updateStoredChatFields chatId e s
    /\ caption_synced chatId e s s'.
Proof.
  intros Hlen. unfold edit_album. rewrite exec_bind.
  destruct (exec_editAlbum_fits env e existing s tr Hlen) as (items & tr1 & ->).
  rewrite exec_bind, exec_modify, exec_ret.
  do 3 eexists; split; [reflexivity |]. repeat split; try done.
  - apply updateStoredChatFields_present.
  - apply (synced_after_update chatId e s s); auto using same_but_ids_refl.
  - apply (synced_after_update chatId e s s); auto using same_but_ids_refl.
Qed.

End Branches.

(** ** The decision *)

Lemma decide_mode_cases album ks ka n :
  fst (decide_mode album ks ka n) = send
  \/ (album = true /\ exists mids, ka = Some mids /\ length mids = n
        /\ truthy_id ks = false
        /\ decide_mode album ks ka n = (edit, Some (IdAlbum mids)))
  \/ (album = false /\ exists mid, ks = Some mid /\ mid <> 0 /\ ka = None
        /\ decide_mode album ks ka n = (edit, Some (IdSingle mid))).
Proof.
  unfold decide_mode, album_size_differs, truthy_id.
  destruct album, ka as [mids |], ks as [mid |]; cbn;
    try destruct (length mids =? n)%nat eqn:E;
    try destruct (mid =? 0) eqn:E0; cbn;
    try (left; reflexivity).
  all: try (apply Nat.eqb_eq in E); try (apply Z.eqb_neq in E0).
  - right; left. split; [done |]. by exists mids.
  - right; left. split; [done |]. by exists mids.
  - right; right. split; [done |]. by exists mid.
Qed.

Lemma album_image_count i :
  isAlbumConfig i = true -> length (images_of i) = image_count i.
Proof.
  destruct i as [[u | us] |]; simpl; try discriminate.
  intros _. by rewrite length_map.
Qed.

Lemma exec_migrate_state env chatId album ks ka n s tr :
  snd (fst (exec env (migrate chatId album ks ka n) s tr)) = s.
Proof.
  unfold migrate.
  assert (forall (b : bool) (m : M unit) tr0,
             (forall tr1, snd (fst (exec env m s tr1)) = s) ->
             snd (fst (exec env (if b then m else ret tt) s tr0)) = s) as Hif.
  { intros [] m tr0 Hm; [apply Hm | reflexivity]. }
  rewrite exec_bind.
  match goal with |- context [exec env (if ?b then ?m else _) s tr] =>
    pose proof (Hif b m tr) as H1;
    destruct (exec env (if b then m else ret tt) s tr) as [[[] s1] tr1] end.
  simpl in H1. rewrite H1 by (intros; reflexivity). clear H1 s1.
  rewrite exec_bind.
  match goal with |- context [exec env (if ?b then ?m else _) s tr1] =>
    pose proof (Hif b m tr1) as H1;
    destruct (exec env (if b then m else ret tt) s tr1) as [[[] s2] tr2] end.
  simpl in H1. rewrite H1 by (intros; apply exec_delete_all_state). clear H1 s2.
  apply Hif. intros; apply exec_delete_all_state.
Qed.

(** ** One chat of the loop *)

Lemma exec_get_state env s tr : exec env get_state s tr = ((s, s), tr).
Proof. reflexivity. Qed.

(** Past the two skips, an iteration is the deletions of [migrate] followed by
    the branch chosen by [decide_mode]. *)
Lemma exec_reconcile_chat env chatId s tr :
  nonempty chatId = true ->
  truthy_image (image_url (record_of s chatId)) = true ->
  let rec := record_of s chatId in
  let e := effective_of chatId rec in
  let album := isAlbumConfig (image_url rec) in
  let n := image_count (image_url rec) in
  exec env (reconcile_chat chatId) s tr =
  exec env
    (match decide_mode album (message_id rec) (message_ids rec) n with
     | (send, _) => if album then send_album chatId e else send_single chatId e
     | (edit, currentIds) =>
         if album then edit_album chatId e currentIds
         else edit_single chatId e currentIds
     end) s
    (snd (exec env (migrate chatId album (message_id rec) (message_ids rec) n) s tr)).
Proof.
  intros Hid Himg rec e album n. unfold reconcile_chat.
  rewrite exec_bind, exec_get_state. cbn [chat_id effective_of e_image_url].
  rewrite Hid, Himg. cbn [negb]. rewrite exec_bind.
  fold rec. fold album. fold n. fold e.
  pose proof (exec_migrate_state env chatId album (message_id rec) (message_ids rec) n s tr) as Hs.
  destruct (exec env (migrate chatId album (message_id rec) (message_ids rec) n) s tr)
    as [[[] s1] tr1].
  simpl in Hs. subst s1. simpl snd.
  destruct (decide_mode album (message_id rec) (message_ids rec) n) as [[] cur];
    reflexivity.
Qed.

Lemma exec_reconcile_chat_post env chatId s tr :
  exists r s' tr',
    exec env (reconcile_chat chatId) s tr = ((r, s'), tr')
    /\ reason r <> Some "size-mismatch"
    /\ (nonempty chatId = true ->
        truthy_image (image_url (record_of s chatId)) = true ->
        is_unregistered r = false ->
        caption_synced chatId (effective_of chatId (record_of s chatId)) s s').
Proof.
  destruct (nonempty chatId) eqn:Hid.
  2:{ unfold reconcile_chat. rewrite exec_bind, exec_get_state.
      cbn [chat_id effective_of]. rewrite Hid. cbn [negb]. rewrite exec_ret.
      do 3 eexists; split; [reflexivity |]. split; [done | discriminate]. }
  destruct (truthy_image (image_url (record_of s chatId))) eqn:Himg.
  2:{ unfold reconcile_chat. rewrite exec_bind, exec_get_state.
      cbn [chat_id effective_of e_image_url]. rewrite Hid, Himg. cbn [negb].
      rewrite exec_ret.
      do 3 eexists; split; [reflexivity |]. split; [done | discriminate]. }
  rewrite exec_reconcile_chat by done.
  set (rec := record_of s chatId). set (e := effective_of chatId rec).
  set (tr1 := snd _).
  destruct (effective_caption_ready chatId s) as [R1 R2]. fold rec e in R1, R2.
  destruct (decide_mode_cases (isAlbumConfig (image_url rec)) (message_id rec)
              (message_ids rec) (image_count (image_url rec)))
    as [Hsend | [(Halb & mids & Hka & Hlen & _ & ->) | (Halb & mid & Hks & Hne & _ & ->)]].
  - destruct (decide_mode _ _ _ _) as [m cur]. simpl in Hsend. subst m.
    destruct (isAlbumConfig (image_url rec)).
    + destruct (exec_send_album env chatId e s R1 R2 tr1) as (r & s' & tr' & -> & ? & ?).
      eauto 8.
    + destruct (exec_send_single env chatId e s R1 R2 tr1) as (r & s' & tr' & -> & ? & ?).
      eauto 8.
  - rewrite Halb.
    destruct (exec_edit_album env chatId e s R1 R2 mids tr1)
      as (r & s' & tr' & -> & Hr & _ & _ & Hsync).
    { subst e. cbn [e_image_url effective_of]. rewrite album_image_count by done.
      done. }
    do 3 eexists; split; [reflexivity |]. split; [by rewrite Hr | auto].
  - rewrite Halb.
    destruct (exec_edit_single env chatId e s R1 R2 (Some (IdSingle mid)) tr1)
      as (r & s' & tr' & -> & ? & ?).
    eauto 8.
Qed.

(** C10.  The size-mismatch return of [editAlbum] is unreachable from the
    loop: whatever the map holds and whatever the gateway answers, no outcome
    of an iteration, and so no entry of the results of a pass over any list of
    chat ids or over the keys of the map, carries the reason "size-mismatch". *)
Theorem size_mismatch_unreachable (env : environment) :
  (forall chatId s tr,
     reason (fst (fst (exec env (reconcile_chat chatId) s tr))) <> Some "size-mismatch")
  /\ (forall allIds results s tr,
        Forall (fun r => reason r <> Some "size-mismatch") results ->
        Forall (fun r => reason r <> Some "size-mismatch")
               (fst (fst (exec env (reconcile_from allIds results) s tr))))
  /\ (forall s tr,
        Forall (fun r => reason r <> Some "size-mismatch")
               (fst (fst (exec env reconcile_all s tr)))).
Proof.
  assert (forall chatId s tr,
     reason (fst (fst (exec env (reconcile_chat chatId) s tr))) <> Some "size-mismatch")
    as Hone.
  { intros chatId s tr.
    destruct (exec_reconcile_chat_post env chatId s tr) as (r & s' & tr' & -> & Hr & _).
    exact Hr. }
  assert (forall allIds results s tr,
        Forall (fun r => reason r <> Some "size-mismatch") results ->
        Forall (fun r => reason r <> Some "size-mismatch")
               (fst (fst (exec env (reconcile_from allIds results) s tr))))
    as Hall.
  { induction allIds as [| chatId rest IH]; intros results s tr Hres; [exact Hres |].
    cbn [reconcile_from]. rewrite exec_bind.
    pose proof (Hone chatId s tr) as H1.
    destruct (exec env (reconcile_chat chatId) s tr) as [[r s1] tr1].
    apply IH. apply Forall_app. split; [exact Hres |]. by constructor. }
  split; [exact Hone |]. split; [exact Hall |].
  intros s tr. unfold reconcile_all. rewrite exec_bind, exec_get_state.
  apply Hall. constructor.
Qed.

(** C9.  A chat of the map with an [image_url] whose iteration ends with any
    outcome other than "unregistered", a hard failure included, has the
    effective caption in its stored record afterwards; when the record had no
    caption, that is the process-wide default, and the map is then dirty. *)
Theorem caption_written_back (env : environment) (chatId : string) (s : state)
    (tr : list event) (rec : ChatRecord)
    (Hin : messageMap s !! chatId = Some rec)
    (Hid : nonempty chatId = true)
    (Himg : truthy_image (image_url rec) = true) :
  let r := fst (fst (exec env (reconcile_chat chatId) s tr)) in
  let s' := snd (fst (exec env (reconcile_chat chatId) s tr)) in
  is_unregistered r = false ->
  exists rec',
    messageMap s' !! chatId = Some rec'
    /\ caption rec' = Some (e_caption (effective_of chatId rec))
    /\ (caption rec = None ->
        caption rec' = Some DEFAULT_CAPTION /\ mapDirty s' = true).
Proof.
  intros r s' Hun. subst r s'.
  assert (record_of s chatId = rec) as Hrec by (unfold record_of; by rewrite Hin).
  destruct (exec_reconcile_chat_post env chatId s tr) as (r & s' & tr' & E & _ & Hpost).
  rewrite E in Hun |- *. simpl in Hun |- *.
  rewrite Hrec in Hpost.
  destruct (Hpost Hid Himg Hun) as ([rec' Hrec'] & Hcap & Hdirty).
  exists rec'. unfold record_of in Hcap. rewrite Hrec' in Hcap. simpl in Hcap.
  split; [exact Hrec' |]. split; [exact Hcap |].
  intros Hnone. split; [| apply Hdirty; by rewrite Hrec].
  rewrite Hcap. by rewrite Hnone.
Qed.

(** ** Stored ids after a send *)

Lemma setMessageId_stores env chatId mid s tr :
  mid <> 0 ->
  exists s', exec env (setMessageId chatId (Some mid)) s tr = ((tt, s'), tr)
    /\ message_id (record_of s' chatId) = Some mid
    /\ message_ids (record_of s' chatId) = None
    /\ is_Some (messageMap s' !! chatId).
Proof.
  intros Hne. unfold setMessageId. apply Z.eqb_neq in Hne. rewrite Hne.
  pose (s0 := ensure_record chatId s).
  pose (s1 := if bool_decide (is_Some (message_ids (record_of s0 chatId)))
              then update_record chatId (set_message_ids None) s0 else s0).
  exists (if bool_decide (message_id (record_of s1 chatId) = Some mid) then s1
          else mark_dirty (update_record chatId (set_message_id (Some mid)) s1)).
  split; [reflexivity |].
  assert (message_ids (record_of s1 chatId) = None) as H1.
  { subst s1. destruct (bool_decide (is_Some (message_ids (record_of s0 chatId)))) eqn:E.
    - by rewrite record_of_update.
    - apply bool_decide_eq_false in E.
      destruct (message_ids (record_of s0 chatId)); [exfalso; eauto | done]. }
  assert (is_Some (messageMap s1 !! chatId)) as P1.
  { subst s1. destruct (bool_decide _); [apply present_update | apply present_ensure]. }
  destruct (bool_decide (message_id (record_of s1 chatId) = Some mid)) eqn:E.
  - apply bool_decide_eq_true in E. auto.
  - rewrite record_of_mark_dirty, record_of_update. simpl.
    split; [done |]. split; [exact H1 |]. rewrite lookup_insert_eq. eauto.
Qed.

Lemma setMessageIds_stores env chatId mids s tr :
  exists s', exec env (setMessageIds chatId (Some mids)) s tr = ((tt, s'), tr)
    /\ message_id (record_of s' chatId)
       = (if truthy_id (message_id (record_of s chatId)) then None
          else message_id (record_of s chatId))
    /\ default [] (message_ids (record_of s' chatId)) = mids
    /\ (mids <> [] -> message_ids (record_of s' chatId) = Some mids).
Proof.
  unfold setMessageIds.
  pose (s0 := ensure_record chatId s).
  pose (s1 := if truthy_id (message_id (record_of s0 chatId))
              then update_record chatId (set_message_id None) s0 else s0).
  exists (if bool_decide (default [] (message_ids (record_of s1 chatId)) = mids) then s1
          else mark_dirty (update_record chatId (set_message_ids (Some mids)) s1)).
  split; [reflexivity |].
  assert (record_of s0 chatId = record_of s chatId) as H0 by apply record_of_ensure.
  assert (message_id (record_of s1 chatId)
          = (if truthy_id (message_id (record_of s chatId)) then None
             else message_id (record_of s chatId))) as H1.
  { subst s1. rewrite H0. destruct (truthy_id (message_id (record_of s chatId))).
    - by rewrite record_of_update.
    - by rewrite H0. }
  destruct (bool_decide (default [] (message_ids (record_of s1 chatId)) = mids)) eqn:E.
  - apply bool_decide_eq_true in E. split; [exact H1 |]. split; [exact E |].
    intros Hne. destruct (message_ids (record_of s1 chatId)); simpl in E; congruence.
  - rewrite record_of_mark_dirty, record_of_update. simpl. auto.
Qed.

Lemma exec_sendPhoto_sent (env : environment) e s tr r s' tr' mid :
  exec env (sendPhoto e) s tr = ((r, s'), tr') ->
  out_message_id r = Some mid ->
  is_unregistered r = false /\ ok r = true /\ replaced r = false /\ s' = s.
Proof.
  unfold sendPhoto, pinMessage. run_step env; intros [= <- <- <-]; simpl;
    try discriminate; auto.
Qed.

Lemma exec_sendAlbum_sent (env : environment) e s tr r s' tr' mids :
  exec env (sendAlbum e) s tr = ((r, s'), tr') ->
  out_message_ids r = Some mids ->
  is_unregistered r = false /\ ok r = true /\ s' = s.
Proof.
  unfold sendAlbum, sendMediaGroup, pinMessage. run_step env;
    try (destruct a; simpl); intros [= <- <- <-]; simpl;
    try discriminate; auto.
Qed.

Lemma send_album_stores (env : environment) chatId e s tr mids :
  let r := fst (fst (exec env (send_album chatId e) s tr)) in
  let s' := snd (fst (exec env (send_album chatId e) s tr)) in
  out_message_ids r = Some mids ->
  message_id (record_of s' chatId)
  = (if truthy_id (message_id (record_of s chatId)) then None
     else message_id (record_of s chatId))
  /\ default [] (message_ids (record_of s' chatId)) = mids
  /\ (mids <> [] -> message_ids (record_of s' chatId) = Some mids).
Proof.
  unfold send_album. rewrite exec_bind.
  destruct (exec env (sendAlbum e) s tr) as [[r s1] tr1] eqn:E.
  destruct (is_unregistered r) eqn:U.
  - rewrite exec_ret. simpl. intros Hm.
    destruct (exec_sendAlbum_sent env e s tr r s1 tr1 mids E Hm) as (U' & _). congruence.
  - rewrite exec_bind.
    destruct (exec env (if ok r then _ else _) s1 tr1) as [[[] s2] tr2] eqn:E2.
    rewrite exec_bind, exec_modify, exec_ret. simpl. intros Hm.
    destruct (exec_sendAlbum_sent env e s tr r s1 tr1 mids E Hm) as (_ & Hok & ->).
    rewrite Hok, Hm in E2.
    destruct (setMessageIds_stores env chatId mids s tr1) as (s2' & E2' & H1 & H2 & H3).
    rewrite E2' in E2. injection E2 as <- <-.
    destruct (updateStoredChatFields_ids chatId e s2') as [-> ->]. auto.
Qed.

Lemma send_single_stores (env : environment) chatId e s tr mid :
  let r := fst (fst (exec env (send_single chatId e) s tr)) in
  let s' := snd (fst (exec env (send_single chatId e) s tr)) in
  out_message_id r = Some mid -> mid <> 0 ->
  message_id (record_of s' chatId) = Some mid
  /\ message_ids (record_of s' chatId) = None.
Proof.
  unfold send_single. rewrite exec_bind.
  destruct (exec env (sendPhoto e) s tr) as [[r s1] tr1] eqn:E.
  destruct (is_unregistered r) eqn:U.
  - rewrite exec_ret. simpl. intros Hm _.
    destruct (exec_sendPhoto_sent env e s tr r s1 tr1 mid E Hm) as (U' & _). congruence.
  - rewrite exec_bind.
    destruct (exec env (if ok r then _ else _) s1 tr1) as [[[] s2] tr2] eqn:E2.
    rewrite exec_bind, exec_modify, exec_ret. simpl. intros Hm Hne.
    destruct (exec_sendPhoto_sent env e s tr r s1 tr1 mid E Hm) as (_ & Hok & _ & ->).
    rewrite Hok, Hm in E2.
    destruct (setMessageId_stores env chatId mid s tr1 Hne) as (s2' & E2' & H1 & H2 & _).
    rewrite E2' in E2. injection E2 as <- <-.
    destruct (updateStoredChatFields_ids chatId e s2') as [-> ->]. auto.
Qed.

(** ** The decision table *)

Lemma exec_then {A : Type} (env : environment) (m : M unit) (k : M A) s tr :
  (forall tr0, snd (fst (exec env m s tr0)) = s) ->
  exec env (m ;; k) s tr = exec env k s (snd (exec env m s tr)).
Proof.
  intros Hm. rewrite exec_bind. pose proof (Hm tr) as H.
  destruct (exec env m s tr) as [[[] s1] tr1]. simpl in H. by subst s1.
Qed.

Lemma exec_delete_then {A : Type} (env : environment) chatId mid (k : M A) s tr :
  exec env (deleteMessage chatId mid ;; k) s tr
  = exec env k s (snd (exec env (deleteMessage chatId mid) s tr)).
Proof. reflexivity. Qed.

(** The trace that the deletions of [migrate] leave. *)
Lemma migrate_trace (env : environment) chatId album ks ka n s tr :
  snd (exec env (migrate chatId album ks ka n) s tr) =
  let tr1 := if album && truthy_id ks
             then snd (exec env (deleteMessage chatId (default 0 ks)) s tr) else tr in
  let tr2 := if negb album && bool_decide (is_Some ka)
             then snd (exec env (delete_all chatId (default [] ka)) s tr1) else tr1 in
  if album && album_size_differs ka n
  then snd (exec env (delete_all chatId (default [] ka)) s tr2) else tr2.
Proof.
  unfold migrate.
  rewrite exec_then by (intros; by destruct (album && truthy_id ks)).
  rewrite exec_then
    by (intros; destruct (negb album && bool_decide (is_Some ka));
        [apply exec_delete_all_state | reflexivity]).
  cbv zeta.
  destruct (album && truthy_id ks), (negb album && bool_decide (is_Some ka)),
    (album && album_size_differs ka n); reflexivity.
Qed.

Lemma decide_mode_transition album ks ka n :
  is_transition ks ka album n = true -> fst (decide_mode album ks ka n) = send.
Proof.
  unfold is_transition, decide_mode.
  destruct (album && truthy_id ks), (negb album && bool_decide (is_Some ka)),
    (album && album_size_differs ka n); simpl; try discriminate; intros _;
    repeat match goal with
           | |- context [let '(_, _) := ?x in _] => destruct x
           end; reflexivity.
Qed.


(** ** Classification of gateway failures *)

(** [sendPhoto]: a failure is a removal exactly for code 403 with "not a
    member" in the description; a removal deletes the record and marks the map
    dirty; any other 403 is a hard failure that leaves the state alone. *)
Lemma sendPhoto_classifies (env : environment) e s tr code d :
  env _ tr (SendPhoto (chat_id e) (cacheBustedUrl (e_image_url e))
              (withTimestamp (e_caption e)) (e_message_thread_id e)) = NotOk code d ->
  let r := fst (fst (exec env (sendPhoto e) s tr)) in
  let s' := snd (fst (exec env (sendPhoto e) s tr)) in
  (is_unregistered r = true <->
   code = 403 /\ description_includes_ci d "not a member" = true)
  /\ (is_unregistered r = true ->
      messageMap s' = delete (chat_id e) (messageMap s)
      /\ (is_Some (messageMap s !! chat_id e) -> mapDirty s' = true))
  /\ (code = 403 -> description_includes_ci d "not a member" = false ->
      ok r = false /\ s' = s).
Proof.
  intros Ha. unfold sendPhoto, exec, bind, gateway, lift, ret. simpl. rewrite Ha.
  destruct (code =? 403) eqn:E403; simpl.
  - apply Z.eqb_eq in E403. subst code.
    destruct (description_includes_ci d "not a member") eqn:Enm; simpl.
    + split; [done |]. split; [| intros _ [=]]. intros _.
      unfold removeChat. destruct (messageMap s !! chat_id e) eqn:El; simpl.
      * done.
      * rewrite delete_id by done. split; [done |]. by intros [? [=]].
    + split; [split; [intros [=] | intros [_ [=]]] |]. split; [intros [=] | done].
  - apply Z.eqb_neq in E403.
    destruct ((code =? 400) && description_includes d "TOPIC_CLOSED"); simpl;
      (split; [split; [intros [=] | intros [? _]; done] |]);
      (split; [intros [=] | intros ?; done]).
Qed.

(** [editPhoto] classifies a 403 in the same way. *)
Lemma editPhoto_classifies (env : environment) e mid s tr d :
  env _ tr (EditMessageMedia (chat_id e) mid (cacheBustedUrl (e_image_url e))
              (withTimestamp (e_caption e))) = NotOk 403 d ->
  let r := fst (fst (exec env (editPhoto e mid) s tr)) in
  let s' := snd (fst (exec env (editPhoto e mid) s tr)) in
  (is_unregistered r = true <-> description_includes_ci d "not a member" = true)
  /\ (is_unregistered r = true -> messageMap s' = delete (chat_id e) (messageMap s))
  /\ (description_includes_ci d "not a member" = false -> ok r = false /\ s' = s).
Proof.
  intros Ha. unfold editPhoto, exec, bind, gateway, lift, ret. simpl. rewrite Ha.
  simpl. destruct (description_includes_ci d "not a member") eqn:Enm; simpl.
  - unfold removeChat. destruct (messageMap s !! chat_id e) eqn:El; simpl;
      rewrite ?delete_id by done; done.
  - split; [split; intros [=] |]. split; [intros [=] | done].
Qed.

(** [sendAlbum] removes the chat on every 403, whatever the description. *)
Lemma sendAlbum_removes_on_403 (env : environment) e s tr d :
  env _ tr (SendMediaGroup (chat_id e)
              (album_media (withTimestamp (e_caption e)) true (images_of (e_image_url e)))
              (if truthy_id (e_message_thread_id e) then e_message_thread_id e else None))
  = NotOk 403 d ->
  let r := fst (fst (exec env (sendAlbum e) s tr)) in
  let s' := snd (fst (exec env (sendAlbum e) s tr)) in
  is_unregistered r = true /\ messageMap s' = delete (chat_id e) (messageMap s).
Proof.
  intros Ha. unfold sendAlbum, sendMediaGroup, exec, bind, gateway, lift, ret.
  simpl. rewrite Ha. simpl.
  unfold removeChat. destruct (messageMap s !! chat_id e) eqn:El; simpl;
    rewrite ?delete_id by done; done.
Qed.

(** ** Recovery of [editPhoto] *)

Lemma exec_editPhoto_sent (env : environment) e mid0 s tr r s' tr' mid :
  exec env (editPhoto e mid0) s tr = ((r, s'), tr') ->
  out_message_id r = Some mid ->
  is_unregistered r = false /\ ok r = true /\ replaced r = true /\ s' = s.
Proof.
  unfold editPhoto, sendPhoto, deleteMessage, pinMessage. run_step env;
    intros [= <- <- <-]; simpl; try discriminate; auto.
Qed.

(** C3.  When the edit of a single message is answered with code 400 and a
    description that holds neither "message is not modified" nor
    "TOPIC_CLOSED", [editPhoto] deletes the old message, sends the photo anew
    and returns the outcome of that send flagged [replaced]: after the edit it
    asks for the deletion of the old message id, then for the photo, then,
    when the photo was accepted, for the pin of the new message, and for
    nothing else; and when that send returned a message id, the caller stores
    it as the [message_id] of the chat. *)
Theorem edit_400_is_replaced_by_send (env : environment) (chatId : string)
    (e : effective) (mid : Z) (s : state) (tr : list event) (d : option string)
    (H400 : env _ tr (EditMessageMedia (chat_id e) mid
                        (cacheBustedUrl (e_image_url e))
                        (withTimestamp (e_caption e))) = NotOk 400 d)
    (Hnm : description_includes d "message is not modified" = false)
    (Htc : description_includes d "TOPIC_CLOSED" = false) :
  let asked := Ev (EditMessageMedia (chat_id e) mid (cacheBustedUrl (e_image_url e))
                     (withTimestamp (e_caption e))) (NotOk 400 d) in
  exec env (editPhoto e mid) s tr =
  exec env (deleteMessage (chat_id e) mid ;;
            sent <- sendPhoto e ;;
            ret (with_replaced sent)) s (tr ++ [asked])
  /\ map request_of (snd (exec env (editPhoto e mid) s tr))
     = map request_of tr
       ++ [request_of asked;
           Req (DeleteMessage (chat_id e) mid);
           Req (SendPhoto (chat_id e) (cacheBustedUrl (e_image_url e))
                  (withTimestamp (e_caption e)) (e_message_thread_id e))]
       ++ match out_message_id (fst (fst (exec env (editPhoto e mid) s tr))) with
          | Some newId => [Req (PinChatMessage (chat_id e) newId)]
          | None => []
          end
  /\ replaced (fst (fst (exec env (editPhoto e mid) s tr))) = true
  /\ (forall newId,
        let r := fst (fst (exec env (edit_single chatId e (Some (IdSingle mid))) s tr)) in
        let s' := snd (fst (exec env (edit_single chatId e (Some (IdSingle mid))) s tr)) in
        out_message_id r = Some newId -> newId <> 0 ->
        replaced r = true
        /\ exists rec', messageMap s' !! chatId = Some rec'
                        /\ message_id rec' = Some newId).
Proof.
  intros asked.
  assert (exec env (editPhoto e mid) s tr =
          exec env (deleteMessage (chat_id e) mid ;;
                    sent <- sendPhoto e ;;
                    ret (with_replaced sent)) s (tr ++ [asked])) as Heq.
  { unfold editPhoto at 1. unfold exec at 1. unfold bind at 1. unfold gateway at 1.
    simpl. rewrite H400. simpl. rewrite Hnm, Htc. reflexivity. }
  split; [exact Heq |]. split; [| split].
  - rewrite Heq. subst asked. unfold deleteMessage, sendPhoto, pinMessage.
    run_step env; rewrite ?map_app; simpl; rewrite <- ?app_assoc; reflexivity.
  - rewrite Heq. rewrite exec_delete_then, exec_bind.
    destruct (exec env (sendPhoto e) s _) as [[sent s1] tr1]. reflexivity.
  - intros newId. unfold edit_single. cbn [single_id]. rewrite exec_bind.
    destruct (exec env (editPhoto e mid) s tr) as [[r s1] tr1] eqn:E.
    destruct (is_unregistered r) eqn:U.
    + rewrite exec_ret. simpl. intros Hm _.
      destruct (exec_editPhoto_sent env e mid s tr r s1 tr1 newId E Hm) as (U' & _).
      congruence.
    + rewrite exec_bind.
      destruct (exec env (if ok r && replaced r then _ else _) s1 tr1)
        as [[[] s2] tr2] eqn:E2.
      rewrite exec_bind, exec_modify, exec_ret. simpl. intros Hm Hne.
      destruct (exec_editPhoto_sent env e mid s tr r s1 tr1 newId E Hm)
        as (_ & Hok & Hrep & ->).
      split; [exact Hrep |].
      rewrite Hok, Hrep, Hm in E2. cbn [andb] in E2.
      destruct (setMessageId_stores env chatId newId s tr1 Hne) as (s2' & E2' & H1 & _ & _).
      rewrite E2' in E2. injection E2 as <- <-.
      destruct (updateStoredChatFields_present chatId e s2') as [rec' Hrec'].
      exists rec'. split; [exact Hrec' |].
      destruct (updateStoredChatFields_ids chatId e s2') as [Hid _].
      unfold record_of in Hid at 1. rewrite Hrec' in Hid. simpl in Hid. congruence.
Qed.

(** ** Editing an album in place *)

Lemma album_edits_length chatId cap first existing images :
  length existing = length images ->
  length (album_edits chatId cap first existing images) = length existing.
Proof.
  revert first images. induction existing as [| m rest IH]; intros first [| i images] H;
    simpl in *; try done. f_equal. apply IH. lia.
Qed.

Lemma exec_editAlbum_loop_trace (env : environment) e cap first existing images results s tr :
  length existing = length images ->
  exists answers : list (reply unit),
    length answers = length existing
    /\ exec env (editAlbum_loop e cap first existing images results) s tr
       = ((results ++ omap item_of_answer answers, s),
          tr ++ map answered (zip (album_edits (chat_id e) cap first existing images)
                                  answers)).
Proof.
  revert first images results tr.
  induction existing as [| msgId rest IH]; intros first [| img images] results tr Hlen;
    simpl in Hlen; try discriminate.
  - exists []. split; [reflexivity |]. simpl. by rewrite !app_nil_r.
  - cbn [editAlbum_loop album_edits]. rewrite exec_bind, exec_gateway.
    set (c := EditMessageMedia (chat_id e) msgId (cacheBustedUrl img)
                (if first then cap else "")).
    set (a := env _ tr c).
    destruct (IH false images
                (match a with
                 | Ok _ => results ++ [mkItem true None false]
                 | NotOk code d =>
                     if (code =? 400) && description_includes d "message is not modified"
                     then results
                     else results ++ [mkItem false (Some (code, d)) false]
                 | Threw => results ++ [mkItem false None true]
                 end) (tr ++ [Ev c a])) as (answers & Hl & ->); [lia |].
    exists (a :: answers). split; [simpl; lia |].
    cbn [zip zip_with map answered fst snd omap]. f_equal.
    + f_equal. unfold item_of_answer at 2.
      destruct a as [[] | code d |]; simpl;
        [| destruct ((code =? 400) && description_includes d "message is not modified") |];
        simpl; by rewrite <- ?app_assoc.
    + by rewrite <- app_assoc.
Qed.

(** C4.  [editAlbum] on stored ids that are as many as the images asks for
    one media edit per pair of stored id and image, in order, with the caption
    on the first pair only; an answer "message is not modified" to an item
    counts as a success of that item and the other failures are recorded,
    neither stopping the loop; the outcome has [ok] true; the first stored id
    is pinned again last, whatever the items answered; and the branch of the
    loop that edits an album leaves the stored [message_ids] as they were. *)
Theorem edit_album_in_place (env : environment) (chatId : string) (e : effective)
    (existing : list Z) (s : state) (tr : list event)
    (Hlen : length existing = length (images_of (e_image_url e))) :
  let edits := album_edits (chat_id e) (withTimestamp (e_caption e)) true existing
                 (images_of (e_image_url e)) in
  length edits = length existing
  /\ (exists (answers : list (reply unit)) (pinned : list event),
        length answers = length existing
        /\ map request_of pinned
           = match existing with
             | first :: _ => [Req (PinChatMessage (chat_id e) first)]
             | [] => []
             end
        /\ exec env (editAlbum e (Some (IdAlbum existing))) s tr
           = ((with_result (EditedItems (omap item_of_answer answers))
                 (base_outcome true (Some e)), s),
              tr ++ map answered (zip edits answers) ++ pinned))
  /\ ok (fst (fst (exec env (editAlbum e (Some (IdAlbum existing))) s tr))) = true
  /\ message_ids (record_of
        (snd (fst (exec env (edit_album chatId e (Some (IdAlbum existing))) s tr))) chatId)
     = message_ids (record_of s chatId).
Proof.
  intros edits.
  assert (exists (answers : list (reply unit)) (pinned : list event),
        length answers = length existing
        /\ map request_of pinned
           = match existing with
             | first :: _ => [Req (PinChatMessage (chat_id e) first)]
             | [] => []
             end
        /\ exec env (editAlbum e (Some (IdAlbum existing))) s tr
           = ((with_result (EditedItems (omap item_of_answer answers))
                 (base_outcome true (Some e)), s),
              tr ++ map answered (zip edits answers) ++ pinned)) as Hrun.
  { unfold editAlbum. rewrite <- Hlen, Nat.eqb_refl. cbn [negb]. rewrite exec_bind.
    destruct (exec_editAlbum_loop_trace env e (withTimestamp (e_caption e)) true existing
                (images_of (e_image_url e)) [] s tr Hlen) as (answers & Hl & ->).
    fold edits. exists answers.
    destruct existing as [| first rest].
    - exists []. split; [exact Hl |]. split; [reflexivity |].
      unfold exec, bind, ret; simpl. by rewrite app_nil_r.
    - eexists [Ev (PinChatMessage (chat_id e) first) _].
      split; [exact Hl |]. split; [reflexivity |].
      unfold exec, bind, ret, pinMessage, gateway; simpl.
      rewrite <- app_assoc. reflexivity. }
  split; [by apply album_edits_length |]. split; [exact Hrun |].
  destruct Hrun as (answers & pinned & _ & _ & Hrun). split; [by rewrite Hrun |].
  unfold edit_album. rewrite exec_bind, Hrun, exec_bind, exec_modify, exec_ret.
  cbn [fst snd]. apply updateStoredChatFields_ids.
Qed.

(** ** The requests of a row of the table *)

Lemma delete_all_requests (env : environment) chatId mids s tr :
  exists evs,
    exec env (delete_all chatId mids) s tr = ((tt, s), tr ++ evs)
    /\ map request_of evs = map (fun m => Req (DeleteMessage chatId m)) mids.
Proof.
  revert tr. induction mids as [| m rest IH]; intros tr.
  - exists []. split; [| reflexivity]. simpl. by rewrite app_nil_r.
  - cbn [delete_all]. rewrite exec_delete_then.
    destruct (IH (snd (exec env (deleteMessage chatId m) s tr))) as (evs & -> & Hreq).
    exists (Ev (DeleteMessage chatId m) (env _ tr (DeleteMessage chatId m)) :: evs).
    split; [| simpl; by rewrite Hreq].
    unfold deleteMessage, exec, bind, gateway, ret. simpl. by rewrite <- app_assoc.
Qed.

Lemma deleteMessage_trace (env : environment) chatId mid s tr :
  snd (exec env (deleteMessage chatId mid) s tr)
  = tr ++ [Ev (DeleteMessage chatId mid) (env _ tr (DeleteMessage chatId mid))].
Proof. reflexivity. Qed.

(** The deletions of [migrate] are the deletions of the row. *)
Lemma migrate_requests (env : environment) chatId album ks ka n s tr :
  truthy_id ks && bool_decide (is_Some ka) = false ->
  map request_of (snd (exec env (migrate chatId album ks ka n) s tr))
  = map request_of tr
    ++ map (fun m => Req (DeleteMessage chatId m))
         (row_deletions (decision_table ks ka album n)).
Proof.
  intros Hinv. rewrite migrate_trace. unfold decision_table, album_size_differs.
  destruct album, ks as [mid |], ka as [mids |]; simpl in Hinv |- *;
    repeat match goal with
           | |- context [(?a =? ?b)%Z] => destruct (a =? b)%Z eqn:?; simpl in *
           | |- context [(?a =? ?b)%nat] => destruct (a =? b)%nat eqn:?; simpl in *
           end;
    try discriminate; rewrite ?app_nil_r; try reflexivity;
    try (rewrite map_app; reflexivity);
    match goal with
    | |- context [exec env (delete_all chatId ?l) s ?t] =>
        destruct (delete_all_requests env chatId l s t) as (evs & -> & Hreq);
        simpl; by rewrite map_app, Hreq
    end.
Qed.

Lemma sendPhoto_requests (env : environment) e s tr :
  map request_of (snd (exec env (sendPhoto e) s tr))
  = map request_of tr
    ++ Req (SendPhoto (chat_id e) (cacheBustedUrl (e_image_url e))
              (withTimestamp (e_caption e)) (e_message_thread_id e))
       :: match out_message_id (fst (fst (exec env (sendPhoto e) s tr))) with
          | Some mid => [Req (PinChatMessage (chat_id e) mid)]
          | None => []
          end.
Proof.
  unfold sendPhoto, pinMessage. run_step env;
    rewrite ?map_app; simpl; rewrite <- ?app_assoc; reflexivity.
Qed.

Lemma sendAlbum_requests (env : environment) e s tr :
  map request_of (snd (exec env (sendAlbum e) s tr))
  = map request_of tr
    ++ Req (SendMediaGroup (chat_id e)
              (album_media (withTimestamp (e_caption e)) true
                 (images_of (e_image_url e)))
              (if truthy_id (e_message_thread_id e)
               then e_message_thread_id e else None))
       :: match out_message_ids (fst (fst (exec env (sendAlbum e) s tr))) with
          | Some (first :: _) => [Req (PinChatMessage (chat_id e) first)]
          | _ => []
          end.
Proof.
  unfold sendAlbum, sendMediaGroup, pinMessage. run_step env;
    try (destruct a; simpl);
    rewrite ?map_app; simpl; rewrite <- ?app_assoc; reflexivity.
Qed.

Lemma editPhoto_first_request (env : environment) e mid s tr :
  exists rest,
    map request_of (snd (exec env (editPhoto e mid) s tr))
    = map request_of tr
      ++ Req (EditMessageMedia (chat_id e) mid (cacheBustedUrl (e_image_url e))
                (withTimestamp (e_caption e))) :: rest.
Proof.
  unfold editPhoto, sendPhoto, deleteMessage, pinMessage. run_step env;
    rewrite ?map_app; simpl; rewrite <- ?app_assoc; simpl; eexists; reflexivity.
Qed.

Lemma requests_of_answered {T : Type} (cs : list (call T)) (answers : list T) :
  length answers = length cs ->
  map request_of (map answered (zip cs answers)) = map (fun c => Req c) cs.
Proof.
  revert answers. induction cs as [| c cs IH]; intros [| a answers] H;
    simpl in *; try done. f_equal. apply IH. lia.
Qed.

Lemma editAlbum_requests (env : environment) e existing s tr :
  length existing = length (images_of (e_image_url e)) ->
  map request_of (snd (exec env (editAlbum e (Some (IdAlbum existing))) s tr))
  = map request_of tr
    ++ map (fun c => Req c)
         (album_edits (chat_id e) (withTimestamp (e_caption e)) true existing
            (images_of (e_image_url e)))
    ++ match existing with
       | first :: _ => [Req (PinChatMessage (chat_id e) first)]
       | [] => []
       end.
Proof.
  intros Hlen. unfold editAlbum. rewrite <- Hlen, Nat.eqb_refl. cbn [negb].
  rewrite exec_bind.
  destruct (exec_editAlbum_loop_trace env e (withTimestamp (e_caption e)) true existing
              (images_of (e_image_url e)) [] s tr Hlen) as (answers & Hl & ->).
  assert (length answers
          = length (album_edits (chat_id e) (withTimestamp (e_caption e)) true existing
                      (images_of (e_image_url e)))) as Hl'
    by (by rewrite album_edits_length).
  set (edits := album_edits (chat_id e) (withTimestamp (e_caption e)) true existing
                  (images_of (e_image_url e))) in *.
  assert (forall pins : list event,
            map request_of ((tr ++ map answered (zip edits answers)) ++ pins)
            = map request_of tr ++ map (fun c => Req c) edits ++ map request_of pins)
    as Hmap.
  { intros pins. rewrite !map_app, requests_of_answered by exact Hl'.
    by rewrite <- app_assoc. }
  destruct existing as [| first rest].
  - rewrite exec_bind, exec_ret, exec_ret. cbn [snd].
    rewrite <- (app_nil_r (tr ++ _)). apply Hmap.
  - rewrite exec_bind, exec_bind. unfold pinMessage.
    rewrite exec_bind, exec_gateway, !exec_ret. cbn [snd]. apply Hmap.
Qed.

(** The store steps of a branch ask nothing of the gateway. *)
Lemma branch_run (env : environment) chatId e (op : M outcome)
    (store : outcome -> M unit) s tr :
  (forall r s0 tr0, snd (exec env (store r) s0 tr0) = tr0) ->
  let out := exec env
       (r <- op ;;
        if is_unregistered r then ret r
        else store r ;; modify (updateStoredChatFields chatId e) ;; ret r) s tr in
  fst (fst out) = fst (fst (exec env op s tr))
  /\ snd out = snd (exec env op s tr).
Proof.
  intros Hstore. simpl. rewrite exec_bind.
  destruct (exec env op s tr) as [[r s1] tr1].
  destruct (is_unregistered r); [by rewrite exec_ret |].
  rewrite exec_bind. pose proof (Hstore r s1 tr1) as H2.
  destruct (exec env (store r) s1 tr1) as [[[] s2] tr2]. simpl in H2. subst tr2.
  by rewrite exec_bind, exec_modify, exec_ret.
Qed.

Lemma setMessageId_trace (env : environment) chatId o s tr :
  snd (exec env (setMessageId chatId o) s tr) = tr.
Proof. destruct (exec_setMessageId env chatId o s tr) as (s' & -> & _). done. Qed.

Lemma setMessageIds_trace (env : environment) chatId o s tr :
  snd (exec env (setMessageIds chatId o) s tr) = tr.
Proof. destruct (exec_setMessageIds env chatId o s tr) as (s' & -> & _). done. Qed.

Lemma send_single_run (env : environment) chatId e s tr :
  fst (fst (exec env (send_single chatId e) s tr)) = fst (fst (exec env (sendPhoto e) s tr))
  /\ snd (exec env (send_single chatId e) s tr) = snd (exec env (sendPhoto e) s tr).
Proof.
  apply (branch_run env chatId e (sendPhoto e)
           (fun r => if ok r then setMessageId chatId (out_message_id r) else ret tt)).
  intros r s0 tr0. destruct (ok r); [apply setMessageId_trace | done].
Qed.

Lemma send_album_run (env : environment) chatId e s tr :
  fst (fst (exec env (send_album chatId e) s tr)) = fst (fst (exec env (sendAlbum e) s tr))
  /\ snd (exec env (send_album chatId e) s tr) = snd (exec env (sendAlbum e) s tr).
Proof.
  apply (branch_run env chatId e (sendAlbum e)
           (fun r => if ok r then setMessageIds chatId (out_message_ids r) else ret tt)).
  intros r s0 tr0. destruct (ok r); [apply setMessageIds_trace | done].
Qed.

Lemma edit_single_run (env : environment) chatId e cur s tr :
  snd (exec env (edit_single chatId e cur) s tr)
  = snd (exec env (editPhoto e (single_id cur)) s tr).
Proof.
  apply (branch_run env chatId e (editPhoto e (single_id cur))
           (fun r => if ok r && replaced r
                     then setMessageId chatId (out_message_id r) else ret tt)).
  intros r s0 tr0. destruct (ok r && replaced r); [apply setMessageId_trace | done].
Qed.

Lemma edit_album_run (env : environment) chatId e cur s tr :
  snd (exec env (edit_album chatId e cur) s tr) = snd (exec env (editAlbum e cur) s tr).
Proof.
  unfold edit_album. rewrite exec_bind.
  destruct (exec env (editAlbum e cur) s tr) as [[r s1] tr1].
  by rewrite exec_bind, exec_modify, exec_ret.
Qed.

Lemma send_album_requests (env : environment) chatId e s tr :
  chat_id e = chatId ->
  exists ops,
    map request_of (snd (exec env (send_album chatId e) s tr)) = map request_of tr ++ ops
    /\ row_requests chatId e SendsAlbum (fst (fst (exec env (send_album chatId e) s tr))) ops.
Proof.
  intros <-. destruct (send_album_run env (chat_id e) e s tr) as [-> ->].
  eexists. split; [apply sendAlbum_requests | reflexivity].
Qed.

Lemma send_single_requests (env : environment) chatId e s tr :
  chat_id e = chatId ->
  exists ops,
    map request_of (snd (exec env (send_single chatId e) s tr)) = map request_of tr ++ ops
    /\ row_requests chatId e SendsSingle (fst (fst (exec env (send_single chatId e) s tr))) ops.
Proof.
  intros <-. destruct (send_single_run env (chat_id e) e s tr) as [-> ->].
  eexists. split; [apply sendPhoto_requests | reflexivity].
Qed.

(** The requests of an action of the table: its deletions, in order, and
    then its operation. *)
Lemma perform_requests (env : environment) chatId e album a s tr :
  chat_id e = chatId ->
  (forall mids, a = EditAlbumInPlace mids ->
     length mids = length (images_of (e_image_url e))) ->
  exists ops,
    map request_of (snd (exec env (perform chatId e album a) s tr))
    = map request_of tr
      ++ map (fun m => Req (DeleteMessage chatId m)) (row_deletions a) ++ ops
    /\ row_requests chatId e (row_operation_of a album)
         (fst (fst (exec env (perform chatId e album a) s tr))) ops.
Proof.
  intros He Hfit. destruct a as [mid | mids | mids | mids | mid |]; cbn [perform].
  - rewrite exec_delete_then, deleteMessage_trace.
    destruct (send_album_requests env chatId e s
                (tr ++ [Ev (DeleteMessage chatId mid) (env _ tr (DeleteMessage chatId mid))])
                He) as (ops & -> & Hops).
    exists ops. split; [| exact Hops]. rewrite map_app. simpl.
    by rewrite <- app_assoc.
  - rewrite exec_then by (intros; apply exec_delete_all_state).
    destruct (delete_all_requests env chatId mids s tr) as (evs & -> & Hreq).
    cbn [snd].
    destruct (send_single_requests env chatId e s (tr ++ evs) He) as (ops & -> & Hops).
    exists ops. split; [| exact Hops]. simpl.
    by rewrite map_app, Hreq, <- app_assoc.
  - rewrite exec_then by (intros; apply exec_delete_all_state).
    destruct (delete_all_requests env chatId mids s tr) as (evs & -> & Hreq).
    cbn [snd].
    destruct (send_album_requests env chatId e s (tr ++ evs) He) as (ops & -> & Hops).
    exists ops. split; [| exact Hops]. simpl.
    by rewrite map_app, Hreq, <- app_assoc.
  - rewrite edit_album_run. subst chatId.
    rewrite (editAlbum_requests env e mids s tr (Hfit mids eq_refl)).
    eexists. split; [reflexivity |]. reflexivity.
  - rewrite edit_single_run. cbn [single_id]. subst chatId.
    destruct (editPhoto_first_request env e mid s tr) as (rest & ->).
    eexists. split; [reflexivity |]. by exists rest.
  - destruct album.
    + destruct (send_album_requests env chatId e s tr He) as (ops & -> & Hops). eauto.
    + destruct (send_single_requests env chatId e s tr He) as (ops & -> & Hops). eauto.
Qed.

Lemma decision_table_fits ks ka album n mids :
  decision_table ks ka album n = EditAlbumInPlace mids -> album = true /\ length mids = n.
Proof.
  unfold decision_table.
  destruct (if truthy_id ks then ks else None), ka as [l |], album; try discriminate.
  destruct (length l =? n)%nat eqn:E; [| discriminate].
  intros [= <-]. split; [done |]. by apply Nat.eqb_eq.
Qed.

(** C1.  For a chat of the map with an [image_url]: when at most one of
    [message_id] and [message_ids] is stored, the iteration does what the
    six-row table says for the stored state and the effective mode: it asks
    for the deletion of every message id the row names, in order, and then
    for the row's send or edit (a send is followed only by the pin of the
    first message it returned, the edit of an album is one edit per stored id
    and the pin of the first, the edit of a single message starts with the
    edit of the stored id); whatever is stored, a transition case ends in a
    send, never an edit; and after a send that returned ids the record holds
    the ids of the mode that was used: no [message_id] is left after a switch
    from single to album, no [message_ids] after a switch from album to
    single. *)
Theorem reconciliation_follows_table (env : environment) (chatId : string)
    (s : state) (tr : list event) (rec : ChatRecord)
    (Hin : messageMap s !! chatId = Some rec)
    (Hid : nonempty chatId = true)
    (Himg : truthy_image (image_url rec) = true) :
  let e := effective_of chatId rec in
  let album := isAlbumConfig (image_url rec) in
  let n := image_count (image_url rec) in
  let r := fst (fst (exec env (reconcile_chat chatId) s tr)) in
  let rec' := record_of (snd (fst (exec env (reconcile_chat chatId) s tr))) chatId in
  (truthy_id (message_id rec) && bool_decide (is_Some (message_ids rec)) = false ->
   let row := decision_table (message_id rec) (message_ids rec) album n in
   exec env (reconcile_chat chatId) s tr = exec env (perform chatId e album row) s tr
   /\ exists ops,
        map request_of (snd (exec env (reconcile_chat chatId) s tr))
        = map request_of tr
          ++ map (fun m => Req (DeleteMessage chatId m)) (row_deletions row)
          ++ ops
        /\ row_requests chatId e (row_operation_of row album) r ops)
  /\ (is_transition (message_id rec) (message_ids rec) album n = true ->
      fst (decide_mode album (message_id rec) (message_ids rec) n) = send
      /\ exec env (reconcile_chat chatId) s tr =
         exec env (migrate chatId album (message_id rec) (message_ids rec) n ;;
                   if album then send_album chatId e else send_single chatId e) s tr)
  /\ (album = true -> truthy_id (message_id rec) = true ->
      forall mids, out_message_ids r = Some mids ->
        message_id rec' = None /\ default [] (message_ids rec') = mids
        /\ (mids <> [] -> message_ids rec' = Some mids))
  /\ (album = false -> is_Some (message_ids rec) ->
      forall mid, out_message_id r = Some mid -> mid <> 0 ->
        message_ids rec' = None /\ message_id rec' = Some mid).
Proof.
  intros e album n r rec'.
  assert (record_of s chatId = rec) as Hrec by (unfold record_of; by rewrite Hin).
  assert (truthy_image (image_url (record_of s chatId)) = true) as Himg'
    by (by rewrite Hrec).
  pose proof (exec_reconcile_chat env chatId s tr Hid Himg') as Hexec.
  cbv zeta in Hexec. rewrite Hrec in Hexec. fold e album n in Hexec.
  assert (is_transition (message_id rec) (message_ids rec) album n = true ->
             exec env (reconcile_chat chatId) s tr =
             exec env (if album then send_album chatId e else send_single chatId e) s
               (snd (exec env (migrate chatId album (message_id rec)
                                 (message_ids rec) n) s tr))) as Htrans.
  { intros Ht. rewrite Hexec. pose proof (decide_mode_transition _ _ _ _ Ht) as Hd.
    destruct (decide_mode album (message_id rec) (message_ids rec) n) as [m cur].
    simpl in Hd. by subst m. }
  split; [| split; [| split]].
  - intros Hinv row.
    assert (exec env (reconcile_chat chatId) s tr
            = exec env (perform chatId e album row) s tr) as Hrow.
    { subst row. rewrite Hexec, migrate_trace.
      unfold decision_table, decide_mode, album_size_differs, perform.
      destruct album, (message_id rec) as [mid |], (message_ids rec) as [mids |];
        simpl in Hinv |- *;
        repeat match goal with
               | |- context [(?a =? ?b)%Z] => destruct (a =? b)%Z eqn:?; simpl in *
               | |- context [(?a =? ?b)%nat] => destruct (a =? b)%nat eqn:?; simpl in *
               end;
        try discriminate; try reflexivity;
        rewrite ?exec_then by (intros; apply exec_delete_all_state);
        try reflexivity. }
    split; [exact Hrow |]. subst r. rewrite Hrow.
    apply perform_requests; [reflexivity |].
    intros mids Hmids. destruct (decision_table_fits _ _ _ _ _ Hmids) as [Halb Hn].
    rewrite Hn. subst e n. cbn [e_image_url effective_of].
    symmetry. by apply album_image_count.
  - intros Ht. split; [by apply decide_mode_transition |].
    rewrite (Htrans Ht).
    rewrite exec_then by (intros; apply exec_migrate_state). reflexivity.
  - intros Halb Hks mids Hm. subst r rec'.
    assert (is_transition (message_id rec) (message_ids rec) album n = true) as Ht
      by (unfold is_transition; by rewrite Halb, Hks).
    rewrite (Htrans Ht) in Hm |- *. rewrite Halb in Hm |- *.
    destruct (send_album_stores env chatId e s _ mids Hm) as (H1 & H2 & H3).
    rewrite Hrec, Hks in H1. auto.
  - intros Halb Hka mid Hm Hne. subst r rec'.
    assert (is_transition (message_id rec) (message_ids rec) album n = true) as Ht.
    { unfold is_transition. rewrite Halb. simpl.
      by rewrite bool_decide_eq_true_2. }
    rewrite (Htrans Ht) in Hm |- *. rewrite Halb in Hm |- *.
    destruct (send_single_stores env chatId e s _ mid Hm Hne) as (H1 & H2). auto.
Qed.

(** ** The command processor *)

Lemma exec_sendTextMessage (env : environment) chatId text s tr :
  exec env (sendTextMessage chatId text) s tr
  = ((env _ tr (SendMessage chatId text), s),
     tr ++ [Ev (SendMessage chatId text) (env _ tr (SendMessage chatId text))]).
Proof. reflexivity. Qed.

Lemma exec_delete_command_message_state (env : environment) chatId msg s tr :
  snd (fst (exec env (delete_command_message chatId msg) s tr)) = s.
Proof.
  unfold delete_command_message. destruct (m_message_id msg) as [mid |]; [| reflexivity].
  destruct (mid =? 0); reflexivity.
Qed.

Lemma exec_verifyRemotePng_state (env : environment) url s tr :
  snd (fst (exec env (verifyRemotePng url) s tr)) = s.
Proof.
  unfold verifyRemotePng, exec, bind, gateway, ret. simpl.
  destruct (env _ tr (Fetch "HEAD" url)) as [res0 |]; simpl; [| reflexivity].
  destruct (negb (res_ok res0) || negb (res_headers res0)); simpl.
  - destruct (env _ _ (Fetch "GET" url)) as [res |]; simpl; [| reflexivity].
    destruct (negb (res_ok res)); simpl; [reflexivity |].
    destruct (negb (res_headers res)); simpl; [reflexivity |].
    destruct (_ && _); reflexivity.
  - destruct (negb (res_ok res0)); simpl; [reflexivity |].
    destruct (negb (res_headers res0)); simpl; [reflexivity |].
    destruct (_ && _); reflexivity.
Qed.

Lemma lookup_update_record_ne chatId k f s :
  k <> chatId -> messageMap (update_record chatId f s) !! k = messageMap s !! k.
Proof. intros Hne. unfold update_record; simpl. by rewrite lookup_insert_ne. Qed.

Lemma lookup_ensure_record_ne chatId k s :
  k <> chatId -> messageMap (ensure_record chatId s) !! k = messageMap s !! k.
Proof.
  intros Hne. unfold ensure_record. destruct (messageMap s !! chatId); [done |].
  simpl. by rewrite lookup_insert_ne.
Qed.

(** The caption command case by case (index.mjs 313-346), [arg] being the
    trimmed group: "-default" in any letter case removes the stored caption
    and marks the map dirty only if there was one; any other non-empty
    argument is stored verbatim as the caption and marks the map dirty; an
    empty argument is answered with the error text and leaves the dirty flag
    and every existing record as they were, the map being the one that the
    creation of the record at index.mjs 316 left. *)
Theorem caption_command_cases (env : environment) (chatId : string) (msg : Message)
    (raw : string) (s : state) (tr : list event) :
  let arg := trim raw in
  let s' := snd (fst (exec env (caption_command chatId msg raw) s tr)) in
  let tr' := snd (exec env (caption_command chatId msg raw) s tr) in
  (toLowerCase arg = "-default" ->
     caption (record_of s' chatId) = None
     /\ mapDirty s' = mapDirty s || bool_decide (is_Some (caption (record_of s chatId)))
     /\ forall k, k <> chatId -> messageMap s' !! k = messageMap s !! k)
  /\ (arg = "" ->
     tr' = tr ++ [Ev (SendMessage chatId REPLY_CAPTION_EMPTY)
                     (env _ tr (SendMessage chatId REPLY_CAPTION_EMPTY))]
     /\ mapDirty s' = mapDirty s
     /\ messageMap s' = messageMap (ensure_record chatId s)
     /\ forall k r, messageMap s !! k = Some r -> messageMap s' !! k = Some r)
  /\ (toLowerCase arg <> "-default" -> arg <> "" ->
     caption (record_of s' chatId) = Some arg
     /\ mapDirty s' = true
     /\ forall k, k <> chatId -> messageMap s' !! k = messageMap s !! k).
Proof.
  intros arg s' tr'. subst s' tr'. unfold caption_command. fold arg.
  rewrite exec_bind, exec_modify.
  split; [| split].
  - intros Hd. rewrite Hd. cbn [String.eqb Ascii.eqb Bool.eqb]. simpl String.eqb.
    rewrite exec_bind, exec_get_state, exec_bind.
    rewrite record_of_ensure.
    destruct (bool_decide (is_Some (caption (record_of s chatId)))) eqn:Ec.
    + rewrite exec_modify, exec_bind, exec_sendTextMessage.
      pose proof (exec_delete_command_message_state env chatId msg
        (mark_dirty (update_record chatId (set_caption None) (ensure_record chatId s)))
        (tr ++ [Ev (SendMessage chatId REPLY_CAPTION_RESET)
                   (env _ tr (SendMessage chatId REPLY_CAPTION_RESET))])) as ->.
      rewrite record_of_mark_dirty, record_of_update. simpl.
      split; [done |]. split; [by rewrite orb_true_r |].
      intros k Hk. rewrite lookup_insert_ne by done. by apply lookup_ensure_record_ne.
    + rewrite exec_ret, exec_bind, exec_sendTextMessage.
      pose proof (exec_delete_command_message_state env chatId msg
        (ensure_record chatId s)
        (tr ++ [Ev (SendMessage chatId REPLY_CAPTION_RESET)
                   (env _ tr (SendMessage chatId REPLY_CAPTION_RESET))])) as ->.
      rewrite record_of_ensure, mapDirty_ensure, orb_false_r.
      apply bool_decide_eq_false in Ec.
      split; [destruct (caption (record_of s chatId)); [exfalso; eauto | done] |].
      split; [done |]. intros k Hk. by apply lookup_ensure_record_ne.
  - intros He. rewrite He. simpl.
    split; [reflexivity |]. split; [apply mapDirty_ensure |]. split; [reflexivity |].
    intros k r Hk. unfold ensure_record.
    destruct (messageMap s !! chatId) eqn:E; [done |]. simpl.
    rewrite lookup_insert_ne; [done |]. congruence.
  - intros Hd He.
    assert (String.eqb (toLowerCase arg) "-default" = false) as ->
      by (by apply String.eqb_neq).
    assert (nonempty arg = true) as -> by (by destruct arg).
    cbn [negb]. rewrite exec_bind, exec_modify, exec_bind, exec_sendTextMessage.
    pose proof (exec_delete_command_message_state env chatId msg
        (mark_dirty (update_record chatId (set_caption (Some arg)) (ensure_record chatId s)))
        (tr ++ [Ev (SendMessage chatId REPLY_CAPTION_SAVED)
                   (env _ tr (SendMessage chatId REPLY_CAPTION_SAVED))])) as ->.
    rewrite record_of_mark_dirty, record_of_update. simpl.
    split; [done |]. split; [done |].
    intros k Hk. rewrite lookup_insert_ne by done. by apply lookup_ensure_record_ne.
Qed.

(** C6.  For the image command with candidate [url]: a URL that does not start
    with the outage-images base path, or does not end with ".png" in any
    letter case, or does not parse as a URL, is answered with the usage text
    and leaves the map and the dirty flag as they were; a URL that passes the
    validation and the remote verification becomes the [image_url] of the
    chat, the map is dirty, and a pending welcome message id is cleared exactly
    when its remote deletion succeeded. *)
Theorem image_command_cases (env : environment) (chatId : string) (msg : Message)
    (url : string) (s : state) (tr : list event) :
  let out := exec env (image_command chatId msg url) s tr in
  let s' := snd (fst out) in
  let verified := exec env (verifyRemotePng url) s tr in
  let stored :=
    mark_dirty (update_record chatId (set_image_url (Some (Url url)))
                  (ensure_record chatId s)) in
  (startsWith url OUTAGE_IMAGES_BASE = false
   \/ endsWith (toLowerCase url) ".png" = false
   \/ URL_parses url = false ->
   out = ((tt, s), tr ++ [Ev (SendMessage chatId REPLY_IMAGE_USAGE)
                             (env _ tr (SendMessage chatId REPLY_IMAGE_USAGE))]))
  /\ (isValidOutageImageUrl url = true -> fst (fst verified) = true ->
      image_url (record_of s' chatId) = Some (Url url)
      /\ mapDirty s' = true
      /\ welcome_message_id (record_of s' chatId)
         = (if truthy_id (welcome_message_id (record_of s chatId))
               && fst (fst (exec env
                    (deleteMessage chatId
                       (default 0 (welcome_message_id (record_of s chatId))))
                    stored (snd verified)))
            then None
            else welcome_message_id (record_of s chatId))).
Proof.
  intros out s' verified stored. subst out s'. unfold image_command. split.
  - intros Hbad.
    assert (isValidOutageImageUrl url = false) as ->.
    { unfold isValidOutageImageUrl.
      destruct Hbad as [-> | [-> | ->]]; simpl; [done | |].
      - by destruct (startsWith url OUTAGE_IMAGES_BASE).
      - by destruct (startsWith url OUTAGE_IMAGES_BASE),
             (endsWith (toLowerCase url) ".png"). }
    reflexivity.
  - intros Hvalid Hver. rewrite Hvalid. cbn [negb]. rewrite exec_bind.
    pose proof (exec_verifyRemotePng_state env url s tr) as Hs.
    fold verified in Hs |- *.
    destruct verified as [[ver s1] tr1]. simpl in Hs, Hver. subst s1 ver.
    cbn [negb snd]. rewrite exec_bind, exec_modify, exec_bind, exec_modify.
    fold stored. rewrite exec_bind, exec_get_state.
    assert (welcome_message_id (record_of stored chatId)
            = welcome_message_id (record_of s chatId)) as Hw.
    { subst stored. rewrite record_of_mark_dirty, record_of_update. simpl.
      by rewrite record_of_ensure. }
    assert (image_url (record_of stored chatId) = Some (Url url)) as Hi
      by (subst stored; by rewrite record_of_mark_dirty, record_of_update).
    rewrite Hw. unfold truthy_id.
    destruct (welcome_message_id (record_of s chatId)) as [wid |] eqn:Ewid.
    + destruct (wid =? 0) eqn:E0; cbn [negb andb default].
      * rewrite exec_bind, exec_ret, exec_bind, exec_sendTextMessage.
        rewrite exec_delete_command_message_state. by rewrite Hw.
      * rewrite exec_bind, exec_bind.
        destruct (exec env (deleteMessage chatId wid) stored tr1) as [[del s2] tr2] eqn:Ed.
        assert (s2 = stored) as ->.
        { pose proof (exec_deleteMessage_state env chatId wid stored tr1) as H.
          by rewrite Ed in H. }
        change (id wid) with wid. rewrite Ed. cbn [fst]. destruct del.
        -- rewrite exec_modify, exec_bind, exec_sendTextMessage.
           rewrite exec_delete_command_message_state.
           rewrite record_of_mark_dirty, record_of_update. simpl. by rewrite Hi.
        -- rewrite exec_ret, exec_bind, exec_sendTextMessage.
           rewrite exec_delete_command_message_state. by rewrite Hw, Hi.
    + cbn [andb]. rewrite exec_bind, exec_ret, exec_bind, exec_sendTextMessage.
      rewrite exec_delete_command_message_state. by rewrite Hw.
Qed.

(** ** What an iteration keeps *)

Lemma kept_refl chatId s : kept chatId s s.
Proof. split; [by intros k Hk | done]. Qed.

Lemma kept_trans chatId s1 s2 s3 : kept chatId s1 s2 -> kept chatId s2 s3 -> kept chatId s1 s3.
Proof.
  intros [F1 E1] [F2 E2]. split; [| auto].
  intros k Hk. by rewrite F2, F1.
Qed.

Lemma kept_removeChat chatId s : kept chatId s (snd (removeChat chatId s)).
Proof.
  unfold removeChat. destruct (messageMap s !! chatId) eqn:E; [| apply kept_refl].
  split.
  - intros k Hk. simpl. by rewrite lookup_delete_ne.
  - intros _. unfold record_of. simpl. by rewrite lookup_delete_eq.
Qed.

Lemma kept_ensure chatId s : kept chatId s (ensure_record chatId s).
Proof.
  split.
  - intros k Hk. by apply lookup_ensure_record_ne.
  - by rewrite record_of_ensure.
Qed.

Lemma kept_mark_dirty chatId s : kept chatId s (mark_dirty s).
Proof. split; [by intros k Hk | done]. Qed.

Lemma kept_update chatId f s :
  (ids_exclusive (record_of s chatId) -> ids_exclusive (f (record_of s chatId))) ->
  kept chatId s (update_record chatId f s).
Proof.
  intros Hf. split.
  - intros k Hk. by apply lookup_update_record_ne.
  - by rewrite record_of_update.
Qed.

Lemma kept_updateStoredChatFields chatId e s :
  kept chatId s (updateStoredChatFields chatId e s).
Proof.
  unfold updateStoredChatFields.
  set (s0 := ensure_record chatId s).
  set (t1 := truthy_image (e_image_url e) && _).
  set (s1 := if t1 then _ else s0).
  assert (kept chatId s s1) as K1.
  { subst s1. destruct t1; [| apply kept_ensure].
    eapply kept_trans; [apply kept_ensure |]. by apply kept_update. }
  set (t2 := nonempty (e_caption e) && _).
  assert (kept chatId s (if t2 then update_record chatId
                                      (set_caption (Some (e_caption e))) s1 else s1)) as K2.
  { destruct t2; [| exact K1]. eapply kept_trans; [exact K1 |]. by apply kept_update. }
  destruct (t1 || t2); [| exact K2].
  eapply kept_trans; [exact K2 | apply kept_mark_dirty].
Qed.

Lemma kept_setMessageId (env : environment) chatId o s tr :
  kept chatId s (snd (fst (exec env (setMessageId chatId o) s tr))).
Proof.
  unfold setMessageId. destruct o as [mid |]; [| apply kept_refl].
  destruct (mid =? 0) eqn:E0; [apply kept_refl |].
  change (snd (fst (exec env _ s tr))) with
    (let s0 := ensure_record chatId s in
     let s1 := if bool_decide (is_Some (message_ids (record_of s0 chatId)))
               then update_record chatId (set_message_ids None) s0 else s0 in
     if bool_decide (message_id (record_of s1 chatId) = Some mid) then s1
     else mark_dirty (update_record chatId (set_message_id (Some mid)) s1)).
  cbv zeta.
  set (s0 := ensure_record chatId s).
  set (s1 := if bool_decide _ then _ else s0).
  assert (kept chatId s s1 /\ message_ids (record_of s1 chatId) = None) as [K1 H1].
  { subst s1. destruct (bool_decide (is_Some (message_ids (record_of s0 chatId)))) eqn:E.
    - split; [| by rewrite record_of_update].
      eapply kept_trans; [apply kept_ensure |]. apply kept_update.
      intros _. unfold ids_exclusive. simpl. apply andb_false_r.
    - split; [apply kept_ensure |]. apply bool_decide_eq_false in E.
      destruct (message_ids (record_of s0 chatId)); [exfalso; eauto | done]. }
  destruct (bool_decide (message_id (record_of s1 chatId) = Some mid)); [exact K1 |].
  eapply kept_trans; [exact K1 |]. eapply kept_trans; [| apply kept_mark_dirty].
  apply kept_update. intros _. unfold ids_exclusive. simpl. rewrite H1.
  apply andb_false_r.
Qed.

Lemma kept_setMessageIds (env : environment) chatId o s tr :
  kept chatId s (snd (fst (exec env (setMessageIds chatId o) s tr))).
Proof.
  unfold setMessageIds. destruct o as [mids |]; [| apply kept_refl].
  change (snd (fst (exec env _ s tr))) with
    (let s0 := ensure_record chatId s in
     let s1 := if truthy_id (message_id (record_of s0 chatId))
               then update_record chatId (set_message_id None) s0 else s0 in
     if bool_decide (default [] (message_ids (record_of s1 chatId)) = mids) then s1
     else mark_dirty (update_record chatId (set_message_ids (Some mids)) s1)).
  cbv zeta.
  set (s0 := ensure_record chatId s).
  set (s1 := if truthy_id _ then _ else s0).
  assert (kept chatId s s1 /\ truthy_id (message_id (record_of s1 chatId)) = false)
    as [K1 H1].
  { subst s1. destruct (truthy_id (message_id (record_of s0 chatId))) eqn:E.
    - split; [| by rewrite record_of_update].
      eapply kept_trans; [apply kept_ensure |]. by apply kept_update.
    - split; [apply kept_ensure | exact E]. }
  destruct (bool_decide (default [] (message_ids (record_of s1 chatId)) = mids));
    [exact K1 |].
  eapply kept_trans; [exact K1 |]. eapply kept_trans; [| apply kept_mark_dirty].
  apply kept_update. intros _. unfold ids_exclusive. simpl. by rewrite H1.
Qed.

Lemma kept_sendPhoto (env : environment) e s tr :
  kept (chat_id e) s (snd (fst (exec env (sendPhoto e) s tr))).
Proof.
  unfold sendPhoto, pinMessage. run_step env;
    try apply kept_refl; apply kept_removeChat.
Qed.

Lemma kept_editPhoto (env : environment) e mid s tr :
  kept (chat_id e) s (snd (fst (exec env (editPhoto e mid) s tr))).
Proof.
  unfold editPhoto, sendPhoto, deleteMessage, pinMessage. run_step env;
    try apply kept_refl; apply kept_removeChat.
Qed.

Lemma kept_sendAlbum (env : environment) e s tr :
  kept (chat_id e) s (snd (fst (exec env (sendAlbum e) s tr))).
Proof.
  unfold sendAlbum, sendMediaGroup, pinMessage. run_step env;
    try (destruct a; simpl); try apply kept_refl; apply kept_removeChat.
Qed.

Lemma exec_editAlbum_state (env : environment) e cur s tr :
  snd (fst (exec env (editAlbum e cur) s tr)) = s.
Proof.
  unfold editAlbum. destruct cur as [[mid | existing] |]; try reflexivity.
  destruct (negb (length (images_of (e_image_url e)) =? length existing)%nat);
    [reflexivity |].
  rewrite exec_bind.
  pose proof (exec_editAlbum_loop env e (withTimestamp (e_caption e)) true existing
                (images_of (e_image_url e)) [] s tr) as Hs.
  destruct (exec env (editAlbum_loop _ _ _ _ _ _) s tr) as [[items s1] tr1].
  simpl in Hs. subst s1. destruct existing; reflexivity.
Qed.

(** A branch of the loop: the operation, the stored ids, the stored fields. *)
Lemma kept_branch (env : environment) chatId e (op : M outcome)
    (store : outcome -> M unit) (skip : outcome -> bool) s tr :
  (forall tr0, kept chatId s (snd (fst (exec env op s tr0)))) ->
  (forall r s0 tr0, kept chatId s0 (snd (fst (exec env (store r) s0 tr0)))) ->
  kept chatId s
    (snd (fst (exec env
       (r <- op ;;
        if skip r then ret r
        else store r ;; modify (updateStoredChatFields chatId e) ;; ret r) s tr))).
Proof.
  intros Hop Hstore. rewrite exec_bind. pose proof (Hop tr) as H1.
  destruct (exec env op s tr) as [[r s1] tr1]. simpl in H1.
  destruct (skip r); [exact H1 |].
  rewrite exec_bind. pose proof (Hstore r s1 tr1) as H2.
  destruct (exec env (store r) s1 tr1) as [[[] s2] tr2]. simpl in H2.
  rewrite exec_bind, exec_modify, exec_ret. simpl.
  eapply kept_trans; [exact H1 |]. eapply kept_trans; [exact H2 |].
  apply kept_updateStoredChatFields.
Qed.

Lemma kept_send_single (env : environment) chatId e s tr :
  chat_id e = chatId ->
  kept chatId s (snd (fst (exec env (send_single chatId e) s tr))).
Proof.
  intros <-. unfold send_single.
  apply (kept_branch env (chat_id e) e (sendPhoto e)
           (fun r => if ok r then setMessageId (chat_id e) (out_message_id r) else ret tt)
           is_unregistered).
  - intros tr0. apply kept_sendPhoto.
  - intros r s0 tr0. destruct (ok r); [apply kept_setMessageId | apply kept_refl].
Qed.

Lemma kept_send_album (env : environment) chatId e s tr :
  chat_id e = chatId ->
  kept chatId s (snd (fst (exec env (send_album chatId e) s tr))).
Proof.
  intros <-. unfold send_album.
  apply (kept_branch env (chat_id e) e (sendAlbum e)
           (fun r => if ok r then setMessageIds (chat_id e) (out_message_ids r) else ret tt)
           is_unregistered).
  - intros tr0. apply kept_sendAlbum.
  - intros r s0 tr0. destruct (ok r); [apply kept_setMessageIds | apply kept_refl].
Qed.

Lemma kept_edit_single (env : environment) chatId e cur s tr :
  chat_id e = chatId ->
  kept chatId s (snd (fst (exec env (edit_single chatId e cur) s tr))).
Proof.
  intros <-. unfold edit_single.
  apply (kept_branch env (chat_id e) e (editPhoto e (single_id cur))
           (fun r => if ok r && replaced r
                     then setMessageId (chat_id e) (out_message_id r) else ret tt)
           is_unregistered).
  - intros tr0. apply kept_editPhoto.
  - intros r s0 tr0. destruct (ok r && replaced r);
      [apply kept_setMessageId | apply kept_refl].
Qed.

Lemma kept_edit_album (env : environment) chatId e cur s tr :
  kept chatId s (snd (fst (exec env (edit_album chatId e cur) s tr))).
Proof.
  unfold edit_album. rewrite exec_bind.
  pose proof (exec_editAlbum_state env e cur s tr) as Hs.
  destruct (exec env (editAlbum e cur) s tr) as [[r s1] tr1]. simpl in Hs. subst s1.
  rewrite exec_bind, exec_modify, exec_ret. apply kept_updateStoredChatFields.
Qed.

Lemma kept_reconcile_chat (env : environment) chatId s tr :
  kept chatId s (snd (fst (exec env (reconcile_chat chatId) s tr))).
Proof.
  destruct (nonempty chatId) eqn:Hid.
  2:{ unfold reconcile_chat. rewrite exec_bind, exec_get_state.
      cbn [chat_id effective_of]. rewrite Hid. apply kept_refl. }
  destruct (truthy_image (image_url (record_of s chatId))) eqn:Himg.
  2:{ unfold reconcile_chat. rewrite exec_bind, exec_get_state.
      cbn [chat_id effective_of e_image_url]. rewrite Hid, Himg. apply kept_refl. }
  rewrite exec_reconcile_chat by done.
  destruct (decide_mode _ _ _ _) as [[] cur];
    destruct (isAlbumConfig (image_url (record_of s chatId)));
    auto using kept_send_album, kept_send_single, kept_edit_album, kept_edit_single.
Qed.

(** X1.  An iteration of the loop reads and writes the record of its own chat
    only: every other record of the map is afterwards what it was, whatever
    the gateway answered. *)
Theorem reconcile_chat_leaves_other_chats (env : environment) (chatId k : string)
    (s : state) (tr : list event) (Hk : k <> chatId) :
  messageMap (snd (fst (exec env (reconcile_chat chatId) s tr))) !! k
  = messageMap s !! k.
Proof. by apply (kept_reconcile_chat env chatId s tr). Qed.

(** A record that holds at most one of [message_id] and [message_ids] before
    an iteration holds at most one of them after it, whatever the gateway
    answered. *)
Lemma reconcile_chat_keeps_ids_exclusive (env : environment) (chatId : string)
    (s : state) (tr : list event)
    (Hex : ids_exclusive (record_of s chatId)) :
  ids_exclusive (record_of (snd (fst (exec env (reconcile_chat chatId) s tr))) chatId).
Proof. by apply (kept_reconcile_chat env chatId s tr). Qed.

(** ** A pass over the map *)

Lemma reconcile_from_keeps_ids_exclusive (env : environment) allIds results s tr :
  map_Forall (fun _ r => ids_exclusive r) (messageMap s) ->
  map_Forall (fun _ r => ids_exclusive r)
    (messageMap (snd (fst (exec env (reconcile_from allIds results) s tr)))).
Proof.
  revert results s tr.
  induction allIds as [| chatId rest IH]; intros results s tr Hall; [exact Hall |].
  cbn [reconcile_from]. rewrite exec_bind.
  pose proof (kept_reconcile_chat env chatId s tr) as [Hframe Hex].
  destruct (exec env (reconcile_chat chatId) s tr) as [[r s1] tr1].
  cbn [fst snd] in Hframe, Hex. apply IH.
  intros k rec Hk. destruct (decide (k = chatId)) as [-> | Hne].
  - assert (ids_exclusive (record_of s chatId)) as H0.
    { unfold record_of. destruct (messageMap s !! chatId) as [r0 |] eqn:E; simpl.
      - exact (Hall chatId r0 E).
      - reflexivity. }
    specialize (Hex H0). unfold record_of in Hex. by rewrite Hk in Hex.
  - rewrite Hframe in Hk by done. exact (Hall k rec Hk).
Qed.

(** X2.  If every record of the map holds at most one of [message_id] and
    [message_ids] before the pass over all chats, every record does after it,
    whatever the gateway answered along the way. *)
Theorem reconcile_all_keeps_ids_exclusive (env : environment) (s : state)
    (tr : list event)
    (Hall : map_Forall (fun _ r => ids_exclusive r) (messageMap s)) :
  map_Forall (fun _ r => ids_exclusive r)
    (messageMap (snd (fst (exec env reconcile_all s tr)))).
Proof.
  unfold reconcile_all. rewrite exec_bind, exec_get_state.
  by apply reconcile_from_keeps_ids_exclusive.
Qed.

(** Past either guard of the loop body nothing is asked and nothing changes. *)
Lemma skipped_chat_untouched (env : environment) chatId s tr :
  truthy_image (image_url (record_of s chatId)) = false ->
  snd (fst (exec env (reconcile_chat chatId) s tr)) = s
  /\ snd (exec env (reconcile_chat chatId) s tr) = tr
  /\ (nonempty chatId = true ->
      fst (fst (exec env (reconcile_chat chatId) s tr))
      = with_reason "no-image"
          (base_outcome true (Some (effective_of chatId (record_of s chatId))))).
Proof.
  intros Himg. unfold reconcile_chat. rewrite exec_bind, exec_get_state.
  cbn [chat_id effective_of e_image_url]. rewrite Himg.
  destruct (nonempty chatId); cbn [negb]; rewrite exec_ret; auto.
  repeat split. discriminate.
Qed.

(** ** Registration over a batch *)

Lemma register_step_records newly s u k r :
  messageMap (snd (register_step (newly, s) u)) !! k = Some r ->
  messageMap s !! k = Some r \/ (messageMap s !! k = None /\ r = empty_record).
Proof.
  unfold register_step.
  destruct (my_chat_member u) as [mcm |]; [| auto].
  destruct (mcm_chat mcm) as [ch |]; [| auto].
  destruct (_ && _); [auto |].
  destruct (status_in ["left"; "kicked"; "restricted"] (new_status mcm)).
  - unfold removeChat.
    destruct (messageMap s !! String_of_Z (c_id ch)) eqn:E; simpl; [| auto].
    rewrite lookup_delete. case_decide; [done | auto].
  - destruct (negb _); [auto |]. simpl. unfold ensure_record.
    destruct (messageMap s !! String_of_Z (c_id ch)) eqn:E; simpl; [auto |].
    rewrite lookup_insert. case_decide as Hk; [| auto].
    intros [= <-]. subst k. auto.
Qed.

Lemma register_fold_records updates newly s k r :
  messageMap (snd (fold_left register_step updates (newly, s))) !! k = Some r ->
  messageMap s !! k = Some r \/ r = empty_record.
Proof.
  revert newly s. induction updates as [| u rest IH]; intros newly s H; [auto |].
  cbn [fold_left] in H.
  destruct (register_step (newly, s) u) as [newly1 s1] eqn:E.
  destruct (IH newly1 s1 H) as [H1 | ->]; [| auto].
  pose proof (register_step_records newly s u k r) as Hs. rewrite E in Hs.
  destruct (Hs H1) as [? | [_ ->]]; auto.
Qed.

Lemma registered_records updates s k r :
  messageMap (snd (registerFromUpdates updates s)) !! k = Some r ->
  messageMap s !! k = Some r \/ r = empty_record.
Proof.
  intros Hk. unfold registerFromUpdates in Hk.
  destruct (fold_left register_step updates ([], s)) as [newly s1] eqn:E.
  assert (messageMap s1 !! k = Some r) as H1
    by (revert Hk; simpl; by destruct (0 <? length newly)%nat).
  pose proof (register_fold_records updates [] s k r) as Hf. rewrite E in Hf.
  exact (Hf H1).
Qed.

(** X8.  Registration never writes into a record: after a batch of updates every
    record of the map is the record the chat had before, or the empty record,
    which has no [image_url]. *)
Theorem registration_only_creates_empty_records (updates : list Update) (s : state)
    (k : string) (r : ChatRecord)
    (Hk : messageMap (snd (registerFromUpdates updates s)) !! k = Some r) :
  messageMap s !! k = Some r \/ (r = empty_record /\ image_url r = None).
Proof.
  destruct (registered_records updates s k r Hk) as [? | ->]; auto.
Qed.

(** A chat that the batch has just registered has the empty record, which
    its iteration of the reconciliation loop skips. *)
Lemma registered_chat_stays_dormant (env : environment) (updates : list Update)
    (s : state) (k : string) (tr : list event)
    (Hnew : messageMap s !! k = None)
    (Hreg : is_Some (messageMap (snd (registerFromUpdates updates s)) !! k)) :
  let s1 := snd (registerFromUpdates updates s) in
  snd (fst (exec env (reconcile_chat k) s1 tr)) = s1
  /\ snd (exec env (reconcile_chat k) s1 tr) = tr
  /\ ok (fst (fst (exec env (reconcile_chat k) s1 tr))) = nonempty k.
Proof.
  intros s1. destruct Hreg as [r Hr]. fold s1 in Hr.
  assert (r = empty_record) as ->.
  { destruct (registered_records updates s k r Hr) as [H | H];
      [congruence | exact H]. }
  assert (truthy_image (image_url (record_of s1 k)) = false) as Himg
    by (unfold record_of; by rewrite Hr).
  destruct (skipped_chat_untouched env k s1 tr Himg) as (H1 & H2 & H3).
  split; [exact H1 |]. split; [exact H2 |].
  destruct (nonempty k) eqn:Hid; [by rewrite H3 |].
  unfold reconcile_chat. rewrite exec_bind, exec_get_state.
  cbn [chat_id effective_of]. by rewrite Hid.
Qed.

Lemma register_step_marks newly s u :
  let out := register_step (newly, s) u in
  (fst out = newly /\ snd out = s)
  \/ (exists k, fst out = newly ++ [k])
  \/ (fst out = newly /\ mapDirty (snd out) = true).
Proof.
  unfold register_step.
  destruct (my_chat_member u) as [mcm |]; [| auto].
  destruct (mcm_chat mcm) as [ch |]; [| auto].
  destruct (_ && _); [auto |].
  destruct (status_in ["left"; "kicked"; "restricted"] (new_status mcm)).
  - unfold removeChat.
    destruct (messageMap s !! String_of_Z (c_id ch)) eqn:E; simpl; [| auto].
    auto.
  - destruct (negb _); [auto |]. simpl. unfold ensure_record.
    destruct (messageMap s !! String_of_Z (c_id ch)) eqn:E; simpl; eauto.
Qed.

Lemma register_step_dirty_mono newly s u :
  mapDirty s = true -> mapDirty (snd (register_step (newly, s) u)) = true.
Proof.
  intros Hd. unfold register_step.
  destruct (my_chat_member u) as [mcm |]; [| auto].
  destruct (mcm_chat mcm) as [ch |]; [| auto].
  destruct (_ && _); [auto |].
  destruct (status_in ["left"; "kicked"; "restricted"] (new_status mcm)).
  - unfold removeChat. destruct (messageMap s !! _); simpl; [done | by rewrite Hd].
  - destruct (negb _); [auto |]. simpl. by rewrite mapDirty_ensure.
Qed.

Lemma register_fold_marks updates newly s :
  let out := fold_left register_step updates (newly, s) in
  (fst out = newly /\ snd out = s)
  \/ (fst out <> [])
  \/ (mapDirty (snd out) = true).
Proof.
  revert newly s. induction updates as [| u rest IH]; intros newly s; [simpl; auto |].
  cbn [fold_left].
  pose proof (register_step_marks newly s u) as Hs.
  pose proof (register_step_dirty_mono newly s u) as Hm.
  destruct (register_step (newly, s) u) as [newly1 s1]. cbn [fst snd] in Hs, Hm.
  specialize (IH newly1 s1). cbv zeta in IH |- *.
  destruct Hs as [[-> ->] | [[k ->] | [-> Hd]]].
  - exact IH.
  - destruct IH as [[-> _] | [? | ?]]; auto.
    right; left. by destruct newly.
  - destruct IH as [[_ ->] | [? | ?]]; auto.
Qed.

(** X10.  Registration marks what it changes: if the dirty flag is still unset
    after a batch of updates, the map is the map it was; and a dirty flag that
    was set stays set. *)
Theorem registration_marks_every_change (updates : list Update) (s : state) :
  let s' := snd (registerFromUpdates updates s) in
  (mapDirty s' = false -> messageMap s' = messageMap s /\ fst (registerFromUpdates updates s) = [])
  /\ (mapDirty s = true -> mapDirty s' = true).
Proof.
  unfold registerFromUpdates.
  pose proof (register_fold_marks updates [] s) as H. cbv zeta in H.
  assert (mapDirty s = true ->
          mapDirty (snd (fold_left register_step updates ([], s))) = true) as Hmono.
  { clear H. generalize (@nil string). revert s.
    induction updates as [| u rest IH]; intros s newly Hd; [exact Hd |].
    cbn [fold_left]. pose proof (register_step_dirty_mono newly s u Hd) as H1.
    destruct (register_step (newly, s) u) as [newly1 s1]. by apply IH. }
  destruct (fold_left register_step updates ([], s)) as [newly s1].
  cbn [fst snd] in H, Hmono |- *. split.
  - destruct newly as [| k newly]; simpl; [| discriminate].
    intros Hd. destruct H as [[_ ->] | [? | ?]]; [done | done | congruence].
  - intros Hd. destruct (0 <? length newly)%nat; [done | auto].
Qed.

(** ** Scenarios of the loop *)

Lemma record_of_lookup s chatId rec :
  messageMap s !! chatId = Some rec -> record_of s chatId = rec.
Proof. intros H. unfold record_of. by rewrite H. Qed.

Lemma lookup_record_of s chatId :
  is_Some (messageMap s !! chatId) ->
  messageMap s !! chatId = Some (record_of s chatId).
Proof. intros [r Hr]. unfold record_of. by rewrite Hr. Qed.

(** What [updateStoredChatFields] leaves when the stored image is the
    effective one, as it is in the loop. *)
Lemma updateStoredChatFields_synced chatId e s r :
  messageMap s !! chatId = Some r ->
  image_url r = e_image_url e ->
  caption r = Some (e_caption e) \/ nonempty (e_caption e) = true ->
  messageMap (updateStoredChatFields chatId e s) !! chatId
  = Some (set_caption (Some (e_caption e)) r)
  /\ (mapDirty s = true \/ caption r = None ->
      mapDirty (updateStoredChatFields chatId e s) = true).
Proof.
  intros Hr Hi Hc. unfold updateStoredChatFields.
  rewrite (ensure_present chatId s) by eauto.
  rewrite (record_of_lookup s chatId r Hr), Hi.
  rewrite bool_decide_eq_true_2 by done. rewrite andb_false_r. cbn [negb orb].
  rewrite (record_of_lookup s chatId r Hr).
  destruct (nonempty (e_caption e) && negb (bool_decide (caption r = Some (e_caption e))))
    eqn:E.
  - split; [| done]. simpl. rewrite lookup_insert_eq.
    by rewrite (record_of_lookup s chatId r Hr).
  - assert (caption r = Some (e_caption e)) as Hcap.
    { destruct Hc as [? | Hn]; [done |]. rewrite Hn in E. simpl in E.
      by apply negb_false_iff, bool_decide_eq_true in E. }
    split.
    + rewrite Hr. f_equal. destruct r. simpl in *. by rewrite Hcap.
    + intros [? | ?]; [done | congruence].
Qed.

Lemma effective_caption_fits chatId rec :
  caption rec = Some (e_caption (effective_of chatId rec))
  \/ nonempty (e_caption (effective_of chatId rec)) = true.
Proof. simpl. destruct (caption rec); auto. Qed.

(** X5.  The first send of a single photo: a chat with an image, in single mode,
    with no stored ids, whose send is answered with a message id.  The
    iteration asks for the photo, then for the pin of the new message, and
    nothing else; the id is stored as [message_id], the effective caption is
    stored, and the map is dirty. *)
Theorem first_send_stores_the_id (env : environment) (chatId : string) (s : state)
    (tr : list event) (rec : ChatRecord) (mid : Z)
    (Hin : messageMap s !! chatId = Some rec)
    (Hid : nonempty chatId = true)
    (Himg : truthy_image (image_url rec) = true)
    (Hsingle : isAlbumConfig (image_url rec) = false)
    (Hnone : truthy_id (message_id rec) = false)
    (Hnoalbum : message_ids rec = None)
    (Hsent : env _ tr (SendPhoto chatId (cacheBustedUrl (image_url rec))
                         (withTimestamp (e_caption (effective_of chatId rec)))
                         (message_thread_id rec)) = Ok mid)
    (Hmid : mid <> 0) :
  let e := effective_of chatId rec in
  let sent := Ev (SendPhoto chatId (cacheBustedUrl (image_url rec))
                    (withTimestamp (e_caption e)) (message_thread_id rec)) (Ok mid) in
  let out := exec env (reconcile_chat chatId) s tr in
  fst (fst out)
  = with_result (SentMessage mid) (with_message_id mid (base_outcome true (Some e)))
  /\ map request_of (snd out)
     = map request_of tr ++ [request_of sent; Req (PinChatMessage chatId mid)]
  /\ messageMap (snd (fst out)) !! chatId
     = Some (set_caption (Some (e_caption e)) (set_message_id (Some mid) rec))
  /\ mapDirty (snd (fst out)) = true.
Proof.
  intros e sent out. subst out.
  pose proof (record_of_lookup s chatId rec Hin) as Hrec.
  rewrite exec_reconcile_chat by (by rewrite ?Hrec).
  rewrite migrate_trace. rewrite Hrec. rewrite Hsingle, Hnoalbum.
  unfold decide_mode, album_size_differs. rewrite Hnone. cbn [andb negb].
  rewrite (bool_decide_eq_false_2 (is_Some None)) by apply is_Some_None. cbn [andb].
  fold e. unfold send_single. rewrite exec_bind.
  assert (exec env (sendPhoto e) s tr
          = ((with_result (SentMessage mid)
                (with_message_id mid (base_outcome true (Some e))), s),
             tr ++ [sent] ++ [Ev (PinChatMessage chatId mid)
                                 (env _ (tr ++ [sent]) (PinChatMessage chatId mid))])) as ->.
  { subst sent e. unfold sendPhoto, pinMessage, exec, bind, gateway, ret. simpl.
    simpl in Hsent. rewrite Hsent. simpl. by rewrite <- app_assoc. }
  cbn [is_unregistered ok with_result with_message_id base_outcome reason_is reason andb
       out_message_id].
  rewrite exec_bind.
  assert (forall tr0, exec env (setMessageId chatId (Some mid)) s tr0
          = ((tt, mark_dirty (update_record chatId (set_message_id (Some mid)) s)), tr0))
    as Hset.
  { intros tr0. unfold setMessageId. apply Z.eqb_neq in Hmid. rewrite Hmid.
    unfold exec, bind, modify. simpl.
    rewrite !(ensure_present chatId s) by eauto. rewrite Hrec, Hnoalbum.
    rewrite (bool_decide_eq_false_2 (is_Some None)) by apply is_Some_None.
    rewrite Hrec. rewrite bool_decide_eq_false_2; [done |].
    intros Heq. rewrite Heq in Hnone. simpl in Hnone. by rewrite Hmid in Hnone. }
  rewrite Hset, exec_bind, exec_modify, exec_ret. cbn [fst snd].
  split; [reflexivity |]. split; [by rewrite !map_app |].
  destruct (updateStoredChatFields_synced chatId e
              (mark_dirty (update_record chatId (set_message_id (Some mid)) s))
              (set_message_id (Some mid) rec)) as [H1 H2].
  - simpl. by rewrite lookup_insert_eq, Hrec.
  - reflexivity.
  - apply (effective_caption_fits chatId rec).
  - split; [exact H1 | apply H2; by left].
Qed.

(** X6.  An edit of the single message that the gateway accepts, or answers with
    "message is not modified": the iteration asks for the edit and for the pin
    of the same message and for nothing else, so no second message is ever
    created; the outcome is ok and carries no new id; the stored [message_id]
    stays what it was and the record holds the effective caption. *)
Theorem accepted_edit_creates_no_message (env : environment) (chatId : string)
    (s : state) (tr : list event) (rec : ChatRecord) (mid : Z)
    (Hin : messageMap s !! chatId = Some rec)
    (Hid : nonempty chatId = true)
    (Himg : truthy_image (image_url rec) = true)
    (Hsingle : isAlbumConfig (image_url rec) = false)
    (Hstored : message_id rec = Some mid)
    (Hmid : mid <> 0)
    (Hnoalbum : message_ids rec = None)
    (Hacc : edit_accepted
              (env _ tr (EditMessageMedia chatId mid (cacheBustedUrl (image_url rec))
                           (withTimestamp (e_caption (effective_of chatId rec))))) = true) :
  let e := effective_of chatId rec in
  let out := exec env (reconcile_chat chatId) s tr in
  map request_of (snd out)
  = map request_of tr
    ++ [Req (EditMessageMedia chatId mid (cacheBustedUrl (image_url rec))
               (withTimestamp (e_caption e)));
        Req (PinChatMessage chatId mid)]
  /\ ok (fst (fst out)) = true
  /\ out_message_id (fst (fst out)) = None
  /\ messageMap (snd (fst out)) !! chatId = Some (set_caption (Some (e_caption e)) rec)
  /\ message_id (set_caption (Some (e_caption e)) rec) = Some mid.
Proof.
  intros e out. subst out.
  pose proof (record_of_lookup s chatId rec Hin) as Hrec.
  rewrite exec_reconcile_chat by (by rewrite ?Hrec).
  rewrite migrate_trace. rewrite Hrec. rewrite Hsingle, Hnoalbum, Hstored.
  unfold decide_mode, album_size_differs, truthy_id.
  apply Z.eqb_neq in Hmid. rewrite Hmid. cbn [andb negb option_map].
  rewrite (bool_decide_eq_false_2 (is_Some None)) by apply is_Some_None. cbn [andb].
  fold e. unfold edit_single. cbn [single_id]. rewrite exec_bind.
  assert (exists r tr1,
             exec env (editPhoto e mid) s tr = ((r, s), tr1)
             /\ map request_of tr1
                = map request_of tr
                  ++ [Req (EditMessageMedia chatId mid (cacheBustedUrl (image_url rec))
                             (withTimestamp (e_caption e)));
                      Req (PinChatMessage chatId mid)]
             /\ ok r = true /\ out_message_id r = None /\ reason r = None
             /\ replaced r = false) as (r & tr1 & -> & Htr & Hok & Hnew & Hreason & Hrep).
  { subst e. unfold editPhoto, pinMessage, exec, bind, gateway, ret. simpl.
    simpl in Hacc.
    match goal with
    | |- context [env ?T tr ?c] => destruct (env T tr c) as [[] | code d |]
    end;
      simpl in Hacc |- *; [| rewrite Hacc; simpl | discriminate].
    all: do 2 eexists; split; [reflexivity |];
      split; [rewrite !map_app; simpl; by rewrite <- app_assoc | repeat split]. }
  unfold is_unregistered, reason_is. rewrite Hok, Hreason, Hrep. cbn [andb].
  rewrite exec_bind, exec_ret, exec_bind, exec_modify, exec_ret. cbn [fst snd].
  split; [exact Htr |]. split; [exact Hok |]. split; [exact Hnew |].
  split; [| exact Hstored].
  apply (updateStoredChatFields_synced chatId e s rec Hin eq_refl).
  apply (effective_caption_fits chatId rec).
Qed.


(** X7.  An album whose number of images changed: the record stores album ids
    whose count differs from the count of images, and the album send is
    answered with new ids.  The iteration asks for the deletion of every old
    id in order (going on whatever each deletion answered), then for the
    album, then for the pin of its first message; the new ids replace the old
    ones in the record. *)
Theorem resized_album_is_resent (env : environment) (chatId : string) (s : state)
    (tr : list event) (rec : ChatRecord) (us : list string) (old new : list Z)
    (Hin : messageMap s !! chatId = Some rec)
    (Hid : nonempty chatId = true)
    (Himg : image_url rec = Some (Urls us))
    (Halbum : (1 < length us)%nat)
    (Hnosingle : truthy_id (message_id rec) = false)
    (Hstored : message_ids rec = Some old)
    (Hsize : length old <> length us)
    (Hnew : new <> [])
    (Hsent : forall tr0 media thread,
               env _ tr0 (SendMediaGroup chatId media thread) = Ok new) :
  let e := effective_of chatId rec in
  let out := exec env (reconcile_chat chatId) s tr in
  let media := album_media (withTimestamp (e_caption e)) true
                 (map (fun u => Some (Url u)) us) in
  let thread := if truthy_id (message_thread_id rec) then message_thread_id rec
                else None in
  map request_of (snd out)
  = map request_of tr
    ++ map (fun m => Req (DeleteMessage chatId m)) old
    ++ [Req (SendMediaGroup chatId media thread);
        Req (PinChatMessage chatId (default 0 (head new)))]
  /\ out_message_ids (fst (fst out)) = Some new
  /\ messageMap (snd (fst out)) !! chatId
     = Some (set_caption (Some (e_caption e)) (set_message_ids (Some new) rec)).
Proof.
  intros e out media thread. subst out.
  pose proof (record_of_lookup s chatId rec Hin) as Hrec.
  assert (isAlbumConfig (image_url rec) = true) as Ha
    by (rewrite Himg; simpl; by apply Nat.ltb_lt).
  assert (image_count (image_url rec) = length us) as Hn by (by rewrite Himg).
  rewrite exec_reconcile_chat by (rewrite ?Hrec, ?Himg; done).
  rewrite migrate_trace. rewrite Hrec, Ha, Hn, Hstored, Hnosingle.
  unfold decide_mode, album_size_differs.
  assert ((length old =? length us)%nat = false) as Hne by (by apply Nat.eqb_neq).
  rewrite Hne. cbn [andb negb default].
  destruct (delete_all_requests env chatId old s tr) as (evs & Hdel & Hreq).
  change (id old) with old. rewrite Hdel. cbn [snd].
  fold e. unfold send_album. rewrite exec_bind.
  destruct new as [| first rest]; [done |].
  assert (exists tr1,
             exec env (sendAlbum e) s (tr ++ evs)
             = ((with_result (SentMessages (first :: rest))
                   (with_message_ids (first :: rest) (base_outcome true (Some e))), s), tr1)
             /\ map request_of tr1
                = map request_of (tr ++ evs)
                  ++ [Req (SendMediaGroup chatId media thread);
                      Req (PinChatMessage chatId first)]) as (tr1 & -> & Htr).
  { subst e media thread. unfold sendAlbum, sendMediaGroup, pinMessage, exec, bind,
      gateway, ret. simpl. rewrite Hsent. simpl. rewrite Himg.
    eexists. split; [reflexivity |].
    rewrite !map_app. simpl. by rewrite <- !app_assoc. }
  cbn [is_unregistered ok with_result with_message_ids base_outcome reason_is reason
       andb out_message_ids].
  rewrite exec_bind.
  assert (exec env (setMessageIds chatId (Some (first :: rest))) s tr1
          = ((tt, if bool_decide (old = first :: rest) then s
                  else mark_dirty (update_record chatId
                                     (set_message_ids (Some (first :: rest))) s)), tr1))
    as ->.
  { unfold setMessageIds, exec, bind, modify. simpl.
    rewrite !(ensure_present chatId s) by eauto. rewrite Hrec, Hnosingle.
    rewrite Hrec, Hstored. reflexivity. }
  rewrite exec_bind, exec_modify, exec_ret. cbn [fst snd default head].
  split; [rewrite Htr, map_app, Hreq; by rewrite <- app_assoc |].
  split; [reflexivity |].
  destruct (bool_decide (old = first :: rest)) eqn:E.
  - apply bool_decide_eq_true in E.
    assert (set_message_ids (Some (first :: rest)) rec = rec) as ->
      by (destruct rec; simpl in *; by rewrite Hstored, E).
    apply (updateStoredChatFields_synced chatId e s rec Hin eq_refl).
    apply (effective_caption_fits chatId rec).
  - apply (updateStoredChatFields_synced chatId e).
    + simpl. by rewrite lookup_insert_eq, Hrec.
    + reflexivity.
    + apply (effective_caption_fits chatId rec).
Qed.

(** ** The command grammars *)

Lemma strip_literal_ci_app l1 l2 t :
  strip_literal_ci (String.append l1 l2) t
  = match strip_literal_ci l1 t with
    | Some rest => strip_literal_ci l2 rest
    | None => None
    end.
Proof.
  revert t. induction l1 as [| a l1 IH]; intros t; simpl.
  - by destruct l2.
  - destruct t as [| b t]; [done |].
    destruct (Ascii.eqb (lower_char a) (lower_char b)); [apply IH | done].
Qed.

Lemma append_cons (x : ascii) (a b : string) :
  String.append (String x a) b = String x (String.append a b).
Proof. reflexivity. Qed.

Lemma append_assoc (a b c : string) :
  String.append (String.append a b) c = String.append a (String.append b c).
Proof.
  induction a as [| x a IH]; [done |]. rewrite !append_cons. by f_equal.
Qed.

Lemma append_empty (a : string) : String.append a EmptyString = a.
Proof. induction a as [| x a IH]; [done |]. rewrite append_cons. by f_equal. Qed.

Lemma all_continuation_app a b :
  all_continuation (String.append a b) = all_continuation a && all_continuation b.
Proof.
  induction a as [| x a IH]; [done |]. rewrite append_cons. simpl.
  by rewrite IH, andb_assoc.
Qed.

Lemma is_char_nonempty c : is_char c = true -> nonempty c = true.
Proof. by destruct c. Qed.

Lemma is_char_snoc c b :
  is_char c = true -> is_continuation b = true ->
  is_char (String.append c (String b EmptyString)) = true.
Proof.
  destruct c as [| x c]; [done |]. rewrite append_cons. simpl. intros H Hb.
  apply andb_true_iff in H as [-> H]. simpl.
  rewrite all_continuation_app, H. simpl. by rewrite Hb.
Qed.

(** Every character that [chars] gives after the first is well formed, and
    so is the first one when the string starts with a lead byte. *)
Lemma chars_from_are_chars cur t :
  is_char cur = true -> forallb is_char (chars_from cur t) = true.
Proof.
  revert cur. induction t as [| b r IH]; intros cur Hcur; simpl.
  - by rewrite Hcur.
  - destruct (is_continuation b) eqn:Eb.
    + apply IH. by apply is_char_snoc.
    + simpl. rewrite Hcur. simpl. apply IH. simpl. by rewrite Eb.
Qed.

Lemma chars_from_tail cur t : forallb is_char (tail (chars_from cur t)) = true.
Proof.
  revert cur. induction t as [| b r IH]; intros cur; simpl; [done |].
  destruct (is_continuation b) eqn:Eb; [apply IH |].
  simpl. apply chars_from_are_chars. simpl. by rewrite Eb.
Qed.

Lemma chars_tail t : forallb is_char (tail (chars t)) = true.
Proof. destruct t as [| b r]; [done |]. apply chars_from_tail. Qed.

Lemma chars_from_continuation cur r rest :
  all_continuation r = true ->
  chars_from cur (String.append r rest) = chars_from (String.append cur r) rest.
Proof.
  revert cur. induction r as [| b r IH]; intros cur H.
  - by rewrite append_empty.
  - rewrite append_cons. simpl in H |- *. apply andb_true_iff in H as [Hb H].
    rewrite Hb, (IH _ H), append_assoc. reflexivity.
Qed.

Lemma unchars_cons c cs : unchars (c :: cs) = String.append c (unchars cs).
Proof. reflexivity. Qed.

(** Well-formed characters are read back as they were put together. *)
Lemma chars_unchars cs : forallb is_char cs = true -> chars (unchars cs) = cs.
Proof.
  induction cs as [| c cs IH]; [done |]. intros H. simpl in H.
  apply andb_true_iff in H as [Hc Hcs]. specialize (IH Hcs).
  rewrite unchars_cons.
  destruct c as [| b r]; [done |]. simpl in Hc.
  apply andb_true_iff in Hc as [Hb Hr].
  rewrite append_cons. cbn [chars].
  rewrite (chars_from_continuation _ r _ Hr).
  change (String.append (String b EmptyString) r) with (String b r).
  destruct cs as [| c' cs']; [done |].
  simpl in Hcs. apply andb_true_iff in Hcs as [Hc' _].
  destruct c' as [| b' r']; [done |]. simpl in Hc'.
  apply andb_true_iff in Hc' as [Hb' _]. apply negb_true_iff in Hb'.
  rewrite unchars_cons, append_cons in IH |- *. cbn [chars] in IH.
  cbn [chars_from]. rewrite Hb'. by rewrite IH.
Qed.

Lemma unchars_nonempty cs :
  forallb is_char cs = true -> cs <> [] -> nonempty (unchars cs) = true.
Proof.
  destruct cs as [| c cs]; [done |]. intros H _. simpl in H.
  apply andb_true_iff in H as [Hc _]. rewrite unchars_cons.
  destruct c; [done |]. by rewrite append_cons.
Qed.

Lemma drop_ws_chars cs :
  forallb is_char cs = true -> forallb is_char (drop_ws cs) = true.
Proof.
  induction cs as [| c cs IH]; [done |]. simpl. intros H.
  destruct (is_ws c); [| exact H].
  apply andb_true_iff in H as [_ H]. by apply IH.
Qed.

Lemma drop_ws_not_all_ws cs : is_all_ws cs = false -> drop_ws cs <> [].
Proof.
  induction cs as [| c cs IH]; simpl; [done |].
  destruct (is_ws c); simpl; [exact IH | done].
Qed.

Lemma take_token_chars cs :
  forallb is_char cs = true ->
  forallb is_char (fst (take_token cs)) = true
  /\ forallb (fun c => negb (is_ws c)) (fst (take_token cs)) = true.
Proof.
  induction cs as [| c cs IH]; [done |]. simpl. intros H.
  apply andb_true_iff in H as [Hc H].
  destruct (is_ws c) eqn:E; [done |].
  destruct (IH H) as [H1 H2]. destruct (take_token cs) as [tok rest].
  simpl in *. by rewrite Hc, E, H1, H2.
Qed.

Lemma last_char_nonempty cs :
  forallb is_char cs = true -> cs <> [] -> nonempty (last_char cs) = true.
Proof.
  unfold last_char. induction cs as [| c cs IH]; [done |]. intros H _.
  simpl in H. apply andb_true_iff in H as [Hc H].
  destruct cs as [| c' cs']; [by apply is_char_nonempty |].
  apply IH; done.
Qed.

(** X13.  No text is a caption command and an image command at once; the group of a
    caption command is never empty; the token of an image command is never
    empty and holds no white space. *)
Theorem command_grammars_are_exclusive (text : string) :
  (match_caption text = None \/ match_image text = None)
  /\ (forall raw, match_caption text = Some raw -> nonempty raw = true)
  /\ (forall url, match_image text = Some url ->
        nonempty url = true /\ no_ws url = true).
Proof.
  unfold match_caption, match_image. split; [| split].
  - change "/graphenko_caption" with (String.append "/graphenko_" "caption").
    change "/graphenko_image" with (String.append "/graphenko_" "image").
    rewrite !strip_literal_ci_app.
    destruct (strip_literal_ci "/graphenko_" (trimStart text)) as [rest |]; [| by left].
    destruct rest as [| c rest]; [by left |].
    cbn [strip_literal_ci].
    destruct (Ascii.eqb (lower_char "c") (lower_char c)) eqn:Ec; [| by left].
    right. apply Ascii.eqb_eq in Ec.
    destruct (Ascii.eqb (lower_char "i") (lower_char c)) eqn:Ei; [| done].
    apply Ascii.eqb_eq in Ei. rewrite <- Ec in Ei. discriminate.
  - intros raw. destruct (strip_literal_ci _ _) as [rest |]; [| done].
    unfold capture_rest. pose proof (chars_tail (skip_mention rest)) as Hwf.
    destruct (chars (skip_mention rest)) as [| c r]; [done |]. simpl in Hwf.
    destruct (is_ws c); [| done].
    destruct (is_all_ws r) eqn:Ea.
    + destruct r as [| c' r']; [done |]. intros [= <-].
      by apply last_char_nonempty.
    + intros [= <-]. apply unchars_nonempty;
        [by apply drop_ws_chars | by apply drop_ws_not_all_ws].
  - intros url. destruct (strip_literal_ci _ _) as [rest |]; [| done].
    unfold capture_token. pose proof (chars_tail (skip_mention rest)) as Hwf.
    destruct (chars (skip_mention rest)) as [| c r]; [done |]. simpl in Hwf.
    destruct (is_ws c); [| done].
    destruct (take_token_chars (drop_ws r) (drop_ws_chars r Hwf)) as [Hc Hn].
    destruct (take_token (drop_ws r)) as [tok rest']. simpl in Hc, Hn.
    destruct tok as [| t0 tok]; [done |].
    destruct (is_all_ws rest'); [| done]. intros [= <-]. split.
    + by apply (unchars_nonempty (t0 :: tok)).
    + unfold no_ws.
      change (String.append t0 (unchars tok)) with (unchars (t0 :: tok)).
      by rewrite chars_unchars.
Qed.

(** ** Frames of the command processor *)

Lemma exec_caption_command_frame (env : environment) chatId msg raw s tr :
  let s' := snd (fst (exec env (caption_command chatId msg raw) s tr)) in
  only_chat_changed chatId s s'
  /\ forall k, is_Some (messageMap s !! k) -> is_Some (messageMap s' !! k).
Proof.
  set (P := fun s' : state =>
              only_chat_changed chatId s s'
              /\ forall k, is_Some (messageMap s !! k) -> is_Some (messageMap s' !! k)).
  assert (P (ensure_record chatId s)) as P0.
  { split; [intros k Hk; by apply lookup_ensure_record_ne |].
    intros k Hk. unfold ensure_record. destruct (messageMap s !! chatId) eqn:E; [done |].
    simpl. destruct (decide (k = chatId)) as [-> | Hne];
      [rewrite lookup_insert_eq; eauto | by rewrite lookup_insert_ne]. }
  assert (forall f, P (mark_dirty (update_record chatId f (ensure_record chatId s)))) as P1.
  { intros f. destruct P0 as [F0 K0]. split.
    - intros k Hk. simpl. rewrite lookup_insert_ne by done. by apply F0.
    - intros k Hk. simpl. destruct (decide (k = chatId)) as [-> | Hne];
        [rewrite lookup_insert_eq; eauto | rewrite lookup_insert_ne by done; by apply K0]. }
  cbv zeta. fold (P (snd (fst (exec env (caption_command chatId msg raw) s tr)))).
  unfold caption_command. rewrite exec_bind, exec_modify.
  destruct (String.eqb (toLowerCase (trim raw)) "-default").
  - rewrite exec_bind, exec_get_state, exec_bind.
    destruct (bool_decide _).
    + rewrite exec_modify, exec_bind, exec_sendTextMessage.
      rewrite exec_delete_command_message_state. apply P1.
    + rewrite exec_ret, exec_bind, exec_sendTextMessage.
      rewrite exec_delete_command_message_state. apply P0.
  - destruct (negb (nonempty (trim raw))).
    + exact P0.
    + rewrite exec_bind, exec_modify, exec_bind, exec_sendTextMessage.
      rewrite exec_delete_command_message_state. apply P1.
Qed.

Lemma exec_image_command_frame (env : environment) chatId msg url s tr :
  let s' := snd (fst (exec env (image_command chatId msg url) s tr)) in
  only_chat_changed chatId s s'
  /\ forall k, is_Some (messageMap s !! k) -> is_Some (messageMap s' !! k).
Proof.
  set (P := fun s' : state =>
              only_chat_changed chatId s s'
              /\ forall k, is_Some (messageMap s !! k) -> is_Some (messageMap s' !! k)).
  assert (P s) as Ps by (split; [by intros k Hk | done]).
  assert (forall s0 f, P s0 -> P (mark_dirty (update_record chatId f s0))) as P1.
  { intros s0 f [F0 K0]. split.
    - intros k Hk. simpl. rewrite lookup_insert_ne by done. by apply F0.
    - intros k Hk. simpl. destruct (decide (k = chatId)) as [-> | Hne];
        [rewrite lookup_insert_eq; eauto | rewrite lookup_insert_ne by done; by apply K0]. }
  assert (P (ensure_record chatId s)) as P0.
  { split; [intros k Hk; by apply lookup_ensure_record_ne |].
    intros k Hk. unfold ensure_record. destruct (messageMap s !! chatId) eqn:E; [done |].
    simpl. destruct (decide (k = chatId)) as [-> | Hne];
      [rewrite lookup_insert_eq; eauto | by rewrite lookup_insert_ne]. }
  cbv zeta. fold (P (snd (fst (exec env (image_command chatId msg url) s tr)))).
  unfold image_command.
  destruct (negb (isValidOutageImageUrl url)); [exact Ps |].
  rewrite exec_bind. pose proof (exec_verifyRemotePng_state env url s tr) as Hs.
  destruct (exec env (verifyRemotePng url) s tr) as [[ver s1] tr1]. simpl in Hs. subst s1.
  destruct (negb ver); [exact Ps |].
  rewrite exec_bind, exec_modify, exec_bind, exec_modify, exec_bind, exec_get_state.
  set (stored := mark_dirty (update_record chatId _ (ensure_record chatId s))).
  assert (P stored) as Pst by (by apply P1).
  destruct (welcome_message_id (record_of stored chatId)) as [wid |].
  - destruct (negb (wid =? 0)).
    + rewrite exec_bind, exec_bind.
      pose proof (exec_deleteMessage_state env chatId wid stored tr1) as Hd.
      destruct (exec env (deleteMessage chatId wid) stored tr1) as [[del s2] tr2].
      simpl in Hd. subst s2. destruct del.
      * rewrite exec_modify, exec_bind, exec_sendTextMessage.
        rewrite exec_delete_command_message_state. by apply P1.
      * rewrite exec_ret, exec_bind, exec_sendTextMessage.
        by rewrite exec_delete_command_message_state.
    + rewrite exec_bind, exec_ret, exec_bind, exec_sendTextMessage.
      by rewrite exec_delete_command_message_state.
  - rewrite exec_bind, exec_ret, exec_bind, exec_sendTextMessage.
    by rewrite exec_delete_command_message_state.
Qed.

(** X14.  A command reads and writes the record of the chat it was sent in, and
    nothing else: processing an update leaves every record of another chat as
    it was and removes no record; an update without a chat, without text, or
    whose text matches neither grammar asks nothing of the gateway and
    changes nothing. *)
Theorem command_touches_its_chat_only (env : environment) (u : Update)
    (handled : list string) (s : state) (tr : list event) :
  let out := exec env (command_step u handled) s tr in
  let msg := match message u with Some m => Some m | None => channel_post u end in
  (forall k, is_Some (messageMap s !! k) -> is_Some (messageMap (snd (fst out)) !! k))
  /\ (forall m ch k, msg = Some m -> m_chat m = Some ch -> k <> String_of_Z (c_id ch) ->
        messageMap (snd (fst out)) !! k = messageMap s !! k)
  /\ (forall m text, msg = Some m ->
        text = (if truthy_str (m_text m) then default "" (m_text m)
                else if truthy_str (m_caption m) then default "" (m_caption m) else "") ->
        match_caption text = None -> match_image text = None ->
        out = ((handled, s), tr))
  /\ (forall m, msg = Some m -> m_chat m = None -> out = ((handled, s), tr))
  /\ (msg = None -> out = ((handled, s), tr)).
Proof.
  intros out msg. subst out. unfold command_step. fold msg.
  destruct msg as [m |]; [| by repeat split].
  destruct (m_chat m) as [ch |] eqn:Ech.
  2:{ split; [done |]. split; [intros m0 ch0 k [= <-] Hc; congruence |].
      split; [by intros ? ? [= <-] ? |]. split; [by intros ? [= <-] | done]. }
  assert (forall (x : list string * state * list event) (m0 : Message),
            Some m = Some m0 -> m_chat m0 = None -> x = ((handled, s), tr)) as Hrest
    by (intros x m0 [= <-] Hc; congruence).
  set (text := if truthy_str (m_text m) then _ else _).
  destruct (negb (nonempty text)) eqn:Et.
  { split; [done |]. split; [done |]. split; [done |].
    split; [apply Hrest | done]. }
  destruct (match_caption text) as [raw |] eqn:Ecap.
  - rewrite exec_bind.
    destruct (exec_caption_command_frame env (String_of_Z (c_id ch)) m raw s tr) as [F K].
    destruct (exec env (caption_command _ m raw) s tr) as [[[] s1] tr1].
    rewrite exec_ret. cbn [fst snd] in F, K |- *.
    split; [exact K |]. split; [intros m0 ch0 k [= <-] Hc Hk; rewrite Ech in Hc;
                             injection Hc as <-; by apply F |].
    split; [intros ? ? [= <-] ->; fold text; by rewrite Ecap |].
    split; [apply Hrest | done].
  - destruct (match_image text) as [url |] eqn:Eimg.
    + rewrite exec_bind.
      destruct (exec_image_command_frame env (String_of_Z (c_id ch)) m url s tr) as [F K].
      destruct (exec env (image_command _ m url) s tr) as [[[] s1] tr1].
      rewrite exec_ret. cbn [fst snd] in F, K |- *.
      split; [exact K |]. split; [intros m0 ch0 k [= <-] Hc Hk; rewrite Ech in Hc;
                             injection Hc as <-; by apply F |].
      split; [intros ? ? [= <-] ->; fold text; by rewrite Eimg |].
      split; [apply Hrest | done].
    + split; [done |]. split; [done |]. split; [done |].
      split; [apply Hrest | done].
Qed.

(** ** Verification of the image *)

(** X15.  For a URL that ends with ".png", as every URL that passed
    [isValidOutageImageUrl] does, the declared content type plays no part:
    [verifyRemotePng] is ok exactly when the HEAD response is ok and has
    headers, or else when the GET response is ok and has headers; a fetch
    that throws is a failure, and a GET is issued only after an unusable
    HEAD. *)
Theorem verification_ignores_content_type (env : environment) (url : string)
    (s : state) (tr : list event)
    (Hvalid : isValidOutageImageUrl url = true) :
  let head := env _ tr (Fetch "HEAD" url) in
  let tr1 := tr ++ [Ev (Fetch "HEAD" url) head] in
  let get := env _ tr1 (Fetch "GET" url) in
  exec env (verifyRemotePng url) s tr =
  match head with
  | None => ((false, s), tr1)
  | Some res0 =>
      if res_ok res0 && res_headers res0 then ((true, s), tr1)
      else ((match get with
             | Some res => res_ok res && res_headers res
             | None => false
             end, s),
            tr1 ++ [Ev (Fetch "GET" url) get])
  end.
Proof.
  intros head tr1 get.
  assert (endsWith (toLowerCase url) ".png" = true) as Hpng.
  { unfold isValidOutageImageUrl in Hvalid.
    destruct (startsWith url OUTAGE_IMAGES_BASE); [| done].
    by destruct (endsWith (toLowerCase url) ".png"). }
  subst head tr1 get. unfold verifyRemotePng, exec, bind, gateway, ret. simpl.
  destruct (env _ tr (Fetch "HEAD" url)) as [res0 |]; simpl; [| reflexivity].
  destruct res0 as [ok0 hd0 ct0]; cbn [res_ok res_headers].
  destruct ok0, hd0; cbn [negb orb andb]; simpl;
    rewrite ?Hpng, ?andb_false_r; try reflexivity;
    (destruct (env _ _ (Fetch "GET" url)) as [[ok hd ct] |]; [| reflexivity];
     unfold res_ok, res_headers; rewrite ?andb_false_r; by destruct ok, hd).
Qed.

(** X16.  An image command whose URL passes the validation but not the remote
    verification is answered with the generic error text after the
    verification requests, and leaves the map and the dirty flag as they
    were. *)
Theorem unverified_image_changes_nothing (env : environment) (chatId : string)
    (msg : Message) (url : string) (s : state) (tr : list event)
    (Hvalid : isValidOutageImageUrl url = true)
    (Hver : fst (fst (exec env (verifyRemotePng url) s tr)) = false) :
  let tr1 := snd (exec env (verifyRemotePng url) s tr) in
  exec env (image_command chatId msg url) s tr
  = ((tt, s), tr1 ++ [Ev (SendMessage chatId REPLY_IMAGE_UNVERIFIED)
                         (env _ tr1 (SendMessage chatId REPLY_IMAGE_UNVERIFIED))]).
Proof.
  intros tr1. subst tr1. unfold image_command. rewrite Hvalid. cbn [negb].
  rewrite exec_bind. pose proof (exec_verifyRemotePng_state env url s tr) as Hs.
  destruct (exec env (verifyRemotePng url) s tr) as [[ver s1] tr1].
  simpl in Hs, Hver. subst s1 ver. reflexivity.
Qed.

(** ** The welcome message *)

(** X12.  [sendWelcomeMessage] asks for one text message and returns the answer.
    When the gateway accepts it, the id is stored as the [welcome_message_id]
    of the chat (in a record created for it if there was none) and nothing
    else of the record changes, so the chat is as dormant as it was; the map
    is marked dirty unless that very id was stored already.  When the gateway
    refuses or the request throws, the state is what it was.  The records of
    the other chats are never touched. *)
Theorem welcome_stores_its_id_only (env : environment) (chatId : string)
    (s : state) (tr : list event) :
  let ans := env _ tr (SendMessage chatId WELCOME_TEXT) in
  let out := exec env (sendWelcomeMessage chatId) s tr in
  let s' := snd (fst out) in
  fst (fst out) = ans
  /\ snd out = tr ++ [Ev (SendMessage chatId WELCOME_TEXT) ans]
  /\ only_chat_changed chatId s s'
  /\ match ans with
     | Ok mid =>
         messageMap s' !! chatId
         = Some (set_welcome_message_id (Some mid) (record_of s chatId))
         /\ mapDirty s'
            = (if bool_decide (welcome_message_id (record_of s chatId) = Some mid)
               then mapDirty s else true)
     | _ => s' = s
     end.
Proof.
  intros ans out s'. subst out s'. unfold sendWelcomeMessage.
  rewrite exec_bind, exec_sendTextMessage. fold ans.
  destruct ans as [mid | code d |]; cbn [fst snd];
    [| rewrite exec_ret; cbn [fst snd]; repeat split; done ..].
  rewrite exec_bind, exec_modify, exec_bind, exec_get_state, exec_bind.
  rewrite record_of_ensure.
  destruct (bool_decide (welcome_message_id (record_of s chatId) = Some mid)) eqn:E.
  - rewrite !exec_ret. cbn [fst snd]. split; [done |]. split; [done |].
    split; [apply kept_ensure |]. split; [| apply mapDirty_ensure].
    apply bool_decide_eq_true in E.
    pose proof (record_of_ensure chatId s) as Hr.
    destruct (present_ensure chatId s) as [r Hs]. unfold record_of in Hr at 1.
    rewrite Hs in Hr |- *. simpl in Hr. subst r. f_equal.
    destruct (record_of s chatId). simpl in E. by subst.
  - rewrite exec_modify, exec_ret. cbn [fst snd]. split; [done |]. split; [done |].
    split; [| split; [| done]].
    + intros k Hk. simpl. rewrite lookup_insert_ne by done.
      by apply kept_ensure.
    + simpl. by rewrite lookup_insert_eq, record_of_ensure.
Qed.

(** ** When a chat leaves the map *)

Lemma removeChat_absent chatId s :
  messageMap (snd (removeChat chatId s)) !! chatId = None.
Proof.
  unfold removeChat. destruct (messageMap s !! chatId) eqn:E; simpl; [| done].
  apply lookup_delete_eq.
Qed.

Lemma unregistered_sendPhoto (env : environment) e s tr :
  is_unregistered (fst (fst (exec env (sendPhoto e) s tr))) = true ->
  messageMap (snd (fst (exec env (sendPhoto e) s tr))) !! chat_id e = None.
Proof.
  unfold sendPhoto, pinMessage. run_step env;
    try discriminate; intros _; apply removeChat_absent.
Qed.

Lemma unregistered_editPhoto (env : environment) e mid s tr :
  is_unregistered (fst (fst (exec env (editPhoto e mid) s tr))) = true ->
  messageMap (snd (fst (exec env (editPhoto e mid) s tr))) !! chat_id e = None.
Proof.
  unfold editPhoto, sendPhoto, deleteMessage, pinMessage. run_step env;
    try discriminate; intros _; apply removeChat_absent.
Qed.

Lemma unregistered_sendAlbum (env : environment) e s tr :
  is_unregistered (fst (fst (exec env (sendAlbum e) s tr))) = true ->
  messageMap (snd (fst (exec env (sendAlbum e) s tr))) !! chat_id e = None.
Proof.
  unfold sendAlbum, sendMediaGroup, pinMessage. run_step env;
    try (destruct a; simpl); try discriminate; intros _; apply removeChat_absent.
Qed.

Lemma editAlbum_never_unregisters (env : environment) e cur s tr :
  is_unregistered (fst (fst (exec env (editAlbum e cur) s tr))) = false.
Proof.
  unfold editAlbum. destruct cur as [[mid | existing] |]; try reflexivity.
  destruct (negb (length (images_of (e_image_url e)) =? length existing)%nat);
    [reflexivity |].
  rewrite exec_bind.
  destruct (exec env (editAlbum_loop _ _ _ _ _ _) s tr) as [[items s1] tr1].
  destruct existing; reflexivity.
Qed.

Lemma removal_branch (env : environment) chatId e (op : M outcome)
    (store : outcome -> M unit) s tr :
  (forall tr0, is_unregistered (fst (fst (exec env op s tr0))) = true ->
     messageMap (snd (fst (exec env op s tr0))) !! chatId = None) ->
  removal_agrees chatId
    (exec env
       (r <- op ;;
        if is_unregistered r then ret r
        else store r ;; modify (updateStoredChatFields chatId e) ;; ret r) s tr).
Proof.
  intros Hop. unfold removal_agrees. rewrite exec_bind. pose proof (Hop tr) as H1.
  destruct (exec env op s tr) as [[r s1] tr1]. simpl in H1.
  destruct (is_unregistered r) eqn:E.
  - rewrite exec_ret. simpl. rewrite E. auto.
  - rewrite exec_bind. destruct (exec env (store r) s1 tr1) as [[[] s2] tr2].
    rewrite exec_bind, exec_modify, exec_ret. simpl. rewrite E.
    apply updateStoredChatFields_present.
Qed.

Lemma removal_reconcile_chat (env : environment) chatId s tr :
  is_Some (messageMap s !! chatId) ->
  removal_agrees chatId (exec env (reconcile_chat chatId) s tr).
Proof.
  intros Hin.
  destruct (nonempty chatId) eqn:Hid.
  2:{ unfold reconcile_chat. rewrite exec_bind, exec_get_state.
      cbn [chat_id effective_of]. rewrite Hid. exact Hin. }
  destruct (truthy_image (image_url (record_of s chatId))) eqn:Himg.
  2:{ unfold reconcile_chat. rewrite exec_bind, exec_get_state.
      cbn [chat_id effective_of e_image_url]. rewrite Hid, Himg. exact Hin. }
  rewrite exec_reconcile_chat by done.
  set (e := effective_of chatId (record_of s chatId)).
  destruct (decide_mode _ _ _ _) as [[] cur];
    destruct (isAlbumConfig (image_url (record_of s chatId))).
  - apply removal_branch. intros tr0. apply (unregistered_sendAlbum env e).
  - apply removal_branch. intros tr0. apply (unregistered_sendPhoto env e).
  - unfold edit_album, removal_agrees. rewrite exec_bind.
    pose proof (editAlbum_never_unregisters env e cur s (snd (exec env
      (migrate chatId true (message_id (record_of s chatId))
         (message_ids (record_of s chatId))
         (image_count (image_url (record_of s chatId)))) s tr))) as Hn.
    destruct (exec env (editAlbum e cur) s _) as [[r s1] tr1]. simpl in Hn.
    rewrite exec_bind, exec_modify, exec_ret. simpl. rewrite Hn.
    apply updateStoredChatFields_present.
  - apply removal_branch. intros tr0. apply (unregistered_editPhoto env e).
Qed.

(** X3.  A chat of the map leaves it during its iteration of the loop exactly when
    the outcome of the iteration is ok with the reason "unregistered": a chat
    reported as unregistered is never written back by the iteration, and no
    other outcome loses the record. *)
Theorem chat_removed_iff_unregistered (env : environment) (chatId : string)
    (s : state) (tr : list event)
    (Hin : is_Some (messageMap s !! chatId)) :
  let out := exec env (reconcile_chat chatId) s tr in
  messageMap (snd (fst out)) !! chatId = None
  <-> is_unregistered (fst (fst out)) = true.
Proof.
  intros out. pose proof (removal_reconcile_chat env chatId s tr Hin) as H.
  fold out in H. unfold removal_agrees in H.
  destruct (is_unregistered (fst (fst out))).
  - done.
  - split; [| done]. intros Hn. rewrite Hn in H. by destruct H.
Qed.

(** ** Stored ids change only with an answer *)

Lemma stable_branch (env : environment) chatId e (op : M outcome)
    (store : outcome -> M unit) s tr :
  (forall tr0, is_unregistered (fst (fst (exec env op s tr0))) = false ->
     snd (fst (exec env op s tr0)) = s) ->
  (forall r s0 tr0, out_message_id r = None -> out_message_ids r = None ->
     snd (fst (exec env (store r) s0 tr0)) = s0) ->
  let out := exec env
       (r <- op ;;
        if is_unregistered r then ret r
        else store r ;; modify (updateStoredChatFields chatId e) ;; ret r) s tr in
  is_unregistered (fst (fst out)) = false ->
  out_message_id (fst (fst out)) = None ->
  out_message_ids (fst (fst out)) = None ->
  snd (fst out) = updateStoredChatFields chatId e s.
Proof.
  intros Hop Hstore. simpl. rewrite exec_bind. pose proof (Hop tr) as H1.
  destruct (exec env op s tr) as [[r s1] tr1]. simpl in H1.
  destruct (is_unregistered r) eqn:E.
  - rewrite exec_ret. simpl. congruence.
  - rewrite exec_bind. pose proof (Hstore r s1 tr1) as H2.
    destruct (exec env (store r) s1 tr1) as [[[] s2] tr2]. simpl in H2.
    rewrite exec_bind, exec_modify, exec_ret. simpl. intros _ Hi His.
    rewrite H2, H1 by done. reflexivity.
Qed.

Lemma op_state_sendPhoto (env : environment) e s tr :
  is_unregistered (fst (fst (exec env (sendPhoto e) s tr))) = false ->
  snd (fst (exec env (sendPhoto e) s tr)) = s.
Proof.
  destruct (exec_sendPhoto env e s tr) as (r & s' & tr' & -> & _ & _ & H). exact H.
Qed.

Lemma op_state_editPhoto (env : environment) e mid s tr :
  is_unregistered (fst (fst (exec env (editPhoto e mid) s tr))) = false ->
  snd (fst (exec env (editPhoto e mid) s tr)) = s.
Proof.
  destruct (exec_editPhoto env e mid s tr) as (r & s' & tr' & -> & _ & H). exact H.
Qed.

Lemma op_state_sendAlbum (env : environment) e s tr :
  is_unregistered (fst (fst (exec env (sendAlbum e) s tr))) = false ->
  snd (fst (exec env (sendAlbum e) s tr)) = s.
Proof.
  destruct (exec_sendAlbum env e s tr) as (r & s' & tr' & -> & _ & _ & H). exact H.
Qed.

(** X4.  The stored ids of a chat change only when the gateway answered with new
    ones: an iteration whose outcome is not "unregistered" and carries neither
    a [message_id] nor [message_ids] leaves both stored properties as they
    were, whatever failed along the way. *)
Theorem ids_change_only_with_an_answer (env : environment) (chatId : string)
    (s : state) (tr : list event) :
  let out := exec env (reconcile_chat chatId) s tr in
  is_unregistered (fst (fst out)) = false ->
  out_message_id (fst (fst out)) = None ->
  out_message_ids (fst (fst out)) = None ->
  message_id (record_of (snd (fst out)) chatId) = message_id (record_of s chatId)
  /\ message_ids (record_of (snd (fst out)) chatId) = message_ids (record_of s chatId).
Proof.
  intros out. subst out.
  destruct (nonempty chatId) eqn:Hid.
  2:{ unfold reconcile_chat. rewrite exec_bind, exec_get_state.
      cbn [chat_id effective_of]. rewrite Hid. done. }
  destruct (truthy_image (image_url (record_of s chatId))) eqn:Himg.
  2:{ unfold reconcile_chat. rewrite exec_bind, exec_get_state.
      cbn [chat_id effective_of e_image_url]. rewrite Hid, Himg. done. }
  rewrite exec_reconcile_chat by done.
  set (e := effective_of chatId (record_of s chatId)).
  set (tr1 := snd _).
  assert (forall out : outcome * state * list event,
            snd (fst out) = updateStoredChatFields chatId e s ->
            message_id (record_of (snd (fst out)) chatId) = message_id (record_of s chatId)
            /\ message_ids (record_of (snd (fst out)) chatId)
               = message_ids (record_of s chatId)) as Hfin.
  { intros out ->. apply updateStoredChatFields_ids. }
  destruct (decide_mode _ _ _ _) as [[] cur];
    destruct (isAlbumConfig (image_url (record_of s chatId))).
  - intros H1 H2 H3. apply Hfin. revert H1 H2 H3. unfold send_album.
    apply (stable_branch env chatId e (sendAlbum e)
             (fun r => if ok r then setMessageIds chatId (out_message_ids r) else ret tt)).
    + intros tr0. apply op_state_sendAlbum.
    + intros r s0 tr0 _ ->. by destruct (ok r).
  - intros H1 H2 H3. apply Hfin. revert H1 H2 H3. unfold send_single.
    apply (stable_branch env chatId e (sendPhoto e)
             (fun r => if ok r then setMessageId chatId (out_message_id r) else ret tt)).
    + intros tr0. apply op_state_sendPhoto.
    + intros r s0 tr0 -> _. by destruct (ok r).
  - intros _ _ _. apply Hfin. unfold edit_album. rewrite exec_bind.
    pose proof (exec_editAlbum_state env e cur s tr1) as Hs.
    destruct (exec env (editAlbum e cur) s tr1) as [[r s1] tr2]. simpl in Hs. subst s1.
    by rewrite exec_bind, exec_modify, exec_ret.
  - intros H1 H2 H3. apply Hfin. revert H1 H2 H3. unfold edit_single.
    apply (stable_branch env chatId e (editPhoto e (single_id cur))
             (fun r => if ok r && replaced r
                       then setMessageId chatId (out_message_id r) else ret tt)).
    + intros tr0. apply op_state_editPhoto.
    + intros r s0 tr0 -> _. by destruct (ok r && replaced r).
Qed.

(** ** From the updates to the loop *)

Lemma dormant_after_registration updates s k :
  truthy_image (image_url (record_of s k)) = false ->
  truthy_image (image_url (record_of (snd (registerFromUpdates updates s)) k)) = false.
Proof.
  intros H. unfold record_of at 1.
  destruct (messageMap (snd (registerFromUpdates updates s)) !! k) as [r |] eqn:E;
    [| done].
  destruct (registered_records updates s k r E) as [Hr | ->]; [| done].
  unfold record_of in H. by rewrite Hr in H.
Qed.

Lemma command_step_other_chat (env : environment) u handled s tr k :
  command_chat u <> Some k ->
  messageMap (snd (fst (exec env (command_step u handled) s tr))) !! k
  = messageMap s !! k.
Proof.
  unfold command_chat, command_step.
  destruct (match message u with Some m => Some m | None => channel_post u end)
    as [m |]; [| done].
  destruct (m_chat m) as [ch |]; [| done]. intros Hk.
  assert (k <> String_of_Z (c_id ch)) as Hne by congruence.
  destruct (negb (nonempty _)); [done |].
  destruct (match_caption _) as [raw |].
  - rewrite exec_bind.
    destruct (exec_caption_command_frame env (String_of_Z (c_id ch)) m raw s tr) as [F _].
    destruct (exec env (caption_command _ m raw) s tr) as [[[] s1] tr1].
    rewrite exec_ret. by apply F.
  - destruct (match_image _) as [url |]; [| done].
    rewrite exec_bind.
    destruct (exec_image_command_frame env (String_of_Z (c_id ch)) m url s tr) as [F _].
    destruct (exec env (image_command _ m url) s tr) as [[[] s1] tr1].
    rewrite exec_ret. by apply F.
Qed.

Lemma commands_other_chat (env : environment) updates handled s tr k :
  Forall (fun u => command_chat u <> Some k) updates ->
  messageMap (snd (fst (exec env (processCommandUpdates_from updates handled) s tr))) !! k
  = messageMap s !! k.
Proof.
  revert handled s tr. induction updates as [| u rest IH]; intros handled s tr H; [done |].
  apply Forall_cons in H as [Hu Hrest]. cbn [processCommandUpdates_from].
  rewrite exec_bind.
  pose proof (command_step_other_chat env u handled s tr k Hu) as Hs.
  destruct (exec env (command_step u handled) s tr) as [[handled1 s1] tr1].
  simpl in Hs. rewrite (IH handled1 s1 tr1 Hrest). exact Hs.
Qed.

Lemma welcome_keeps_image_url (env : environment) chatId s tr k :
  image_url (record_of (snd (fst (exec env (sendWelcomeMessage chatId) s tr))) k)
  = image_url (record_of s k).
Proof.
  unfold sendWelcomeMessage. rewrite exec_bind, exec_sendTextMessage.
  destruct (env _ tr (SendMessage chatId WELCOME_TEXT)) as [mid | code d |];
    [| by rewrite exec_ret ..].
  rewrite exec_bind, exec_modify, exec_bind, exec_get_state, exec_bind.
  assert (image_url (record_of (ensure_record chatId s) k) = image_url (record_of s k))
    as He.
  { destruct (decide (k = chatId)) as [-> | Hne]; [by rewrite record_of_ensure |].
    unfold record_of. by rewrite lookup_ensure_record_ne. }
  destruct (bool_decide _).
  - by rewrite !exec_ret.
  - rewrite exec_modify, exec_ret. cbn [fst snd]. rewrite record_of_mark_dirty.
    destruct (decide (k = chatId)) as [-> | Hne].
    + rewrite record_of_update. simpl. by rewrite record_of_ensure.
    + rewrite <- He. unfold record_of. by rewrite lookup_update_record_ne.
Qed.

Lemma welcome_all_keeps_image_url (env : environment) newly s tr k :
  image_url (record_of (snd (fst (exec env (welcome_all newly) s tr))) k)
  = image_url (record_of s k).
Proof.
  revert s tr. induction newly as [| chatId rest IH]; intros s tr; [done |].
  cbn [welcome_all]. rewrite exec_bind.
  pose proof (welcome_keeps_image_url env chatId s tr k) as Hw.
  destruct (exec env (sendWelcomeMessage chatId) s tr) as [[r s1] tr1].
  simpl in Hw. by rewrite IH.
Qed.

(** X9.  Only an image command sent in the chat itself activates a chat.  If
    the record of a chat holds no image (or the chat has no record) and no
    update of the batch carries a message of that chat, then after
    registration, the commands of the batch and the welcome messages the
    record of the chat (if any) still holds no image, so that its iteration
    of the reconciliation loop asks nothing of the gateway and changes
    nothing, whether the batch registered, welcomed or removed the chat. *)
Theorem chat_without_command_stays_dormant (env : environment)
    (updates : list Update) (s : state) (tr : list event) (k : string)
    (Himg : truthy_image (image_url (record_of s k)) = false)
    (Hnone : Forall (fun u => command_chat u <> Some k) updates) :
  let s1 := snd (fst (exec env (before_loop updates) s tr)) in
  truthy_image (image_url (record_of s1 k)) = false
  /\ forall tr1,
       snd (fst (exec env (reconcile_chat k) s1 tr1)) = s1
       /\ snd (exec env (reconcile_chat k) s1 tr1) = tr1.
Proof.
  intros s1.
  assert (truthy_image (image_url (record_of s1 k)) = false) as H1.
  { subst s1. unfold before_loop. rewrite exec_bind.
    pose proof (dormant_after_registration updates s k Himg) as Hr.
    change (exec env (lift (registerFromUpdates updates)) s tr)
      with (registerFromUpdates updates s, tr).
    destruct (registerFromUpdates updates s) as [newly s0]. cbn [fst snd] in Hr |- *.
    rewrite exec_bind. unfold processCommandUpdates.
    pose proof (commands_other_chat env updates [] s0 tr k Hnone) as Hc.
    destruct (exec env (processCommandUpdates_from updates []) s0 tr)
      as [[handled s2] tr2].
    cbn [fst snd] in Hc |- *. rewrite welcome_all_keeps_image_url.
    unfold record_of in Hr |- *. by rewrite Hc. }
  split; [exact H1 |]. intros tr1.
  destruct (skipped_chat_untouched env k s1 tr1 H1) as (Hs & Ht & _). auto.
Qed.

End Engine.

(** ** The persisted map: entries *)

Lemma copy_field_keeps src entry f :
  copy_field src entry f =
  match get_prop src (fst f) with
  | Some v => if keeps (snd f) v then entry ++ [(fst f, v)] else entry
  | None => entry
  end.
Proof. unfold copy_field, keeps. destruct (get_prop src f.1), (snd f); reflexivity. Qed.

Lemma fold_copy_app src fs acc :
  fold_left (copy_field src) fs acc = acc ++ fold_left (copy_field src) fs [].
Proof.
  revert acc. induction fs as [| f fs IH]; intros acc; simpl.
  - by rewrite app_nil_r.
  - rewrite (IH (copy_field src acc f)), (IH (copy_field src [] f)).
    rewrite !copy_field_keeps.
    destruct (get_prop src f.1) as [v |]; [| done].
    destruct (keeps f.2 v); [| done]. by rewrite <- app_assoc.
Qed.

Lemma assoc_app k l1 l2 :
  assoc k (l1 ++ l2) = match assoc k l1 with Some v => Some v | None => assoc k l2 end.
Proof.
  induction l1 as [| [k' v] l1 IH]; simpl; [done |].
  by destruct (String.eqb k k').
Qed.

(** The properties of a built entry: a listed name holds the value of the
    source if it passed its test, and nothing else is there. *)
Lemma assoc_fold_copy_notin src fs k :
  k ∉ fs.*1 -> assoc k (fold_left (copy_field src) fs []) = None.
Proof.
  induction fs as [| [k' kp] fs IH]; intros Hk; simpl; [done |].
  rewrite fold_copy_app, assoc_app.
  rewrite fmap_cons, not_elem_of_cons in Hk. destruct Hk as [Hne Hk]. simpl in Hne.
  rewrite IH by done. rewrite copy_field_keeps. simpl.
  destruct (get_prop src k') as [v |]; [| done].
  destruct (keeps kp v); [| done]. simpl.
  by apply String.eqb_neq in Hne as ->.
Qed.

Lemma assoc_fold_copy_in src fs k kp :
  NoDup fs.*1 -> (k, kp) ∈ fs ->
  assoc k (fold_left (copy_field src) fs []) =
  match get_prop src k with
  | Some v => if keeps kp v then Some v else None
  | None => None
  end.
Proof.
  induction fs as [| [k' kp'] fs IH]; intros Hnd Hin; [by apply elem_of_nil in Hin |].
  simpl in Hnd. apply NoDup_cons in Hnd as [Hk' Hnd].
  simpl. rewrite fold_copy_app, assoc_app, copy_field_keeps. simpl.
  apply elem_of_cons in Hin as [[= <- <-] | Hin].
  - rewrite (assoc_fold_copy_notin src fs k Hk').
    destruct (get_prop src k) as [v |]; [| done].
    destruct (keeps kp v); [| done]. simpl. by rewrite String.eqb_refl.
  - assert (k <> k') as Hne.
    { intros ->. apply Hk'. apply list_elem_of_fmap. by exists (k', kp). }
    rewrite (IH Hnd Hin).
    destruct (get_prop src k') as [v' |]; [| done].
    destruct (keeps kp' v'); [| done]. simpl.
    by apply String.eqb_neq in Hne as ->.
Qed.

Lemma fold_copy_again src fs gs :
  NoDup fs.*1 -> gs ⊆ fs ->
  fold_left (copy_field (VObj (fold_left (copy_field src) fs []))) gs []
  = fold_left (copy_field src) gs [].
Proof.
  intros Hnd. induction gs as [| [k kp] gs IH]; intros Hsub; [done |].
  simpl. rewrite (fold_copy_app _ gs (copy_field _ [] _)).
  rewrite (fold_copy_app src gs (copy_field _ [] _)).
  rewrite IH by set_solver. f_equal.
  rewrite !copy_field_keeps. cbn [fst snd get_prop].
  rewrite (assoc_fold_copy_in src fs k kp Hnd) by set_solver.
  destruct (get_prop src k) as [v |]; [| done].
  destruct (keeps kp v) eqn:E; [by rewrite E | done].
Qed.

Lemma FIELDS_NoDup : NoDup FIELDS.*1.
Proof. apply (bool_decide_unpack _). by vm_compute. Qed.

(** Building an entry from a built entry changes nothing. *)
Lemma build_entry_idempotent src : build_entry (build_entry src) = build_entry src.
Proof.
  unfold build_entry. f_equal. apply fold_copy_again; [apply FIELDS_NoDup | done].
Qed.

Lemma build_entry_not_deleted src : is_deleted (build_entry src) = false.
Proof.
  unfold is_deleted, build_entry. cbn [get_prop].
  rewrite assoc_fold_copy_notin; [done |].
  apply (bool_decide_unpack _). by vm_compute.
Qed.

Lemma saved_entry_object m k : is_object (saved_entry m k) = true.
Proof. unfold saved_entry. destruct (m !! k) as [v |]; [destruct (is_object v) |]; done. Qed.

Lemma saved_entry_rebuilt m k : build_entry (saved_entry m k) = saved_entry m k.
Proof.
  unfold saved_entry. destruct (m !! k) as [v |]; [destruct (is_object v) |];
    try reflexivity. apply build_entry_idempotent.
Qed.

Lemma saved_entry_not_deleted m k : is_deleted (saved_entry m k) = false.
Proof.
  unfold saved_entry. destruct (m !! k) as [v |]; [destruct (is_object v) |];
    try reflexivity. apply build_entry_not_deleted.
Qed.

(** ** The persisted map: sorted keys *)

Lemma ascii_compare_spec (x y : ascii) :
  Ascii.compare x y = N.compare (N_of_ascii x) (N_of_ascii y).
Proof. reflexivity. Qed.

Lemma ascii_compare_eq (x y : ascii) : Ascii.compare x y = Eq <-> x = y.
Proof.
  split; [apply Ascii.compare_eq_iff |]. intros ->.
  rewrite ascii_compare_spec. apply N.compare_refl.
Qed.

Lemma key_le_trans (a b c : string) : key_le a b -> key_le b c -> key_le a c.
Proof.
  unfold key_le, localeCompare. revert b c.
  induction a as [| x a IH]; intros [| y b] [| z c]; simpl; try done.
  rewrite !ascii_compare_spec.
  destruct (N.compare_spec (N_of_ascii x) (N_of_ascii y)) as [Exy | Lxy | Gxy];
    destruct (N.compare_spec (N_of_ascii y) (N_of_ascii z)) as [Eyz | Lyz | Gyz];
    destruct (N.compare_spec (N_of_ascii x) (N_of_ascii z)) as [Exz | Lxz | Gxz];
    try done; try lia.
  apply IH.
Qed.

Lemma key_le_antisym (a b : string) : key_le a b -> key_le b a -> a = b.
Proof.
  unfold key_le, localeCompare. intros H1 H2.
  apply String.leb_antisym; unfold String.leb.
  - by destruct (String.compare a b).
  - by destruct (String.compare b a).
Qed.

Lemma key_le_total (a b : string) : key_le a b \/ key_le b a.
Proof.
  unfold key_le, localeCompare. rewrite (String.compare_antisym b a).
  destruct (String.compare a b); simpl; auto.
Qed.

Global Instance key_le_transitive : Transitive key_le.
Proof. intros a b c. apply key_le_trans. Qed.

Global Instance key_le_antisymmetric : AntiSymm (=) key_le.
Proof. intros a b. apply key_le_antisym. Qed.

Lemma sort_insert_perm k l : sort_insert k l ≡ₚ k :: l.
Proof.
  induction l as [| x l IH]; simpl; [done |].
  destruct (localeCompare k x); try done.
  rewrite IH. apply Permutation_swap.
Qed.

Lemma sort_keys_perm l : sort_keys l ≡ₚ l.
Proof.
  induction l as [| k l IH]; simpl; [done |].
  by rewrite sort_insert_perm, IH.
Qed.

Lemma sort_insert_sorted k l :
  StronglySorted key_le l -> StronglySorted key_le (sort_insert k l).
Proof.
  induction l as [| x l IH]; intros Hs; simpl.
  - repeat constructor.
  - apply StronglySorted_inv in Hs as [Hl Hx].
    destruct (localeCompare k x) eqn:E.
    + constructor; [by constructor |].
      assert (key_le k x) as Hkx by (unfold key_le; by rewrite E).
      constructor; [done |]. eapply Forall_impl; [exact Hx |].
      intros y Hy. by apply (key_le_trans k x y).
    + constructor; [by constructor |].
      assert (key_le k x) as Hkx by (unfold key_le; by rewrite E).
      constructor; [done |]. eapply Forall_impl; [exact Hx |].
      intros y Hy. by apply (key_le_trans k x y).
    + constructor; [by apply IH |].
      assert (key_le x k) as Hxk.
      { destruct (key_le_total x k) as [H | H]; [done |].
        unfold key_le in H. by rewrite E in H. }
      rewrite sort_insert_perm. by constructor.
Qed.

Lemma sort_keys_sorted l : StronglySorted key_le (sort_keys l).
Proof.
  induction l as [| k l IH]; simpl; [constructor |]. by apply sort_insert_sorted.
Qed.

(** The sorted keys depend on the set of keys only, not on their order. *)
Lemma sort_keys_unique l1 l2 : l1 ≡ₚ l2 -> sort_keys l1 = sort_keys l2.
Proof.
  intros Hp. apply (StronglySorted_unique key_le); try apply sort_keys_sorted.
  by rewrite !sort_keys_perm.
Qed.

(** ** The persisted map: load after save *)

Lemma load_step_canonical (m : gmap string value) nrm k entry :
  k <> "chat_id" -> is_object entry = true -> is_deleted entry = false ->
  load_step (m, nrm) (VObj [(k, entry)]) = (<[k := build_entry entry]> m, nrm).
Proof.
  intros Hk Ho Hd. unfold load_step. cbn [is_object negb keys_of fmap list_fmap fst length].
  unfold has_key. cbn [get_prop assoc].
  assert (String.eqb "chat_id" k = false) as -> by (apply String.eqb_neq; congruence).
  rewrite String.eqb_refl. cbn. by rewrite Ho, Hd.
Qed.

Lemma load_saved_items (m m0 : gmap string value) nrm ks :
  Forall (fun k => k <> "chat_id") ks ->
  fold_left load_step (map (save_item m) ks) (m0, nrm)
  = (fold_left (fun acc k => <[k := saved_entry m k]> acc) ks m0, nrm).
Proof.
  revert m0. induction ks as [| k ks IH]; intros m0 Hks; [done |].
  apply Forall_cons in Hks as [Hk Hks]. cbn [map fold_left].
  change (save_item m k) with (VObj [(k, saved_entry m k)]).
  rewrite load_step_canonical
    by auto using saved_entry_object, saved_entry_not_deleted.
  rewrite saved_entry_rebuilt. by apply IH.
Qed.

Lemma lookup_fold_insert {A : Type} (g : string -> A) ks (m0 : gmap string A) k :
  fold_left (fun acc k => <[k := g k]> acc) ks m0 !! k
  = if bool_decide (k ∈ ks) then Some (g k) else m0 !! k.
Proof.
  revert m0. induction ks as [| k' ks IH]; intros m0; simpl; [done |].
  rewrite IH. destruct (bool_decide (k ∈ ks)) eqn:E.
  - apply bool_decide_eq_true in E.
    rewrite bool_decide_eq_true_2; [done | by apply elem_of_cons; right].
  - apply bool_decide_eq_false in E. destruct (decide (k = k')) as [-> | Hne].
    + rewrite lookup_insert_eq, bool_decide_eq_true_2; [done | by apply elem_of_cons; left].
    + rewrite lookup_insert_ne by done.
      rewrite bool_decide_eq_false_2; [done |].
      rewrite elem_of_cons. by intros [? | ?].
Qed.

Lemma chat_id_is_not_a_field_name k : is_chat_id k = true -> k <> "chat_id".
Proof. by intros H ->. Qed.

Lemma keys_are_chat_ids (m : gmap string value) ks :
  (forall k, is_Some (m !! k) -> is_chat_id k = true) ->
  ks ≡ₚ (map_to_list m).*1 ->
  Forall (fun k => k <> "chat_id") ks.
Proof.
  intros Hm Hp. apply Forall_forall. intros k Hk.
  apply chat_id_is_not_a_field_name, Hm.
  rewrite Hp in Hk. apply list_elem_of_fmap in Hk as [[k' v] [-> Hk]].
  apply elem_of_map_to_list in Hk. simpl. eauto.
Qed.

(** What [loadMessageMapFromFile] reads from a saved file: the saved entry of
    every chat, and no normalization. *)
Lemma load_saved (m : gmap string value) :
  (forall k, is_Some (m !! k) -> is_chat_id k = true) ->
  snd (loadMessageMapFromFile (Some (saveMessageMapToFile m))) = false
  /\ forall k,
       fst (loadMessageMapFromFile (Some (saveMessageMapToFile m))) !! k
       = (fun _ => saved_entry m k) <$> m !! k.
Proof.
  intros Hm. unfold loadMessageMapFromFile, saveMessageMapToFile.
  rewrite load_saved_items
    by (apply (keys_are_chat_ids m); [done | apply sort_keys_perm]).
  split; [done |]. intros k. cbn [fst]. rewrite lookup_fold_insert, lookup_empty.
  destruct (m !! k) as [v |] eqn:E; simpl.
  - rewrite bool_decide_eq_true_2; [done |].
    rewrite sort_keys_perm. apply list_elem_of_fmap. exists (k, v).
    split; [done |]. by apply elem_of_map_to_list.
  - rewrite bool_decide_eq_false_2; [done |].
    rewrite sort_keys_perm. intros Hk.
    apply list_elem_of_fmap in Hk as [[k' v] [-> Hk]].
    apply elem_of_map_to_list in Hk. simpl in E. congruence.
Qed.

Lemma saved_keys_same (m m' : gmap string value) :
  (forall k, is_Some (m' !! k) <-> is_Some (m !! k)) ->
  (map_to_list m').*1 ≡ₚ (map_to_list m).*1.
Proof.
  intros H. apply NoDup_Permutation; try apply NoDup_fst_map_to_list.
  intros k. split; intros Hk;
    apply list_elem_of_fmap in Hk as [[k' v] [-> Hk]];
    apply elem_of_map_to_list in Hk; simpl;
    [destruct (proj1 (H k')) as [w Hw] | destruct (proj2 (H k')) as [w Hw]]; eauto;
    apply list_elem_of_fmap; exists (k', w); split; try done;
    by apply elem_of_map_to_list.
Qed.

Lemma saved_entry_monitor (m : gmap string value) k v f :
  m !! k = Some v -> In f MONITOR_FIELDS ->
  get_prop (saved_entry m k) f = kept_monitor v f.
Proof.
  intros Hv Hf. unfold saved_entry, kept_monitor. rewrite Hv.
  assert (exists kp, (f, kp) ∈ FIELDS
                     /\ forall x, keeps kp x
                                  = negb (String.eqb f "monitor_host" && negb (truthy x)))
    as (kp & Hin & Hkeeps).
  { simpl in Hf.
    destruct Hf as [<- | [<- | [<- | [<- | [<- | [<- | []]]]]]];
      [exists IfTruthy | exists IfDefined ..];
      (split; [apply list_elem_of_In; simpl; auto 20 |]);
      intros x; simpl; by destruct (truthy x). }
  destruct (is_object v) eqn:Ho.
  - unfold build_entry. cbn [get_prop].
    rewrite (assoc_fold_copy_in v FIELDS f kp FIELDS_NoDup Hin).
    destruct (get_prop v f) as [x |]; [| done]. rewrite Hkeeps.
    by destruct (String.eqb f "monitor_host" && negb (truthy x)).
  - destruct v; try discriminate; reflexivity.
Qed.

(** C7.  A file written by [saveMessageMapToFile] from a map keyed by chat
    identifiers is an array of single-key objects in the lexicographic order
    of their keys, without repetition; loading it normalizes nothing and
    saving what was loaded writes the same document again; every record is
    loaded exactly as the file holds it; and the file holds each of the six
    monitor properties of a record of the map as the record has it (a falsy
    [monitor_host] being the one value that is never written), which is then
    read, and written back, verbatim. *)
Theorem saved_map_round_trip (m : gmap string value)
    (Hkeys : forall k, is_Some (m !! k) -> is_chat_id k = true) :
  let file := saveMessageMapToFile m in
  let loaded := loadMessageMapFromFile (Some file) in
  (exists keys,
     file = VArr (map (fun k => VObj [(k, saved_entry m k)]) keys)
     /\ StronglySorted key_le keys /\ NoDup keys
     /\ forall k, k ∈ keys <-> is_Some (m !! k))
  /\ snd loaded = false
  /\ saveMessageMapToFile (fst loaded) = file
  /\ (forall k v, m !! k = Some v ->
        fst loaded !! k = Some (saved_entry m k)
        /\ saved_entry (fst loaded) k = saved_entry m k
        /\ forall f, In f MONITOR_FIELDS ->
             get_prop (saved_entry m k) f = kept_monitor v f
             /\ get_prop (saved_entry (fst loaded) k) f = kept_monitor v f).
Proof.
  intros file loaded. destruct (load_saved m Hkeys) as [Hn Hl].
  fold file in Hn, Hl. fold loaded in Hn, Hl.
  assert (forall k, saved_entry (fst loaded) k = saved_entry m k) as Hsame.
  { intros k. unfold saved_entry at 1. rewrite Hl.
    destruct (m !! k) as [v |] eqn:E; simpl.
    - rewrite saved_entry_object. apply saved_entry_rebuilt.
    - unfold saved_entry. by rewrite E. }
  split; [| split; [exact Hn | split]].
  - exists (sort_keys (map_to_list m).*1). split; [reflexivity |].
    split; [apply sort_keys_sorted |]. split.
    + rewrite sort_keys_perm. apply NoDup_fst_map_to_list.
    + intros k. rewrite sort_keys_perm. split.
      * intros Hk. apply list_elem_of_fmap in Hk as [[k' v] [-> Hk]].
        apply elem_of_map_to_list in Hk. simpl. eauto.
      * intros [v Hv]. apply list_elem_of_fmap. exists (k, v).
        split; [done |]. by apply elem_of_map_to_list.
  - unfold saveMessageMapToFile at 1. unfold file, saveMessageMapToFile. f_equal.
    rewrite (sort_keys_unique (map_to_list (fst loaded)).*1 (map_to_list m).*1).
    + apply map_ext. intros k. unfold save_item. by rewrite Hsame.
    + apply saved_keys_same. intros k. rewrite Hl.
      destruct (m !! k); simpl; split; intros [? ?]; eauto; done.
  - intros k v Hv. split; [by rewrite Hl, Hv |]. split; [apply Hsame |].
    intros f Hf. rewrite Hsame. split; by apply saved_entry_monitor.
Qed.

(** ** The gateway failure that [sendAlbum] classifies differently *)

(** C2, at the failing input.  The description "Forbidden: bot was kicked from
    the channel chat" does not hold "not a member".  Answered to the send of a
    single photo it is a hard failure that keeps the record; answered to the
    send of an album it removes the record of the chat, marks the map dirty and
    gives the outcome "unregistered". *)
Theorem send_album_removes_chat_on_any_403 :
  description_includes_ci KICKED "not a member" = false
  /\ (let out := exec env_forbidden
                   (reconcile_chat sample_timestamp sample_cacheBustedUrl "-100333")
                   sample_state [] in
      ok (fst (fst out)) = true
      /\ reason (fst (fst out)) = Some "unregistered"
      /\ messageMap (snd (fst out)) !! "-100333" = None
      /\ mapDirty (snd (fst out)) = true)
  /\ (let out := exec env_forbidden
                   (send_single sample_timestamp sample_cacheBustedUrl "-100111"
                      (effective_of "-100111" (record_of sample_state "-100111")))
                   sample_state [] in
      ok (fst (fst out)) = false
      /\ reason (fst (fst out)) = None
      /\ is_Some (messageMap (snd (fst out)) !! "-100111")).
Proof.
  split; [reflexivity |]. split.
  - vm_compute. repeat split.
  - vm_compute. repeat split. eauto.
Qed.

(** ** The empty caption argument on a chat that is not in the map *)

(** C5, at the failing input.  The text "/graphenko_caption  " matches the
    caption grammar with a group that trims to the empty string.  Processed
    on an empty map, the command is answered with the error text alone, and
    yet the map afterwards holds an (empty) record for the chat, which the
    dirty flag does not report: the map was mutated.  The image command,
    answered with its own error text on the same map, leaves the map as it
    was. *)
Lemma empty_caption_argument_creates_record :
  let u := mkUpdate None (Some sample_message) None in
  let v := mkUpdate None
             (Some (mkMessage (Some (mkChat (-100555) "channel"))
                      (Some "/graphenko_image nowhere") None (Some 8))) None in
  let s := mkState ∅ false in
  let out := exec env_accepting (command_step sample_URL_parses u []) s [] in
  let sibling := exec env_accepting (command_step sample_URL_parses v []) s [] in
  match_caption "/graphenko_caption  " = Some " "
  /\ trim " " = ""
  /\ map request_of (snd out) = [Req (SendMessage "-100555" REPLY_CAPTION_EMPTY)]
  /\ messageMap (snd (fst out)) <> messageMap s
  /\ messageMap (snd (fst out)) !! "-100555" = Some empty_record
  /\ mapDirty (snd (fst out)) = false
  /\ map request_of (snd sibling) = [Req (SendMessage "-100555" REPLY_IMAGE_USAGE)]
  /\ messageMap (snd (fst sibling)) = messageMap s.
Proof.
  intros u v s out sibling. split; [reflexivity |]. split; [reflexivity |].
  split; [reflexivity |].
  assert (messageMap (snd (fst out)) !! "-100555" = Some empty_record) as H
    by (by vm_compute).
  split; [intros Heq; rewrite Heq in H; by vm_compute in H |].
  split; [exact H |]. split; [reflexivity |]. split; reflexivity.
Qed.

(** ** The theorems on sample inputs *)

Lemma registration_follows_membership_witness :
  let uj := sample_update "administrator" in
  let ul := sample_update "left" in
  In "channel" ["channel"; "supergroup"; "group"]
  /\ In "administrator" ["administrator"; "creator"; "member"]
  /\ In "left" ["left"; "kicked"; "restricted"]
  /\ messageMap (snd (registerFromUpdates [uj; ul] sample_state)) !! "-100444" = None.
Proof.
  intros uj ul. split; [simpl; auto |]. split; [simpl; auto |]. split; [simpl; auto |].
  apply (registration_follows_membership uj ul
           (mkMember (Some (mkChat (-100444) "channel")) (Some "administrator"))
           (mkMember (Some (mkChat (-100444) "channel")) (Some "left"))
           (mkChat (-100444) "channel") "administrator" "left").
  - repeat split.
  - repeat split.
  - simpl. auto.
  - simpl. auto.
  - simpl. auto.
Defined.

Lemma size_mismatch_unreachable_witness :
  Forall (fun r => reason r <> Some "size-mismatch")
    (fst (fst (exec env_accepting (reconcile_all sample_timestamp sample_cacheBustedUrl)
                 sample_state []))).
Proof.
  apply (size_mismatch_unreachable sample_timestamp sample_cacheBustedUrl env_accepting).
Defined.

Lemma caption_written_back_witness :
  let out := exec env_forbidden
               (reconcile_chat sample_timestamp sample_cacheBustedUrl "-100111")
               sample_state [] in
  messageMap sample_state !! "-100111"
  = Some (record_with (Some (Url "https://host/a.png")) (Some 42) None)
  /\ is_unregistered (fst (fst out)) = false
  /\ ok (fst (fst out)) = false
  /\ exists rec', messageMap (snd (fst out)) !! "-100111" = Some rec'
                  /\ caption rec' = Some DEFAULT_CAPTION
                  /\ mapDirty (snd (fst out)) = true.
Proof.
  intros out. split; [reflexivity |]. split; [reflexivity |]. split; [reflexivity |].
  destruct (caption_written_back sample_timestamp sample_cacheBustedUrl env_forbidden
              "-100111" sample_state []
              (record_with (Some (Url "https://host/a.png")) (Some 42) None)
              eq_refl eq_refl eq_refl eq_refl) as (rec' & H1 & H2 & H3).
  exists rec'. split; [exact H1 |]. exact (H3 eq_refl).
Defined.

Lemma reconciliation_follows_table_witness :
  let rec := record_with (Some (Urls ["u1.png"; "u2.png"; "u3.png"])) None (Some [10; 11]) in
  let e := effective_of "-100333" rec in
  messageMap sample_state !! "-100333" = Some rec
  /\ decision_table None (Some [10; 11]) true 3 = DeleteAlbumSendAlbum [10; 11]
  /\ exec env_accepting (reconcile_chat sample_timestamp sample_cacheBustedUrl "-100333")
       sample_state []
     = exec env_accepting
         (delete_all "-100333" [10; 11] ;;
          send_album sample_timestamp sample_cacheBustedUrl "-100333" e)%M
         sample_state []
  /\ map request_of
       (snd (exec env_accepting
               (reconcile_chat sample_timestamp sample_cacheBustedUrl "-100333")
               sample_state []))
     = [Req (DeleteMessage "-100333" 10);
        Req (DeleteMessage "-100333" 11);
        Req (SendMediaGroup "-100333"
               [("u1.png?cb=1", withTimestamp sample_timestamp DEFAULT_CAPTION);
                ("u2.png?cb=1", ""); ("u3.png?cb=1", "")] None);
        Req (PinChatMessage "-100333" 600)].
Proof.
  intros rec e. split; [reflexivity |]. split; [reflexivity |].
  destruct (proj1 (reconciliation_follows_table sample_timestamp sample_cacheBustedUrl
                     env_accepting "-100333" sample_state [] rec eq_refl eq_refl eq_refl)
              eq_refl) as (Hrow & ops & Hreq & Hops).
  split; [exact Hrow |]. rewrite Hreq. cbv zeta in Hops. simpl in Hops.
  rewrite Hops. reflexivity.
Defined.

Lemma edit_400_is_replaced_by_send_witness :
  let e := effective_of "-100111" (record_of sample_state "-100111") in
  let out := exec env_message_gone
               (edit_single sample_timestamp sample_cacheBustedUrl "-100111" e
                  (Some (IdSingle 42))) sample_state [] in
  description_includes (Some "Bad Request: message to edit not found")
    "message is not modified" = false
  /\ description_includes (Some "Bad Request: message to edit not found")
       "TOPIC_CLOSED" = false
  /\ map request_of
       (snd (exec env_message_gone
               (editPhoto sample_timestamp sample_cacheBustedUrl e 42) sample_state []))
     = [Req (EditMessageMedia "-100111" 42 "https://host/a.png?cb=1"
               (withTimestamp sample_timestamp DEFAULT_CAPTION));
        Req (DeleteMessage "-100111" 42);
        Req (SendPhoto "-100111" "https://host/a.png?cb=1"
               (withTimestamp sample_timestamp DEFAULT_CAPTION) None);
        Req (PinChatMessage "-100111" 502)]
  /\ out_message_id (fst (fst out)) = Some 502
  /\ replaced (fst (fst out)) = true
  /\ exists rec', messageMap (snd (fst out)) !! "-100111" = Some rec'
                  /\ message_id rec' = Some 502.
Proof.
  intros e out. split; [reflexivity |]. split; [reflexivity |].
  pose proof (edit_400_is_replaced_by_send sample_timestamp sample_cacheBustedUrl
                env_message_gone "-100111" e 42 sample_state []
                (Some "Bad Request: message to edit not found")
                eq_refl eq_refl eq_refl) as (_ & Hreq & _ & Hstore).
  split; [exact Hreq |]. split; [reflexivity |].
  apply (Hstore 502).
  - reflexivity.
  - discriminate.
Defined.

Lemma edit_album_in_place_witness :
  let e := effective_of "-100222" (record_of sample_state "-100222") in
  length [10; 11] = length (images_of (e_image_url e))
  /\ message_ids (record_of
        (snd (fst (exec env_accepting
           (edit_album sample_timestamp sample_cacheBustedUrl "-100222" e
              (Some (IdAlbum [10; 11]))) sample_state []))) "-100222")
     = Some [10; 11]
  /\ ok (fst (fst (exec env_accepting
           (editAlbum sample_timestamp sample_cacheBustedUrl e
              (Some (IdAlbum [10; 11]))) sample_state []))) = true.
Proof.
  intros e. split; [reflexivity |].
  destruct (edit_album_in_place sample_timestamp sample_cacheBustedUrl env_accepting
              "-100222" e [10; 11] sample_state [] eq_refl) as (_ & _ & Hok & Hids).
  split; [exact Hids | exact Hok].
Defined.

Lemma caption_command_cases_witness :
  let out := exec env_accepting (caption_command "-100111" sample_message "  -Default ")
               sample_state [] in
  toLowerCase (trim "  -Default ") = "-default"
  /\ caption (record_of (snd (fst out)) "-100111") = None
  /\ mapDirty (snd (fst out)) = false.
Proof.
  intros out. split; [reflexivity |].
  destruct (proj1 (caption_command_cases env_accepting "-100111" sample_message
                     "  -Default " sample_state []) eq_refl) as (H1 & H2 & _).
  split; [exact H1 | exact H2].
Defined.

Lemma image_command_cases_witness :
  let url := "https://example.org/images/kyiv.png" in
  startsWith url OUTAGE_IMAGES_BASE = false
  /\ snd (fst (exec env_accepting
                 (image_command sample_URL_parses "-100111" sample_message url)
                 sample_state [])) = sample_state.
Proof.
  intros url. split; [reflexivity |].
  rewrite (proj1 (image_command_cases sample_URL_parses env_accepting "-100111"
                    sample_message url sample_state []) (or_introl eq_refl)).
  reflexivity.
Defined.

Lemma saved_map_round_trip_witness :
  let loaded := loadMessageMapFromFile (Some (saveMessageMapToFile sample_file_map)) in
  (forall k, is_Some (sample_file_map !! k) -> is_chat_id k = true)
  /\ saveMessageMapToFile (fst loaded) = saveMessageMapToFile sample_file_map
  /\ get_prop (saved_entry (fst loaded) "-100222") "monitor_port" = Some (VNum 443)
  /\ get_prop (saved_entry (fst loaded) "-100222") "monitor_host"
     = Some (VStr "93.127.118.86").
Proof.
  intros loaded.
  assert (forall k, is_Some (sample_file_map !! k) -> is_chat_id k = true) as Hkeys.
  { assert (map_Forall (fun k _ => is_chat_id k = true) sample_file_map) as H
      by (apply (bool_decide_unpack _); vm_compute; exact I).
    intros k [v Hv]. exact (H k v Hv). }
  split; [exact Hkeys |].
  destruct (saved_map_round_trip sample_file_map Hkeys) as (_ & _ & Hfile & Hrec).
  split; [exact Hfile |].
  destruct (Hrec "-100222"
              (VObj [("image_url", VArr [VStr "u1.png"; VStr "u2.png"]);
                     ("message_ids", VArr [VNum 10; VNum 11]);
                     ("monitor_enabled", VBool true);
                     ("monitor_host", VStr "93.127.118.86");
                     ("monitor_port", VNum 443)]) eq_refl) as (_ & _ & Hmon).
  split.
  - apply (Hmon "monitor_port"). simpl. auto.
  - apply (Hmon "monitor_host"). simpl. auto.
Defined.

(** ** Keys of the map *)

Lemma pretty_N_char_digit (d : N) :
  let n := nat_of_ascii (pretty_N_char d) in
  (48 <=? n)%nat && (n <=? 57)%nat = true.
Proof.
  destruct d as [| p]; [reflexivity |].
  do 4 (try destruct p as [p | p |]; try reflexivity).
Qed.

Lemma pretty_N_go_digits (x : N) (acc : string) :
  all_digits acc = true -> all_digits (pretty_N_go x acc) = true.
Proof.
  revert acc. induction (N.lt_wf_0 x) as [x _ IH]; intros acc Hacc.
  destruct (decide (x = 0)%N) as [-> | Hx]; [by rewrite pretty_N_go_0 |].
  rewrite pretty_N_go_step by lia. apply IH.
  - apply N.div_lt; lia.
  - cbn [all_digits]. by rewrite pretty_N_char_digit, Hacc.
Qed.

Lemma pretty_N_go_nonempty (x : N) (acc : string) :
  nonempty acc = true -> nonempty (pretty_N_go x acc) = true.
Proof.
  revert acc. induction (N.lt_wf_0 x) as [x _ IH]; intros acc Hacc.
  destruct (decide (x = 0)%N) as [-> | Hx]; [by rewrite pretty_N_go_0 |].
  rewrite pretty_N_go_step by lia. apply IH; [apply N.div_lt; lia | reflexivity].
Qed.

Lemma pretty_pos_digits (p : positive) :
  all_digits (pretty (N.pos p)) = true /\ nonempty (pretty (N.pos p)) = true.
Proof.
  unfold pretty, pretty_N. rewrite decide_False by done.
  rewrite pretty_N_go_step by lia. split.
  - apply pretty_N_go_digits. cbn [all_digits]. by rewrite pretty_N_char_digit.
  - by apply pretty_N_go_nonempty.
Qed.

Lemma digits_are_chat_id (t : string) :
  all_digits t = true -> nonempty t = true -> is_chat_id t = true.
Proof.
  destruct t as [| c t]; [discriminate |].
  destruct c as [[] [] [] [] [] [] [] []]; simpl; intros H _; try exact H; try discriminate.
Qed.

(** [String(chat.id)] is a chat identifier for every integer id, and distinct
    ids give distinct keys of the map. *)
Lemma String_of_Z_is_chat_id (z : Z) :
  is_chat_id (String_of_Z z) = true
  /\ forall z', String_of_Z z = String_of_Z z' -> z = z'.
Proof.
  split; [| intros z'; apply pretty_Z_inj].
  unfold String_of_Z, pretty, pretty_Z. destruct z as [| p | p].
  - reflexivity.
  - destruct (pretty_pos_digits p). by apply digits_are_chat_id.
  - destruct (pretty_pos_digits p) as [Hd Hn].
    change (nonempty (pretty (N.pos p)) && all_digits (pretty (N.pos p)) = true).
    by rewrite Hd, Hn.
Qed.

Lemma register_step_keys newly s u k :
  is_Some (messageMap (snd (register_step (newly, s) u)) !! k) ->
  is_Some (messageMap s !! k) \/ exists z, k = String_of_Z z.
Proof.
  unfold register_step.
  destruct (my_chat_member u) as [mcm |]; [| auto].
  destruct (mcm_chat mcm) as [ch |]; [| auto].
  destruct (_ && _); [auto |].
  destruct (status_in ["left"; "kicked"; "restricted"] (new_status mcm)).
  - unfold removeChat.
    destruct (messageMap s !! String_of_Z (c_id ch)) eqn:E; simpl; [| auto].
    rewrite lookup_delete. case_decide; [by intros [? ?] | auto].
  - destruct (negb _); [auto |]. simpl. unfold ensure_record.
    destruct (messageMap s !! String_of_Z (c_id ch)) eqn:E; simpl; [auto |].
    rewrite lookup_insert. case_decide as Hk; [| auto].
    intros _. right. by exists (c_id ch).
Qed.

(** X11.  Registration adds no key that is not a chat identifier: if every key of
    the map is a string-typed integer before a batch of updates, every key is
    one after it. *)
Theorem registration_keeps_chat_id_keys (updates : list Update) (s : state)
    (Hkeys : forall k, is_Some (messageMap s !! k) -> is_chat_id k = true) :
  forall k, is_Some (messageMap (snd (registerFromUpdates updates s)) !! k) ->
            is_chat_id k = true.
Proof.
  intros k. unfold registerFromUpdates.
  destruct (fold_left register_step updates ([], s)) as [newly s1] eqn:E.
  assert (forall k, is_Some (messageMap s1 !! k) -> is_chat_id k = true) as H1.
  { clear k. change s1 with (snd (newly, s1)). rewrite <- E. clear E.
    generalize (@nil string). revert s Hkeys.
    induction updates as [| u rest IH]; intros s Hkeys newly0; [exact Hkeys |].
    cbn [fold_left].
    destruct (register_step (newly0, s) u) as [newly1 s2] eqn:E.
    apply IH. intros k Hk.
    pose proof (register_step_keys newly0 s u k) as Hs. rewrite E in Hs.
    destruct (Hs Hk) as [? | [z ->]]; [auto | apply String_of_Z_is_chat_id]. }
  simpl. destruct (0 <? length newly)%nat; apply H1.
Qed.

(** ** The persisted map: what a load keeps *)

Lemma load_step_built (acc : gmap string value * bool) (item : value) :
  map_Forall (fun _ v => exists src, v = build_entry src) (fst acc) ->
  map_Forall (fun _ v => exists src, v = build_entry src) (fst (load_step acc item)).
Proof.
  destruct acc as [m nrm]. intros Hm. unfold load_step.
  destruct (negb (is_object item)); [exact Hm |].
  destruct ((length (keys_of item) =? 1)%nat && negb (has_key item "chat_id")).
  - destruct (keys_of item) as [| k ks]; [exact Hm |].
    destruct (get_prop item k) as [val |]; [| exact Hm].
    destruct (is_object val); [| exact Hm].
    destruct (is_deleted val); [exact Hm |].
    apply map_Forall_insert_2; eauto.
  - destruct (has_key item "chat_id"); [| exact Hm].
    destruct (negb _); [exact Hm |].
    destruct (is_deleted item); [exact Hm |].
    apply map_Forall_insert_2; eauto.
Qed.

Lemma loaded_built (file : option value) :
  map_Forall (fun _ v => exists src, v = build_entry src)
    (fst (loadMessageMapFromFile file)).
Proof.
  unfold loadMessageMapFromFile.
  destruct file as [[| | | | arr |] |]; try apply map_Forall_empty.
  assert (forall acc, map_Forall (fun _ v => exists src, v = build_entry src) (fst acc) ->
            map_Forall (fun _ v => exists src, v = build_entry src)
              (fst (fold_left load_step arr acc))) as H.
  { induction arr as [| item arr IH]; intros acc Hacc; [exact Hacc |].
    cbn [fold_left]. by apply IH, load_step_built. }
  apply H, map_Forall_empty.
Qed.

Lemma get_prop_build_entry src f x :
  get_prop (build_entry src) f = Some x ->
  exists kp, (f, kp) ∈ FIELDS /\ get_prop src f = Some x /\ keeps kp x = true.
Proof.
  intros H.
  change (assoc f (fold_left (copy_field src) FIELDS []) = Some x) in H.
  destruct (decide (f ∈ FIELDS.*1)) as [Hin | Hout].
  - apply list_elem_of_fmap in Hin as [[f' kp] [-> Hin]]. cbn [fst] in H |- *.
    rewrite (assoc_fold_copy_in src FIELDS f' kp FIELDS_NoDup Hin) in H.
    exists kp. split; [done |].
    destruct (get_prop src f') as [v |]; [| done].
    destruct (keeps kp v) eqn:E; [| done]. injection H as <-. done.
  - by rewrite assoc_fold_copy_notin in H.
Qed.

(** X17.  Whatever the file holds, every entry of the loaded map is an object that a
    rebuild leaves as it is, without a [deleted] flag, and made of the twelve
    known properties only, each satisfying the test of its copying statement:
    a stored [image_url] or [monitor_host] is truthy, and no [chat_id] and no
    unknown property reaches the map. *)
Theorem loaded_entries_are_rebuilt (file : option value) (k : string) (v : value)
    (Hk : fst (loadMessageMapFromFile file) !! k = Some v) :
  is_object v = true
  /\ build_entry v = v
  /\ is_deleted v = false
  /\ forall f x, get_prop v f = Some x ->
       exists kp, (f, kp) ∈ FIELDS /\ keeps kp x = true.
Proof.
  destruct (loaded_built file k v Hk) as [src ->].
  split; [done |]. split; [apply build_entry_idempotent |].
  split; [apply build_entry_not_deleted |].
  intros f x H. destruct (get_prop_build_entry src f x H) as (kp & ? & _ & ?). eauto.
Qed.

(** X18.  One normalization is enough: when the keys that a load produced are chat
    identifiers, saving the loaded map and loading the saved file gives the
    same map again, and reports nothing to normalize. *)
Theorem normalized_file_is_stable (file : option value)
    (Hkeys : forall k, is_Some (fst (loadMessageMapFromFile file) !! k) ->
                       is_chat_id k = true) :
  let m := fst (loadMessageMapFromFile file) in
  loadMessageMapFromFile (Some (saveMessageMapToFile m)) = (m, false).
Proof.
  intros m. destruct (load_saved m Hkeys) as [Hn Hl].
  destruct (loadMessageMapFromFile (Some (saveMessageMapToFile m))) as [m' nrm].
  simpl in Hn, Hl. subst nrm. f_equal.
  apply map_eq. intros k. rewrite Hl.
  destruct (m !! k) as [v |] eqn:E; [| done]. simpl. f_equal.
  destruct (loaded_built file k v E) as [src ->].
  unfold saved_entry. rewrite E. simpl. apply build_entry_idempotent.
Qed.

(** X19.  A flat record [{ chat_id, ... }] is loaded as the canonical record
    [{ "<chat_id>": { ... } }] with the same properties would be, under the
    key [String(chat_id)], dropped alike when it is marked deleted; the only
    difference is that the flat shape always flags the file as normalized. *)
Theorem flat_item_loads_as_canonical (acc : gmap string value * bool)
    (props : list (string * value)) (cid : value)
    (Hcid : get_prop (VObj props) "chat_id" = Some cid)
    (Hne : nonempty (js_String cid) = true)
    (Hk : js_String cid <> "chat_id") :
  load_step acc (VObj props)
  = (fst (load_step acc (VObj [(js_String cid, VObj props)])), true).
Proof.
  destruct acc as [m nrm].
  assert (has_key (VObj props) "chat_id" = true) as Hhas
    by (unfold has_key; by rewrite Hcid).
  unfold load_step at 1. cbn [is_object negb]. rewrite Hhas, andb_false_r.
  rewrite Hcid. cbn [default]. change (id cid) with cid. rewrite Hne. cbn [negb].
  destruct (is_deleted (VObj props)) eqn:Hd.
  - unfold load_step. cbn [is_object negb keys_of fmap list_fmap fst length].
    unfold has_key. cbn [get_prop assoc].
    assert (String.eqb "chat_id" (js_String cid) = false) as ->
      by (apply String.eqb_neq; congruence).
    rewrite String.eqb_refl. cbn. by rewrite Hd.
  - by rewrite load_step_canonical.
Qed.

(** ** The further theorems on sample inputs *)

Lemma reconcile_chat_leaves_other_chats_witness :
  messageMap (snd (fst (exec env_forbidden
                          (reconcile_chat sample_timestamp sample_cacheBustedUrl "-100333")
                          sample_state []))) !! "-100222"
  = messageMap sample_state !! "-100222".
Proof.
  apply (reconcile_chat_leaves_other_chats sample_timestamp sample_cacheBustedUrl
           env_forbidden "-100333" "-100222" sample_state []).
  discriminate.
Defined.

Lemma reconcile_all_keeps_ids_exclusive_witness :
  map_Forall (fun _ r => ids_exclusive r) (messageMap sample_state)
  /\ map_Forall (fun _ r => ids_exclusive r)
       (messageMap (snd (fst (exec env_message_gone
                                (reconcile_all sample_timestamp sample_cacheBustedUrl)
                                sample_state [])))).
Proof.
  assert (map_Forall (fun _ r => ids_exclusive r) (messageMap sample_state)) as Hall.
  { unfold sample_state. cbn [messageMap].
    repeat (apply map_Forall_insert_2; [reflexivity |]). apply map_Forall_empty. }
  split; [exact Hall |].
  apply (reconcile_all_keeps_ids_exclusive sample_timestamp sample_cacheBustedUrl
           env_message_gone sample_state [] Hall).
Defined.

Lemma registration_only_creates_empty_records_witness :
  messageMap sample_state !! "-100444" = Some empty_record
  \/ (empty_record = empty_record /\ image_url empty_record = None).
Proof.
  apply (registration_only_creates_empty_records [sample_update "administrator"]
           sample_state "-100444" empty_record).
  reflexivity.
Defined.

Lemma registration_marks_every_change_witness :
  let updates := [mkUpdate None (Some sample_message) None] in
  messageMap (snd (registerFromUpdates updates sample_state)) = messageMap sample_state
  /\ fst (registerFromUpdates updates sample_state) = [].
Proof.
  intros updates.
  apply (proj1 (registration_marks_every_change updates sample_state)).
  reflexivity.
Defined.

Lemma first_send_stores_the_id_witness :
  messageMap (snd (fst (exec env_accepting
                          (reconcile_chat sample_timestamp sample_cacheBustedUrl "-100555")
                          sample_new_state []))) !! "-100555"
  = Some (set_caption (Some DEFAULT_CAPTION)
            (record_with (Some (Url "https://host/b.png")) (Some 501) None)).
Proof.
  apply (first_send_stores_the_id sample_timestamp sample_cacheBustedUrl env_accepting
           "-100555" sample_new_state []
           (record_with (Some (Url "https://host/b.png")) None None) 501);
    try reflexivity.
  discriminate.
Defined.

Lemma accepted_edit_creates_no_message_witness :
  map request_of
    (snd (exec env_accepting
            (reconcile_chat sample_timestamp sample_cacheBustedUrl "-100111")
            sample_state []))
  = [Req (EditMessageMedia "-100111" 42 "https://host/a.png?cb=1"
            (withTimestamp sample_timestamp DEFAULT_CAPTION));
     Req (PinChatMessage "-100111" 42)].
Proof.
  apply (accepted_edit_creates_no_message sample_timestamp sample_cacheBustedUrl
           env_accepting "-100111" sample_state []
           (record_with (Some (Url "https://host/a.png")) (Some 42) None) 42);
    try reflexivity.
  discriminate.
Defined.

Lemma resized_album_is_resent_witness :
  message_ids (record_of
     (snd (fst (exec env_message_gone
                  (reconcile_chat sample_timestamp sample_cacheBustedUrl "-100333")
                  sample_state []))) "-100333")
  = Some [601; 602].
Proof.
  pose proof (resized_album_is_resent sample_timestamp sample_cacheBustedUrl
                env_message_gone "-100333" sample_state []
                (record_with (Some (Urls ["u1.png"; "u2.png"; "u3.png"])) None
                   (Some [10; 11]))
                ["u1.png"; "u2.png"; "u3.png"] [10; 11] [601; 602]
                eq_refl eq_refl eq_refl) as H.
  destruct H as (_ & _ & H).
  - simpl. lia.
  - reflexivity.
  - reflexivity.
  - simpl. lia.
  - discriminate.
  - intros tr0 media thread. reflexivity.
  - unfold record_of. rewrite H. reflexivity.
Defined.

Lemma command_grammars_are_exclusive_witness :
  let text := String.append "/graphenko_image@bot"
                (String.append (utf8 160) (String.append "https://host/a.png" (utf8 8195))) in
  match_image text = Some "https://host/a.png"
  /\ match_caption text = None
  /\ no_ws "https://host/a.png" = true.
Proof.
  intros text. split; [reflexivity |]. split; [reflexivity |].
  apply (proj2 (proj2 (command_grammars_are_exclusive text)) "https://host/a.png").
  reflexivity.
Defined.

Lemma command_touches_its_chat_only_witness :
  exec env_accepting (command_step sample_URL_parses (sample_update "left") ["-100111"])
    sample_state []
  = ((["-100111"], sample_state), []).
Proof.
  apply (command_touches_its_chat_only sample_URL_parses env_accepting
           (sample_update "left") ["-100111"] sample_state []).
  reflexivity.
Defined.

Lemma verification_ignores_content_type_witness :
  isValidOutageImageUrl sample_URL_parses sample_png_url = true
  /\ fst (fst (exec env_accepting (verifyRemotePng sample_png_url) sample_state []))
     = true.
Proof.
  split; [reflexivity |].
  rewrite (verification_ignores_content_type sample_URL_parses env_accepting
             sample_png_url sample_state [] eq_refl).
  reflexivity.
Defined.

Lemma unverified_image_changes_nothing_witness :
  snd (fst (exec env_forbidden
              (image_command sample_URL_parses "-100111" sample_message sample_png_url)
              sample_state []))
  = sample_state.
Proof.
  rewrite (unverified_image_changes_nothing sample_URL_parses env_forbidden "-100111"
             sample_message sample_png_url sample_state [] eq_refl eq_refl).
  reflexivity.
Defined.

Lemma chat_removed_iff_unregistered_witness :
  messageMap (snd (fst (exec env_forbidden
                          (reconcile_chat sample_timestamp sample_cacheBustedUrl "-100333")
                          sample_state []))) !! "-100333"
  = None.
Proof.
  apply (chat_removed_iff_unregistered sample_timestamp sample_cacheBustedUrl
           env_forbidden "-100333" sample_state []).
  - eexists. reflexivity.
  - reflexivity.
Defined.

Lemma ids_change_only_with_an_answer_witness :
  message_id (record_of
     (snd (fst (exec env_forbidden
                  (reconcile_chat sample_timestamp sample_cacheBustedUrl "-100111")
                  sample_state []))) "-100111")
  = Some 42.
Proof.
  apply (ids_change_only_with_an_answer sample_timestamp sample_cacheBustedUrl
           env_forbidden "-100111" sample_state []); reflexivity.
Defined.

Lemma registration_keeps_chat_id_keys_witness :
  (forall k, is_Some (messageMap sample_state !! k) -> is_chat_id k = true)
  /\ is_chat_id "-100444" = true.
Proof.
  assert (forall k, is_Some (messageMap sample_state !! k) -> is_chat_id k = true)
    as Hkeys.
  { assert (map_Forall (fun k _ => is_chat_id k = true) (messageMap sample_state)) as H
      by (apply (bool_decide_unpack _); vm_compute; exact I).
    intros k [v Hv]. exact (H k v Hv). }
  split; [exact Hkeys |].
  apply (registration_keeps_chat_id_keys [sample_update "creator"] sample_state Hkeys).
  eexists. reflexivity.
Defined.

Lemma loaded_entries_are_rebuilt_witness :
  fst (loadMessageMapFromFile (Some sample_flat_file)) !! "-100777"
  = Some (VObj [("image_url", VStr "https://host/c.png")])
  /\ fst (loadMessageMapFromFile (Some sample_flat_file)) !! "-100888" = None
  /\ is_deleted (VObj [("image_url", VStr "https://host/c.png")]) = false.
Proof.
  split; [reflexivity |]. split; [reflexivity |].
  apply (loaded_entries_are_rebuilt (Some sample_flat_file) "-100777"
           (VObj [("image_url", VStr "https://host/c.png")])).
  reflexivity.
Defined.

Lemma normalized_file_is_stable_witness :
  let m := fst (loadMessageMapFromFile (Some sample_flat_file)) in
  snd (loadMessageMapFromFile (Some sample_flat_file)) = true
  /\ loadMessageMapFromFile (Some (saveMessageMapToFile m)) = (m, false).
Proof.
  intros m. split; [reflexivity |].
  apply (normalized_file_is_stable (Some sample_flat_file)).
  assert (map_Forall (fun k _ => is_chat_id k = true)
            (fst (loadMessageMapFromFile (Some sample_flat_file)))) as H
    by (apply (bool_decide_unpack _); vm_compute; exact I).
  intros k [v Hv]. exact (H k v Hv).
Defined.

Lemma flat_item_loads_as_canonical_witness :
  let props := [("chat_id", VStr "-100777"); ("image_url", VStr "https://host/c.png")] in
  load_step (∅, false) (VObj props)
  = (fst (load_step (∅, false) (VObj [("-100777", VObj props)])), true).
Proof.
  intros props.
  apply (flat_item_loads_as_canonical (∅, false) props (VStr "-100777")).
  - reflexivity.
  - reflexivity.
  - discriminate.
Defined.

Lemma chat_without_command_stays_dormant_witness :
  let updates := [sample_update "member"; mkUpdate None (Some sample_message) None] in
  let s1 := snd (fst (exec env_accepting (before_loop sample_URL_parses updates)
                        sample_state [])) in
  welcome_message_id (record_of s1 "-100444") = Some 701
  /\ snd (exec env_accepting
            (reconcile_chat sample_timestamp sample_cacheBustedUrl "-100444") s1 []) = [].
Proof.
  intros updates s1. split; [reflexivity |].
  apply (chat_without_command_stays_dormant sample_timestamp sample_cacheBustedUrl
           sample_URL_parses env_accepting updates sample_state [] "-100444").
  - reflexivity.
  - repeat constructor; intros H; vm_compute in H; discriminate.
Defined.
